(** * gDLS* robust estimator: a shallow embedding of
      [src/gdls_star/gdls_star_robust_estimator.cc] and its properties.

    The file models the RANSAC driver of the gDLS* pose-and-scale estimator:
    the constructor, [RandInt], [Sample], [UpdateBestSolution],
    [ComputeMaxIterations] and [Estimate].

    - C++ [double] is IEEE-754 binary64: Rocq's primitive [float].
    - C++ [int] is a 32-bit two's complement integer, modelled in [Z];
      [size_t] values are list lengths.
    - A call either returns, aborts on a failed glog [CHECK], or runs into
      behaviour the C++ standard leaves undefined: see [outcome].
    - Code that is not in this translation unit (Eigen, the pinhole camera,
      the minimal solver, the random engine, libm) is taken as a parameter
      through the classes [Geometry], [MinimalSolver], [RandomEngine] and
      [Libm]. *)

From Stdlib Require Import ZArith Lia Bool List Floats Reals Lra Psatz ROrderedType.
From stdpp Require Import base list sorting.
Import ListNotations.

Local Open Scope Z_scope.

(** ** Outcomes *)

Inductive outcome (A : Type) : Type :=
  | Ok (a : A)   (* the call returns [a] *)
  | Fatal        (* a glog CHECK failed: the process is aborted *)
  | Undefined    (* undefined behaviour in the C++ sense *)
  | OutOfFuel.   (* the model's loop budget ran out (shown unreachable) *)
Arguments Ok {A} a.
Arguments Fatal {A}.
Arguments Undefined {A}.
Arguments OutOfFuel {A}.

#[global] Instance outcome_ret : MRet outcome := fun A a => Ok a.
#[global] Instance outcome_bind : MBind outcome := fun A B f m =>
  match m with
  | Ok a => f a
  | Fatal => Fatal
  | Undefined => Undefined
  | OutOfFuel => OutOfFuel
  end.

(** [CHECK(cond)] of glog. *)
Definition CHECK (cond : bool) : outcome unit :=
  if cond then Ok tt else Fatal.

(** A counted [for (int i = lo; i < hi; ++i)] loop whose bounds do not change. *)
Fixpoint for_loop {S : Type} (count : nat) (i : Z)
    (body : Z -> S -> outcome S) (s : S) : outcome S :=
  match count with
  | O => Ok s
  | Datatypes.S count' => s' ← body i s; for_loop count' (i + 1) body s'
  end.

Definition for_range {S : Type} (lo hi : Z)
    (body : Z -> S -> outcome S) (s : S) : outcome S :=
  for_loop (Z.to_nat (hi - lo)) lo body s.

(** ** Machine integers and vectors *)

Definition INT_MIN : Z := -2147483648.
Definition INT_MAX : Z := 2147483647.

(** Conversion of an integer value to [int]: reduction modulo 2^32. *)
Definition wrap_int (z : Z) : Z := (z + 2147483648) mod 4294967296 - 2147483648.

(** [v.size()] *)
Definition size {A : Type} (v : list A) : Z := Z.of_nat (length v).

(** [v[i]] of a [std::vector]: reading outside the vector is undefined. *)
Definition vec_get {A : Type} (v : list A) (i : Z) : outcome A :=
  match (if 0 <=? i then v !! Z.to_nat i else None) with
  | Some x => Ok x
  | None => Undefined
  end.

(** [v[i] = x] *)
Definition vec_set {A : Type} (v : list A) (i : Z) (x : A) : outcome (list A) :=
  if (0 <=? i) && (i <? size v) then Ok (<[Z.to_nat i := x]> v) else Undefined.

(** [std::swap(v[i], v[j])] *)
Definition vec_swap {A : Type} (v : list A) (i j : Z) : outcome (list A) :=
  a ← vec_get v i;
  b ← vec_get v j;
  v' ← vec_set v i b;
  vec_set v' j a.

(** [std::iota(first, last, 0)] over a [vector<int>] of [n] elements: the
    stored values are [int]s, the increment overflows past [INT_MAX]. *)
Definition iota (n : nat) : outcome (list Z) :=
  if Z.of_nat n <=? INT_MAX + 1 then Ok (map Z.of_nat (seq 0 n)) else Undefined.

(** [std::clamp(v, lo, hi)] *)
Definition clamp (v lo hi : Z) : Z :=
  if v <? lo then lo else if hi <? v then hi else v.

(** ** Doubles *)

Abbreviation double := float.

(** [std::numeric_limits<double>::epsilon()] *)
Definition epsilon : double := 0x1p-52%float.

(** Conversion of a [size_t] (below 2^63) to [double], round to nearest. *)
Definition double_of_size_t (n : Z) : double := PrimFloat.of_uint63 (Uint63.of_Z n).

(** Conversion of an [int] to [double] (exact). *)
Definition double_of_int (z : Z) : double :=
  if z <? 0 then (- PrimFloat.of_uint63 (Uint63.of_Z (- z)))%float
  else PrimFloat.of_uint63 (Uint63.of_Z z).

(** Truncation toward zero of a finite double. *)
Definition truncate (x : double) : option Z :=
  match Prim2SF x with
  | S754_zero _ => Some 0
  | S754_finite s m e =>
      let a := if 0 <=? e then Z.pos m * 2 ^ e else Z.pos m / 2 ^ (- e) in
      Some (if s then - a else a)
  | S754_infinity _ | S754_nan => None
  end.

(** [static_cast<int>(x)]: the fractional part is discarded; the behaviour is
    undefined when the truncated value is not representable as an [int]. *)
Definition static_cast_int (x : double) : outcome Z :=
  match truncate x with
  | Some z => if (INT_MIN <=? z) && (z <=? INT_MAX) then Ok z else Undefined
  | None => Undefined
  end.

(** ** Collaborators outside this translation unit *)

(** Eigen's vectors and quaternions and the pinhole camera. *)
Class Geometry := {
  Quaterniond : Type;
  Vector3d : Type;
  Vector2d : Type;
  PinholeCamera : Type;
  Quaterniond_Identity : Quaterniond;
  Vector3d_Zero : Vector3d;
  (** [(rotation * point + translation) / scale] *)
  transform_point : Quaterniond -> Vector3d -> Vector3d -> double -> Vector3d;
  (** [camera.ProjectPoint(point, &pixel)]: [None] when the returned value is
      negative, otherwise the pixel written. *)
  ProjectPoint : PinholeCamera -> Vector3d -> option Vector2d;
  (** [(pixel - observation).squaredNorm()] *)
  squared_distance : Vector2d -> Vector2d -> double;
}.

(** The minimal solver [GdlsStar] and the assembly of its input. *)
Class MinimalSolver (Correspondence Solution : Type) := {
  Priors : Type;
  Input : Type;
  ComputeInputDatum : list Correspondence -> Input;
  (** [input.priors = priors] *)
  set_priors : Input -> Priors -> Input;
  (** [estimator_.EstimateSimilarityTransformation(input, &hypotheses)]: the
      success flag and the new contents of [hypotheses]. *)
  EstimateSimilarityTransformation : Input -> Solution -> bool * Solution;
}.

(** The random engine [prng_] with [std::uniform_int_distribution<int>]. *)
Class RandomEngine := {
  prng : Type;
  prng_seed : Z -> prng;
  uniform_int : prng -> Z -> Z -> Z * prng;
}.

(** What the C++ standard promises of [uniform_int_distribution(a, b)]. *)
Definition uniform_int_in_range `{RandomEngine} : Prop :=
  forall g a b, a <= b -> a <= fst (uniform_int g a b) <= b.

(** [std::log] and [std::pow] on doubles. *)
Class Libm := {
  libm_log : double -> double;
  libm_pow : double -> double -> double;
}.

(** ** Data model *)

Definition kMinimalSampleSize : Z := 4.

(** [GdlsStarRobustEstimator::RansacParameters] *)
Record RansacParameters := {
  failure_probability : double;
  reprojection_error_thresh : double;
  min_iterations : Z;
  max_iterations : Z;
  seed : Z;
}.

(** [GdlsStarRobustEstimator::RansacSummary] *)
Record RansacSummary := {
  inliers : list Z;
  num_iterations : Z;
  num_hypotheses : Z;
  confidence : double;
}.

Section DataModel.
Context `{G : Geometry}.

(** [CameraFeatureCorrespondence2D3D] *)
Record CameraFeatureCorrespondence2D3D := {
  camera : PinholeCamera;
  observation : Vector2d;
  point : Vector3d;
}.

(** [GdlsStar::Solution]: parallel vectors, one entry per hypothesis. *)
Record Solution := {
  rotations : list Quaterniond;
  translations : list Vector3d;
  scales : list double;
}.

Definition empty_solution : Solution :=
  {| rotations := []; translations := []; scales := [] |}.

(** The best solution [Estimate] starts from. *)
Definition identity_solution : Solution :=
  {| rotations := [Quaterniond_Identity];
     translations := [Vector3d_Zero];
     scales := [1%float] |}.
End DataModel.

(** The mutable members of [GdlsStarRobustEstimator]. *)
Record GdlsStarRobustEstimator `{R : RandomEngine} := {
  params_ : RansacParameters;
  prng_ : prng;
  correspondence_indices_ : list Z;
}.

Section Estimator.
Context `{G : Geometry} `{R : RandomEngine} `{L : Libm}.
Context `{M : !MinimalSolver CameraFeatureCorrespondence2D3D Solution}.

#[local] Abbreviation Correspondence := CameraFeatureCorrespondence2D3D.
#[local] Abbreviation Estimator := GdlsStarRobustEstimator.

(** *** Constructor (lines 29-38) *)
Definition Build (ransac_params : RansacParameters) : outcome Estimator :=
  let self := {| params_ := ransac_params;
                 prng_ := prng_seed (seed ransac_params);
                 correspondence_indices_ := [] |} in
  _ ← CHECK (0 <? failure_probability (params_ self))%float;
  _ ← CHECK (failure_probability (params_ self) <? 1)%float;
  _ ← CHECK (0 <? reprojection_error_thresh (params_ self))%float;
  _ ← CHECK (0 <=? min_iterations (params_ self));
  _ ← CHECK (min_iterations (params_ self) <? max_iterations (params_ self));
  Ok self.

(** *** RandInt (lines 40-43); the distribution requires [min <= max]. *)
Definition RandInt (g : prng) (min_value max_value : Z) : outcome (Z * prng) :=
  if min_value <=? max_value then Ok (uniform_int g min_value max_value)
  else Undefined.

(** *** Sample (lines 45-59) *)
Definition Sample_step (correspondences : list Correspondence)
    (num_correspondences : Z) (i : Z)
    (st : Estimator * list Correspondence)
    : outcome (Estimator * list Correspondence) :=
  let '(self, sample) := st in
  '(j, g) ← RandInt (prng_ self) i (num_correspondences - 1);
  indices ← vec_swap (correspondence_indices_ self) i j;
  k ← vec_get indices i;
  c ← vec_get correspondences k;
  Ok ({| params_ := params_ self; prng_ := g;
         correspondence_indices_ := indices |}, sample ++ [c]).

Definition Sample (self : Estimator) (correspondences : list Correspondence)
    : outcome (list Correspondence * Estimator) :=
  let num_correspondences := wrap_int (size correspondences) in
  '(self', sample) ← for_range 0 kMinimalSampleSize
      (Sample_step correspondences num_correspondences) (self, []);
  Ok (sample, self').

(** *** UpdateBestSolution (lines 61-120) *)

(** Lines 90-103: is correspondence [c] an inlier of the hypothesis? *)
Definition is_inlier (sq_reprojection_error_thresh : double)
    (rotation : Quaterniond) (translation : Vector3d) (scale : double)
    (c : Correspondence) : bool :=
  let point_in_gen_camera :=
    transform_point rotation (point c) translation scale in
  match ProjectPoint (camera c) point_in_gen_camera with
  | None => false
  | Some pixel =>
      (squared_distance pixel (observation c) <? sq_reprojection_error_thresh)%float
  end.

(** Lines 85-104, the loop over [int j]. *)
Definition score_step (correspondences : list Correspondence)
    (sq_thresh : double) (rotation : Quaterniond) (translation : Vector3d)
    (scale : double) (j : Z) (inliers : list Z) : outcome (list Z) :=
  c ← vec_get correspondences j;
  if is_inlier sq_thresh rotation translation scale c
  then Ok (inliers ++ [j]) else Ok inliers.

Definition score (correspondences : list Correspondence)
    (sq_thresh : double) (rotation : Quaterniond) (translation : Vector3d)
    (scale : double) : outcome (list Z) :=
  if size correspondences <=? INT_MAX then
    for_range 0 (size correspondences)
      (score_step correspondences sq_thresh rotation translation scale) []
  else Undefined.

(** Lines 77-117, one hypothesis. *)
Definition UpdateBestSolution_step (sq_thresh : double)
    (correspondences : list Correspondence) (estimated_solns : Solution)
    (i : Z) (st : double * Solution * list Z)
    : outcome (double * Solution * list Z) :=
  let '(best_inlier_ratio, best_solution, best_inliers) := st in
  rotation ← vec_get (rotations estimated_solns) i;
  translation ← vec_get (translations estimated_solns) i;
  scale ← vec_get (scales estimated_solns) i;
  inliers ← score correspondences sq_thresh rotation translation scale;
  if size best_inliers <? size inliers then
    rs ← vec_set (rotations best_solution) 0 rotation;
    ts ← vec_set (translations best_solution) 0 translation;
    ss ← vec_set (scales best_solution) 0 scale;
    Ok ((double_of_size_t (size inliers)
           / double_of_size_t (size correspondences))%float,
        {| rotations := rs; translations := ts; scales := ss |},
        inliers)
  else Ok st.

Definition UpdateBestSolution (self : Estimator)
    (correspondences : list Correspondence) (estimated_solns : Solution)
    (best_solution : Solution) (best_inliers : list Z)
    : outcome (double * Solution * list Z) :=
  let num_estimated_solns := wrap_int (size (rotations estimated_solns)) in
  let sq_reprojection_error_thresh :=
    (reprojection_error_thresh (params_ self)
       * reprojection_error_thresh (params_ self))%float in
  let best_inlier_ratio :=
    (double_of_size_t (size best_inliers)
       / double_of_size_t (size correspondences) + epsilon)%float in
  for_range 0 num_estimated_solns
    (UpdateBestSolution_step sq_reprojection_error_thresh
       correspondences estimated_solns)
    (best_inlier_ratio, best_solution, best_inliers).

(** *** ComputeMaxIterations (lines 122-141) *)
Definition ComputeMaxIterations (self : Estimator)
    (inlier_ratio log_failure_prob : double) : outcome Z :=
  _ ← CHECK (0 <? inlier_ratio)%float;
  if (inlier_ratio =? 1)%float then Ok (min_iterations (params_ self))
  else
    let log_prob :=
      (libm_log (1 - libm_pow inlier_ratio (double_of_int kMinimalSampleSize))
         - epsilon)%float in
    num_iterations ← static_cast_int (log_failure_prob / log_prob)%float;
    Ok (clamp num_iterations
          (min_iterations (params_ self)) (max_iterations (params_ self))).

(** *** Estimate (lines 143-206) *)

(** The variables the hypothesize-and-test loop changes. *)
Record loop_state := {
  ls_self : Estimator;
  ls_summary : RansacSummary;
  ls_max_iterations : Z;
  ls_hypotheses : Solution;
  ls_best_solution : Solution;
  ls_inlier_ratio : double;
}.

Definition next_iteration (summary : RansacSummary) : RansacSummary :=
  {| inliers := inliers summary;
     num_iterations := num_iterations summary + 1;
     num_hypotheses := num_hypotheses summary;
     confidence := confidence summary |}.

(** Lines 174-196 followed by [++summary.num_iterations]. *)
Definition Estimate_iteration (priors : Priors)
    (correspondences : list Correspondence) (log_failure_prob : double)
    (st : loop_state) : outcome loop_state :=
  '(sample, self) ← Sample (ls_self st) correspondences;
  let input := set_priors (ComputeInputDatum sample) priors in
  let '(ok, hypotheses) :=
    EstimateSimilarityTransformation input (ls_hypotheses st) in
  if negb ok then
    Ok {| ls_self := self;
          ls_summary := next_iteration (ls_summary st);
          ls_max_iterations := ls_max_iterations st;
          ls_hypotheses := hypotheses;
          ls_best_solution := ls_best_solution st;
          ls_inlier_ratio := ls_inlier_ratio st |}
  else
    let counted :=
      wrap_int (num_hypotheses (ls_summary st) + size (rotations hypotheses)) in
    '(inlier_ratio, best_solution, best_inliers) ←
      UpdateBestSolution self correspondences hypotheses
        (ls_best_solution st) (inliers (ls_summary st));
    max_iterations ← ComputeMaxIterations self inlier_ratio log_failure_prob;
    Ok {| ls_self := self;
          ls_summary := next_iteration
            {| inliers := best_inliers;
               num_iterations := num_iterations (ls_summary st);
               num_hypotheses := counted;
               confidence := confidence (ls_summary st) |};
          ls_max_iterations := max_iterations;
          ls_hypotheses := hypotheses;
          ls_best_solution := best_solution;
          ls_inlier_ratio := inlier_ratio |}.

(** Lines 171-197: the loop, with a budget of iterations. *)
Fixpoint Estimate_loop (fuel : nat) (priors : Priors)
    (correspondences : list Correspondence) (log_failure_prob : double)
    (st : loop_state) : outcome loop_state :=
  if num_iterations (ls_summary st) <? ls_max_iterations st then
    match fuel with
    | O => OutOfFuel
    | S fuel' =>
        st' ← Estimate_iteration priors correspondences log_failure_prob st;
        Estimate_loop fuel' priors correspondences log_failure_prob st'
    end
  else Ok st.

(** The state on entry to the loop (lines 147-171). *)
Definition Estimate_init (self : Estimator) (indices : list Z)
    (summary : RansacSummary) : loop_state :=
  {| ls_self := {| params_ := params_ self; prng_ := prng_ self;
                   correspondence_indices_ := indices |};
     ls_summary := {| inliers := [];
                      num_iterations := 0;
                      num_hypotheses := num_hypotheses summary;
                      confidence := confidence summary |};
     ls_max_iterations := max_iterations (params_ self);
     ls_hypotheses := empty_solution;
     ls_best_solution := identity_solution;
     ls_inlier_ratio := 0%float |}.

(** Lines 199-202. *)
Definition final_confidence (inlier_ratio : double) (iterations : Z) : double :=
  (1 - libm_pow
         (1 - libm_pow inlier_ratio (double_of_int kMinimalSampleSize))
         (double_of_int iterations))%float.

(** The iterations the loop can make: every bound it works with is
    [max_iterations] or comes out of [clamp]. *)
Definition loop_budget (p : RansacParameters) : nat :=
  Z.to_nat (Z.max (min_iterations p) (max_iterations p)).

(** [ransac_summary] is a pointer: [None] is the null pointer. *)
Definition Estimate (self : Estimator) (priors : Priors)
    (correspondences : list Correspondence)
    (ransac_summary : option RansacSummary)
    : outcome (Solution * RansacSummary * Estimator) :=
  match ransac_summary with
  | None => Fatal
  | Some summary =>
      _ ← CHECK (kMinimalSampleSize <=? size correspondences);
      indices ← iota (length correspondences);
      let log_failure_prob :=
        libm_log (failure_probability (params_ self)) in
      st ← Estimate_loop (loop_budget (params_ self)) priors correspondences
             log_failure_prob (Estimate_init self indices summary);
      Ok (ls_best_solution st,
          {| inliers := inliers (ls_summary st);
             num_iterations := num_iterations (ls_summary st);
             num_hypotheses := num_hypotheses (ls_summary st);
             confidence :=
               final_confidence (ls_inlier_ratio st)
                 (num_iterations (ls_summary st)) |},
          ls_self st)
  end.

End Estimator.

(** * Binary64 arithmetic: what the operations on doubles compute

    The primitive operations are specified by the Standard Library in terms
    of [SpecFloat]. This part relates them to real numbers: [F2R x] is the
    value of a finite double, and an operation returns a double [w] that
    [rounds_to] the exact result [v]: no representable number lies strictly
    between [v] and [w]. *)

Definition bpow (e : Z) : R := powerRZ 2 e.

Lemma bpow_gt_0 e : (0 < bpow e)%R.
Proof. apply powerRZ_lt; lra. Qed.

Lemma bpow_add e1 e2 : bpow (e1 + e2) = (bpow e1 * bpow e2)%R.
Proof. apply powerRZ_add; lra. Qed.

Lemma bpow_0 : bpow 0 = 1%R.
Proof. reflexivity. Qed.

Lemma bpow_1 : bpow 1 = 2%R.
Proof. unfold bpow; simpl; lra. Qed.

Lemma bpow_succ e : bpow (e + 1) = (2 * bpow e)%R.
Proof. rewrite bpow_add, bpow_1; lra. Qed.

Lemma bpow_IZR n : 0 <= n -> bpow n = IZR (2 ^ n).
Proof.
  intros Hn. pattern n. apply natlike_ind; [reflexivity | | exact Hn].
  intros k Hk IH. unfold Z.succ. rewrite bpow_succ, IH, Z.pow_add_r, mult_IZR by lia.
  change (2 ^ 1) with 2. lra.
Qed.

Lemma bpow_ge_1 n : 0 <= n -> (1 <= bpow n)%R.
Proof.
  intros Hn. rewrite bpow_IZR by exact Hn. apply IZR_le.
  assert (0 < 2 ^ n) by (apply Z.pow_pos_nonneg; lia). lia.
Qed.

Lemma bpow_le e1 e2 : e1 <= e2 -> (bpow e1 <= bpow e2)%R.
Proof.
  intros H. replace e2 with (e1 + (e2 - e1)) by lia. rewrite bpow_add.
  pose proof (bpow_gt_0 e1). pose proof (bpow_ge_1 (e2 - e1) ltac:(lia)). nra.
Qed.

Lemma bpow_lt e1 e2 : e1 < e2 -> (bpow e1 < bpow e2)%R.
Proof.
  intros H. apply Rlt_le_trans with (bpow (e1 + 1)).
  - rewrite bpow_succ. pose proof (bpow_gt_0 e1). lra.
  - apply bpow_le. lia.
Qed.

(** Number of binary digits. *)
Lemma digits2_pos_bounds p :
  2 ^ (Z.pos (digits2_pos p) - 1) <= Z.pos p < 2 ^ Z.pos (digits2_pos p).
Proof.
  induction p as [p IH|p IH|]; simpl digits2_pos.
  - rewrite Pos2Z.inj_succ. replace (Z.succ (Z.pos (digits2_pos p)) - 1) with (Z.pos (digits2_pos p) - 1 + 1) by lia.
    rewrite Z.pow_add_r, Z.pow_succ_r by lia. lia.
  - rewrite Pos2Z.inj_succ. replace (Z.succ (Z.pos (digits2_pos p)) - 1) with (Z.pos (digits2_pos p) - 1 + 1) by lia.
    rewrite Z.pow_add_r, Z.pow_succ_r by lia. lia.
  - simpl. lia.
Qed.

Lemma Zdigits2_bounds m : 0 < m -> 2 ^ (Zdigits2 m - 1) <= m < 2 ^ Zdigits2 m.
Proof. destruct m; try lia. intros _. apply digits2_pos_bounds. Qed.

Lemma Zdigits2_pos m : 0 < m -> 0 < Zdigits2 m.
Proof. destruct m; simpl; lia. Qed.

Lemma Zdigits2_unique m d : 0 < d -> 2 ^ (d - 1) <= m < 2 ^ d -> Zdigits2 m = d.
Proof.
  intros Hd [H1 H2]. assert (0 < m) by (assert (0 < 2^(d-1)) by (apply Z.pow_pos_nonneg; lia); lia).
  pose proof (Zdigits2_bounds m H) as [H3 H4]. pose proof (Zdigits2_pos m H).
  destruct (Z.lt_trichotomy (Zdigits2 m) d) as [Hlt|[Heq|Hgt]]; [|exact Heq|].
  - assert (2 ^ Zdigits2 m <= 2 ^ (d - 1)) by (apply Z.pow_le_mono_r; lia). lia.
  - assert (2 ^ d <= 2 ^ (Zdigits2 m - 1)) by (apply Z.pow_le_mono_r; lia). lia.
Qed.

Definition located (v : R) (mrs : shr_record) (e : Z) : Prop :=
  0 <= shr_m mrs /\
  if shr_r mrs || shr_s mrs
  then (IZR (shr_m mrs) * bpow e < v < (IZR (shr_m mrs) + 1) * bpow e)%R
  else v = (IZR (shr_m mrs) * bpow e)%R.

Lemma IZR_xO p : IZR (Z.pos p~0) = (2 * IZR (Z.pos p))%R.
Proof. rewrite Pos2Z.inj_xO, mult_IZR. reflexivity. Qed.

Lemma IZR_xI p : IZR (Z.pos p~1) = (2 * IZR (Z.pos p) + 1)%R.
Proof. rewrite Pos2Z.inj_xI, plus_IZR, mult_IZR. reflexivity. Qed.

Lemma shr_1_located v mrs e : located v mrs e -> located v (shr_1 mrs) (e + 1).
Proof.
  destruct mrs as [m r s]. unfold located. cbn [shr_m shr_r shr_s]. intros [Hm H].
  rewrite bpow_succ. pose proof (bpow_gt_0 e) as Hb. set (b := bpow e) in *.
  destruct m as [|p|p]; [| |lia].
  - destruct r, s; cbn [shr_1 shr_m shr_r shr_s orb] in *; (split; [lia|]); lra.
  - destruct p as [p|p|]; cbn [shr_1 shr_m shr_r shr_s]; (split; [lia|]).
    + rewrite IZR_xI in H. set (P := IZR (Z.pos p)) in *.
      destruct r, s; cbn [orb] in *; nra.
    + rewrite IZR_xO in H. set (P := IZR (Z.pos p)) in *.
      destruct r, s; cbn [orb] in *; nra.
    + destruct r, s; cbn [orb] in *; nra.
Qed.

Lemma shr_1_m mrs : 0 <= shr_m mrs -> shr_m (shr_1 mrs) = shr_m mrs / 2.
Proof.
  destruct mrs as [m r s]. cbn [shr_m]. intros Hm.
  destruct m as [|p|p]; [reflexivity| |lia].
  destruct p as [p|p|]; cbn [shr_1 shr_m].
  - rewrite Pos2Z.inj_xI. apply Z.div_unique with 1; lia.
  - rewrite Pos2Z.inj_xO. apply Z.div_unique with 0; lia.
  - reflexivity.
Qed.

Lemma pow2_pos n : 0 <= n -> 0 < 2 ^ n.
Proof. intros. apply Z.pow_pos_nonneg; lia. Qed.

Lemma pow2_xO p : 2 ^ Z.pos p~0 = 2 ^ Z.pos p * 2 ^ Z.pos p.
Proof. rewrite <- Z.pow_add_r by lia. f_equal. lia. Qed.

Lemma pow2_xI p : 2 ^ Z.pos p~1 = 2 * (2 ^ Z.pos p * 2 ^ Z.pos p).
Proof.
  rewrite <- Z.pow_add_r by lia. rewrite <- Z.pow_succ_r by lia. f_equal. lia.
Qed.

Lemma iter_pos_shr_1 p : forall v mrs e, located v mrs e ->
  located v (SpecFloat.iter_pos shr_1 p mrs) (e + Z.pos p) /\
  shr_m (SpecFloat.iter_pos shr_1 p mrs) = shr_m mrs / 2 ^ Z.pos p.
Proof.
  induction p as [p IH|p IH|]; intros v mrs e H; cbn [SpecFloat.iter_pos].
  - pose proof (shr_1_located _ _ _ H) as H1.
    destruct (IH _ _ _ H1) as [H2 E2]. destruct (IH _ _ _ H2) as [H3 E3].
    split.
    + replace (e + Z.pos p~1) with (e + 1 + Z.pos p + Z.pos p) by lia. exact H3.
    + rewrite E3, E2, shr_1_m by apply H.
      pose proof (pow2_pos (Z.pos p) ltac:(lia)).
      rewrite !Z.div_div by lia.
      f_equal. rewrite pow2_xI. lia.
  - destruct (IH _ _ _ H) as [H2 E2]. destruct (IH _ _ _ H2) as [H3 E3].
    split.
    + replace (e + Z.pos p~0) with (e + Z.pos p + Z.pos p) by lia. exact H3.
    + rewrite E3, E2.
      pose proof (pow2_pos (Z.pos p) ltac:(lia)).
      rewrite !Z.div_div by lia.
      f_equal. rewrite pow2_xO. reflexivity.
  - split; [apply shr_1_located; exact H|]. rewrite shr_1_m by apply H. reflexivity.
Qed.

Lemma shr_located v mrs e n : located v mrs e ->
  located v (fst (shr mrs e n)) (snd (shr mrs e n)) /\
  snd (shr mrs e n) = e + Z.max n 0 /\
  shr_m (fst (shr mrs e n)) = shr_m mrs / 2 ^ Z.max n 0.
Proof.
  intros H. destruct n as [|p|p]; cbn [shr fst snd].
  - rewrite Z.add_0_r. change (2 ^ Z.max 0 0) with 1. rewrite Z.div_1_r. auto.
  - destruct (iter_pos_shr_1 p _ _ _ H) as [H1 H2]. auto.
  - rewrite Z.add_0_r. change (2 ^ Z.max (Z.neg p) 0) with 1. rewrite Z.div_1_r. auto.
Qed.

Definition representable (y : R) : Prop :=
  exists m e, y = (IZR m * bpow e)%R /\ Z.abs m < 2 ^ 53 /\ -1074 <= e.

Definition rounds_to (v w : R) : Prop :=
  forall y, representable y -> ((y <= v)%R -> (y <= w)%R) /\ ((v <= y)%R -> (w <= y)%R).

Lemma fexp_eq e : fexp prec emax e = Z.max (e - 53) (-1074).
Proof. reflexivity. Qed.

Lemma format_gap m1 e1 y :
  representable y -> 0 <= m1 -> (e1 = -1074 \/ (-1074 <= e1 /\ 2 ^ 52 <= m1)) ->
  (IZR m1 * bpow e1 < y < (IZR m1 + 1) * bpow e1)%R -> False.
Proof.
  intros (my & ey & -> & Hmy & Hey) Hm1 He1 [H1 H2].
  pose proof (bpow_gt_0 e1) as Hb1.
  destruct (Z_le_gt_dec e1 ey) as [Hle|Hgt].
  - (* y is a multiple of 2^e1 *)
    replace ey with ((ey - e1) + e1) in H1, H2 by lia.
    rewrite bpow_add, (bpow_IZR (ey - e1)) in H1, H2 by lia.
    rewrite <- Rmult_assoc, <- mult_IZR in H1, H2.
    set (j := my * 2 ^ (ey - e1)) in *.
    assert (IZR m1 < IZR j)%R as Ha by nra.
    assert (IZR j < IZR m1 + 1)%R as Hb by nra.
    apply lt_IZR in Ha. rewrite <- plus_IZR in Hb. apply lt_IZR in Hb. lia.
  - destruct He1 as [->|[He1 Hm]]; [lia|].
    assert (IZR my < bpow 53)%R as Hmy'.
    { rewrite bpow_IZR by lia. apply IZR_lt. lia. }
    assert (bpow 52 <= IZR m1)%R as Hm'.
    { rewrite bpow_IZR by lia. apply IZR_le. exact Hm. }
    assert (bpow 53 * bpow ey <= bpow 52 * bpow e1)%R as Hp.
    { rewrite <- !bpow_add. apply bpow_le. lia. }
    pose proof (bpow_gt_0 ey). nra.
Qed.

Lemma rounds_to_refl v : rounds_to v v.
Proof. intros y _. split; auto. Qed.

Lemma rounds_to_opp v w : rounds_to v w -> rounds_to (- v) (- w).
Proof.
  intros H y (m & e & -> & Hm & He).
  assert (representable (IZR (- m) * bpow e)) as Hf.
  { exists (- m), e. split; [reflexivity|]. split; [lia|exact He]. }
  destruct (H _ Hf) as [H1 H2]. rewrite opp_IZR in H1, H2. split; intros; lra.
Qed.

Lemma rounds_to_between v m1 e1 w :
  0 <= m1 -> (e1 = -1074 \/ (-1074 <= e1 /\ 2 ^ 52 <= m1)) ->
  (IZR m1 * bpow e1 < v < (IZR m1 + 1) * bpow e1)%R ->
  w = (IZR m1 * bpow e1)%R \/ w = ((IZR m1 + 1) * bpow e1)%R ->
  rounds_to v w.
Proof.
  intros Hm He Hv Hw y Hy.
  assert (y <= IZR m1 * bpow e1 \/ (IZR m1 + 1) * bpow e1 <= y)%R as Hc.
  { destruct (Rle_or_lt y (IZR m1 * bpow e1)) as [|Ha]; [left; assumption|].
    destruct (Rle_or_lt ((IZR m1 + 1) * bpow e1) y) as [|Hb]; [right; assumption|].
    exfalso. eapply format_gap; eauto. }
  destruct Hw as [-> | ->]; split; intros; lra.
Qed.

(** [r] is the zero or the finite number of sign [s] and magnitude [w]. *)
Definition SFrepr (r : spec_float) (s : bool) (w : R) : Prop :=
  (w = 0%R /\ r = S754_zero s) \/
  (exists m e, r = S754_finite s m e /\ w = (IZR (Z.pos m) * bpow e)%R).

Lemma shr_record_of_loc_m m l : shr_m (shr_record_of_loc m l) = m.
Proof. destruct l as [|[]]; reflexivity. Qed.

Lemma round_nearest_even_cases mrs :
  round_nearest_even (shr_m mrs) (loc_of_shr_record mrs) = shr_m mrs \/
  (round_nearest_even (shr_m mrs) (loc_of_shr_record mrs) = shr_m mrs + 1 /\
   shr_r mrs || shr_s mrs = true).
Proof.
  destruct mrs as [m [] []]; cbn; auto.
  destruct (Z.even m); auto.
Qed.

Lemma binary_round_aux_correct s mx ex lx v :
  0 < mx ->
  located v (shr_record_of_loc mx lx) ex ->
  ex <= fexp prec emax (Zdigits2 mx + ex) ->
  (v < bpow 1023)%R ->
  exists w, rounds_to v w /\ SFrepr (binary_round_aux prec emax s mx ex lx) s w.
Proof.
  intros Hmx Hloc Hex Hv.
  unfold binary_round_aux, shr_fexp.
  set (d := Zdigits2 mx) in *.
  set (e1 := fexp prec emax (d + ex)) in *.
  pose proof (shr_located v _ ex (e1 - ex) Hloc) as (Hloc1 & He1 & Hm1).
  rewrite shr_record_of_loc_m in Hm1.
  destruct (shr (shr_record_of_loc mx lx) ex (e1 - ex)) as [mrs1 e1'].
  cbn [fst snd] in Hloc1, He1, Hm1.
  replace (ex + Z.max (e1 - ex) 0) with e1 in He1 by lia. subst e1'.
  replace (Z.max (e1 - ex) 0) with (e1 - ex) in Hm1 by lia.
  set (m1 := shr_m mrs1) in *.
  pose proof (Zdigits2_bounds mx Hmx) as [Hd1 Hd2]. fold d in Hd1, Hd2.
  pose proof (Zdigits2_pos mx Hmx) as Hdpos. fold d in Hdpos.
  pose proof (pow2_pos (e1 - ex) ltac:(lia)) as Hp.
  assert (He1min : -1074 <= e1) by (unfold e1; rewrite fexp_eq; lia).
  assert (Hm1nn : 0 <= m1) by apply Hloc1.
  assert (Hm1up : m1 < 2 ^ 53).
  { rewrite Hm1. apply Z.div_lt_upper_bound; [lia|].
    rewrite <- Z.pow_add_r by lia.
    apply Z.lt_le_trans with (2 ^ d); [lia|].
    apply Z.pow_le_mono_r; [lia|]. unfold e1. rewrite fexp_eq. lia. }
  assert (Hgap : e1 = -1074 \/ (-1074 <= e1 /\ 2 ^ 52 <= m1)).
  { destruct (Z.eq_dec e1 (-1074)) as [|Hne]; [left; assumption|right].
    split; [lia|].
    assert (e1 = d + ex - 53) as E by (unfold e1 in *; rewrite fexp_eq in *; lia).
    rewrite Hm1. apply Z.div_le_lower_bound; [lia|].
    rewrite <- Z.pow_add_r by lia.
    replace (e1 - ex + 52) with (d - 1) by lia. lia. }
  assert (Hg : d + ex <= 1023).
  { destruct (Z_le_gt_dec (d + ex) 1023) as [|Hgt]; [assumption|exfalso].
    assert (IZR mx * bpow ex <= v)%R as Hlow.
    { destruct Hloc as [_ Hl]. rewrite shr_record_of_loc_m in Hl.
      destruct (_ || _); lra. }
    assert (bpow (d - 1) <= IZR mx)%R.
    { rewrite bpow_IZR by lia. apply IZR_le. lia. }
    assert (bpow 1023 <= bpow (d - 1) * bpow ex)%R.
    { rewrite <- bpow_add. apply bpow_le. lia. }
    pose proof (bpow_gt_0 ex). nra. }
  assert (He1up : e1 <= 970) by (unfold e1; rewrite fexp_eq; lia).
  set (m2 := round_nearest_even m1 (loc_of_shr_record mrs1)).
  assert (Hw : rounds_to v (IZR m2 * bpow e1)).
  { destruct Hloc1 as [_ Hl]. fold m1 in Hl.
    destruct (round_nearest_even_cases mrs1) as [E|[E Hrs]]; fold m1 in E; fold m2 in E.
    - rewrite E. destruct (shr_r mrs1 || shr_s mrs1).
      + eapply rounds_to_between; eauto.
      + rewrite Hl. apply rounds_to_refl.
    - rewrite E, Hrs in *. rewrite plus_IZR.
      eapply rounds_to_between; eauto. }
  assert (Hm2 : m2 = m1 \/ m2 = m1 + 1).
  { destruct (round_nearest_even_cases mrs1) as [E|[E _]]; fold m1 in E; fold m2 in E; auto. }
  exists (IZR m2 * bpow e1)%R. split; [exact Hw|].
  destruct (Z.eq_dec m2 0) as [Hz|Hnz].
  - (* the result is zero *)
    rewrite Hz. change (Zdigits2 0 + e1) with e1.
    assert (fexp prec emax e1 - e1 <= 0) as Hn by (rewrite fexp_eq; lia).
    left. split; [lra|].
    destruct (fexp prec emax e1 - e1) as [|q|q]; [reflexivity|lia|reflexivity].
  - assert (0 < m2) as Hm2pos by lia.
    destruct (Z.eq_dec m2 (2 ^ 53)) as [Hc|Hnc].
    + (* carry: one more shift, exact *)
      right. rewrite Hc.
      replace (fexp prec emax (Zdigits2 (2 ^ 53) + e1) - e1) with 1
        by (change (Zdigits2 (2 ^ 53)) with 54; rewrite fexp_eq; lia).
      cbn [shr_record_of_loc shr SpecFloat.iter_pos].
      change (shr_m (shr_1 {| shr_m := 2 ^ 53; shr_r := false; shr_s := false |}))
        with (Z.pos 4503599627370496).
      replace (e1 + 1 <=? emax - prec) with true
        by (symmetry; apply Z.leb_le; change (emax - prec) with 971; lia).
      eexists _, _. split; [reflexivity|].
      rewrite bpow_succ. change (2^53) with 9007199254740992. 
      replace (IZR 9007199254740992) with (2 * IZR 4503599627370496)%R; [lra|].
      rewrite <- mult_IZR. reflexivity.
    + right.
      assert (Zdigits2 m2 <= 53) as Hd2'.
      { pose proof (Zdigits2_bounds m2 Hm2pos) as [Ha Hb].
        destruct (Z_le_gt_dec (Zdigits2 m2) 53) as [|Hgt]; [assumption|exfalso].
        assert (2 ^ 53 <= 2 ^ (Zdigits2 m2 - 1)) by (apply Z.pow_le_mono_r; lia). lia. }
      assert (fexp prec emax (Zdigits2 m2 + e1) - e1 <= 0) as Hn by (rewrite fexp_eq; lia).
      assert (shr (shr_record_of_loc m2 loc_Exact) e1 (fexp prec emax (Zdigits2 m2 + e1) - e1)
              = (shr_record_of_loc m2 loc_Exact, e1)) as ->.
      { destruct (fexp prec emax (Zdigits2 m2 + e1) - e1); try lia; reflexivity. }
      cbn [shr_record_of_loc shr_m].
      destruct m2 as [|p2|p2]; try lia.
      replace (e1 <=? emax - prec) with true
        by (symmetry; apply Z.leb_le; change (emax - prec) with 971; lia).
      eexists _, _. split; reflexivity.
Qed.

Definition SF2R (x : spec_float) : R :=
  match x with
  | S754_finite s m e =>
      if s then (- (IZR (Z.pos m) * bpow e))%R else (IZR (Z.pos m) * bpow e)%R
  | _ => 0%R
  end.

Definition SFfinite (x : spec_float) : bool :=
  match x with
  | S754_zero _ | S754_finite _ _ _ => true
  | _ => false
  end.

Lemma SFrepr_finite r s w : SFrepr r s w ->
  SFfinite r = true /\ SF2R r = (if s then - w else w)%R.
Proof.
  intros [[-> ->]|(m & e & -> & ->)]; cbn; split; auto; destruct s; lra.
Qed.

Lemma iter_xO_correct d m : Z.pos (Pos.iter xO m d) = Z.pos m * 2 ^ Z.pos d.
Proof.
  change (Pos.iter xO m d) with (shift_pos d m).
  rewrite shift_pos_correct. change (Z.pow_pos 2 d) with (2 ^ Z.pos d). lia.
Qed.

Lemma Zdigits2_shift m k : 0 < m -> 0 <= k -> Zdigits2 (m * 2 ^ k) = Zdigits2 m + k.
Proof.
  intros Hm Hk. pose proof (Zdigits2_bounds m Hm) as [H1 H2].
  pose proof (Zdigits2_pos m Hm). pose proof (pow2_pos k Hk).
  apply Zdigits2_unique; [lia|].
  replace (Zdigits2 m + k - 1) with (Zdigits2 m - 1 + k) by lia.
  rewrite !Z.pow_add_r by lia. nia.
Qed.

Lemma shl_align_correct mx ex ex' :
  let mz := fst (shl_align mx ex ex') in
  let ez := snd (shl_align mx ex ex') in
  ez = Z.min ex ex' /\ Z.pos mz = Z.pos mx * 2 ^ (ex - ez).
Proof.
  unfold shl_align. destruct (ex' - ex) as [|p|p] eqn:E; cbn [fst snd].
  - replace (Z.min ex ex') with ex by lia. rewrite Z.sub_diag. split; lia.
  - replace (Z.min ex ex') with ex by lia. rewrite Z.sub_diag. split; lia.
  - replace (Z.min ex ex') with ex' by lia. split; [reflexivity|].
    rewrite iter_xO_correct. f_equal. f_equal. lia.
Qed.

Lemma shl_align_value mx ex ex' :
  (IZR (Z.pos (fst (shl_align mx ex ex'))) * bpow (snd (shl_align mx ex ex'))
   = IZR (Z.pos mx) * bpow ex)%R.
Proof.
  destruct (shl_align_correct mx ex ex') as [E1 E2].
  rewrite E2, mult_IZR, <- bpow_IZR by lia.
  rewrite Rmult_assoc, <- bpow_add. f_equal. f_equal. lia.
Qed.

Lemma binary_round_correct s mx ex :
  (IZR (Z.pos mx) * bpow ex < bpow 1023)%R ->
  exists w, rounds_to (IZR (Z.pos mx) * bpow ex) w /\
            SFrepr (binary_round prec emax s mx ex) s w.
Proof.
  intros Hv. unfold binary_round.
  set (f := fexp prec emax (Z.pos (digits2_pos mx) + ex)).
  pose proof (shl_align_correct mx ex f) as [E1 E2].
  pose proof (shl_align_value mx ex f) as E3.
  destruct (shl_align mx ex f) as [mz ez]. cbn [fst snd] in *.
  apply binary_round_aux_correct; [lia| | |exact Hv].
  - split; [cbn; lia|]. cbn. symmetry. exact E3.
  - rewrite E2, Zdigits2_shift by lia.
    change (Zdigits2 (Z.pos mx)) with (Z.pos (digits2_pos mx)).
    replace (Z.pos (digits2_pos mx) + (ex - ez) + ez) with (Z.pos (digits2_pos mx) + ex) by lia.
    fold f. lia.
Qed.

Lemma binary_normalize_correct m e szero :
  (Rabs (IZR m * bpow e) < bpow 1023)%R ->
  SFfinite (binary_normalize prec emax m e szero) = true /\
  rounds_to (IZR m * bpow e) (SF2R (binary_normalize prec emax m e szero)).
Proof.
  intros Hv. pose proof (bpow_gt_0 e) as Hb.
  destruct m as [|p|p]; cbn [binary_normalize].
  - split; [reflexivity|]. cbn. rewrite Rmult_0_l. apply rounds_to_refl.
  - assert (0 < IZR (Z.pos p))%R by (apply IZR_lt; lia).
    rewrite Rabs_pos_eq in Hv by nra.
    destruct (binary_round_correct false p e Hv) as (w & Hw & Hr).
    apply SFrepr_finite in Hr as [Hf ->]. auto.
  - assert (0 < IZR (Z.pos p))%R by (apply IZR_lt; lia).
    change (Z.neg p) with (- Z.pos p) in *. rewrite opp_IZR in *.
    replace (- IZR (Z.pos p) * bpow e)%R with (- (IZR (Z.pos p) * bpow e))%R in * by lra.
    rewrite Rabs_Ropp, Rabs_pos_eq in Hv by nra.
    destruct (binary_round_correct true p e Hv) as (w & Hw & Hr).
    apply SFrepr_finite in Hr as [Hf ->]. split; [exact Hf|].
    apply rounds_to_opp. exact Hw.
Qed.

Lemma aligned_value s mx ex ez : ez <= ex ->
  (IZR (cond_Zopp s (Z.pos (fst (shl_align mx ex ez)))) * bpow ez)%R
  = SF2R (S754_finite s mx ex).
Proof.
  intros H. pose proof (shl_align_value mx ex ez) as E.
  destruct (shl_align_correct mx ex ez) as [E1 _].
  replace (snd (shl_align mx ex ez)) with ez in E by lia.
  destruct s; cbn [cond_Zopp SF2R]; [rewrite opp_IZR|]; lra.
Qed.

Lemma rounds_to_eq v v' w : v = v' -> rounds_to v w -> rounds_to v' w.
Proof. intros ->. auto. Qed.

Lemma SFadd_correct x y :
  SFfinite x = true -> SFfinite y = true ->
  (Rabs (SF2R x + SF2R y) < bpow 1023)%R ->
  SFfinite (SFadd prec emax x y) = true /\
  rounds_to (SF2R x + SF2R y) (SF2R (SFadd prec emax x y)).
Proof.
  intros Hx Hy Hv.
  destruct x as [sx|sx| |sx mx ex]; try discriminate;
  destruct y as [sy|sy| |sy my ey]; try discriminate.
  - split; [destruct sx, sy; reflexivity|].
    eapply rounds_to_eq; [|apply rounds_to_refl]. destruct sx, sy; cbn; lra.
  - split; [reflexivity|]. cbn [SFadd].
    eapply rounds_to_eq; [|apply rounds_to_refl]. cbn [SF2R]. lra.
  - split; [reflexivity|]. cbn [SFadd].
    eapply rounds_to_eq; [|apply rounds_to_refl]. cbn [SF2R]. lra.
  - cbn [SFadd]. set (ez := Z.min ex ey).
    rewrite <- (aligned_value sx mx ex ez), <- (aligned_value sy my ey ez) in * by lia.
    rewrite <- Rmult_plus_distr_r, <- plus_IZR in *.
    apply binary_normalize_correct. exact Hv.
Qed.

Lemma SFsub_correct x y :
  SFfinite x = true -> SFfinite y = true ->
  (Rabs (SF2R x - SF2R y) < bpow 1023)%R ->
  SFfinite (SFsub prec emax x y) = true /\
  rounds_to (SF2R x - SF2R y) (SF2R (SFsub prec emax x y)).
Proof.
  intros Hx Hy Hv.
  destruct x as [sx|sx| |sx mx ex]; try discriminate;
  destruct y as [sy|sy| |sy my ey]; try discriminate.
  - split; [destruct sx, sy; reflexivity|].
    eapply rounds_to_eq; [|apply rounds_to_refl]. destruct sx, sy; cbn; lra.
  - split; [reflexivity|]. cbn [SFsub].
    eapply rounds_to_eq; [|apply rounds_to_refl]. destruct sy; cbn; lra.
  - split; [reflexivity|]. cbn [SFsub].
    eapply rounds_to_eq; [|apply rounds_to_refl]. cbn [SF2R]. lra.
  - cbn [SFsub]. set (ez := Z.min ex ey).
    rewrite <- (aligned_value sx mx ex ez), <- (aligned_value sy my ey ez) in * by lia.
    rewrite <- Rmult_minus_distr_r, <- minus_IZR in *.
    apply binary_normalize_correct. exact Hv.
Qed.

Definition SFvalid (x : spec_float) : Prop := SpecFloat.valid_binary prec emax x = true.

Lemma valid_finite_bounds s m e :
  SFvalid (S754_finite s m e) ->
  -1074 <= e <= 971 /\ Z.pos m < 2 ^ 53 /\ (e = -1074 \/ 2 ^ 52 <= Z.pos m).
Proof.
  unfold SFvalid, SpecFloat.valid_binary, bounded, canonical_mantissa.
  intros H. apply andb_true_iff in H as [H1 H2].
  apply Z.eqb_eq in H1. apply Z.leb_le in H2. change (emax - prec) with 971 in H2.
  rewrite fexp_eq in H1.
  pose proof (digits2_pos_bounds m) as [Ha Hb].
  set (d := Z.pos (digits2_pos m)) in *.
  assert (d <= 53) by lia.
  assert (2 ^ d <= 2 ^ 53) by (apply Z.pow_le_mono_r; lia).
  split; [lia|]. split; [lia|].
  destruct (Z.eq_dec e (-1074)); [left; assumption|right].
  assert (d = 53) as E by lia. rewrite E in Ha. exact Ha.
Qed.

Lemma valid_format x : SFvalid x -> representable (SF2R x).
Proof.
  intros H. destruct x as [s|s| |s m e]; cbn [SF2R];
    try (exists 0, 0; split; [lra|split; [reflexivity|lia]]).
  apply valid_finite_bounds in H as (He & Hm & _).
  destruct s.
  - exists (Z.neg m), e. split; [|split; [lia|lia]].
    change (Z.neg m) with (- Z.pos m). rewrite opp_IZR. lra.
  - exists (Z.pos m), e. split; [reflexivity|split; [lia|lia]].
Qed.

Lemma SF2R_pos m e : (0 < IZR (Z.pos m) * bpow e)%R.
Proof.
  pose proof (bpow_gt_0 e). assert (0 < IZR (Z.pos m))%R by (apply IZR_lt; lia). nra.
Qed.

Lemma canonical_lt s1 m1 e1 s2 m2 e2 :
  SFvalid (S754_finite s1 m1 e1) -> SFvalid (S754_finite s2 m2 e2) -> e1 < e2 ->
  (IZR (Z.pos m1) * bpow e1 < IZR (Z.pos m2) * bpow e2)%R.
Proof.
  intros H1 H2 He.
  apply valid_finite_bounds in H1 as (He1 & Hm1 & _).
  apply valid_finite_bounds in H2 as (He2 & _ & [->|Hm2]); [lia|].
  assert (IZR (Z.pos m1) < bpow 53)%R by (rewrite bpow_IZR by lia; apply IZR_lt; lia).
  assert (bpow 52 <= IZR (Z.pos m2))%R by (rewrite bpow_IZR by lia; apply IZR_le; lia).
  assert (bpow 53 * bpow e1 <= bpow 52 * bpow e2)%R
    by (rewrite <- !bpow_add; apply bpow_le; lia).
  pose proof (bpow_gt_0 e1). pose proof (bpow_gt_0 e2). nra.
Qed.

Lemma Rcompare_Lt x y : (x < y)%R -> Rcompare x y = Lt.
Proof. intros H. destruct (Rcompare_spec x y); auto; lra. Qed.

Lemma Rcompare_Eq x y : x = y -> Rcompare x y = Eq.
Proof. intros H. destruct (Rcompare_spec x y); auto; lra. Qed.

Lemma Rcompare_Gt x y : (y < x)%R -> Rcompare x y = Gt.
Proof. intros H. destruct (Rcompare_spec x y); auto; lra. Qed.

Lemma mantissa_compare s1 m1 e1 s2 m2 e2 :
  SFvalid (S754_finite s1 m1 e1) -> SFvalid (S754_finite s2 m2 e2) ->
  match e1 ?= e2 with
  | Lt => Lt
  | Gt => Gt
  | Eq => Pos.compare_cont Eq m1 m2
  end = Rcompare (IZR (Z.pos m1) * bpow e1) (IZR (Z.pos m2) * bpow e2).
Proof.
  intros H1 H2. destruct (Z.compare_spec e1 e2) as [->|He|He].
  - change (Pos.compare_cont Eq m1 m2) with (Pos.compare m1 m2).
    pose proof (bpow_gt_0 e2).
    destruct (Pos.compare_spec m1 m2) as [->|Hm|Hm]; symmetry.
    + apply Rcompare_Eq. reflexivity.
    + apply Rcompare_Lt. assert (IZR (Z.pos m1) < IZR (Z.pos m2))%R by (apply IZR_lt; lia). nra.
    + apply Rcompare_Gt. assert (IZR (Z.pos m2) < IZR (Z.pos m1))%R by (apply IZR_lt; lia). nra.
  - symmetry. apply Rcompare_Lt. eapply canonical_lt; eauto.
  - symmetry. apply Rcompare_Gt. eapply canonical_lt; eauto.
Qed.

Lemma Rcompare_opp x y : Rcompare (- x) (- y) = CompOpp (Rcompare x y).
Proof.
  destruct (Rcompare_spec x y); cbn;
    [apply Rcompare_Eq|apply Rcompare_Gt|apply Rcompare_Lt]; lra.
Qed.

Lemma SFcompare_correct x y :
  SFvalid x -> SFvalid y -> SFfinite x = true -> SFfinite y = true ->
  SFcompare x y = Some (Rcompare (SF2R x) (SF2R y)).
Proof.
  intros Vx Vy Hx Hy.
  destruct x as [sx|sx| |sx mx ex]; try discriminate;
  destruct y as [sy|sy| |sy my ey]; try discriminate; cbn [SFcompare SF2R].
  - f_equal. symmetry. apply Rcompare_Eq. reflexivity.
  - pose proof (SF2R_pos my ey). f_equal. symmetry.
    destruct sy; [apply Rcompare_Gt|apply Rcompare_Lt]; lra.
  - pose proof (SF2R_pos mx ex). f_equal. symmetry.
    destruct sx; [apply Rcompare_Lt|apply Rcompare_Gt]; lra.
  - pose proof (SF2R_pos mx ex). pose proof (SF2R_pos my ey). f_equal.
    destruct sx, sy.
    + rewrite Rcompare_opp. rewrite <- (mantissa_compare _ _ _ _ _ _ Vx Vy).
      destruct (ex ?= ey); reflexivity.
    + symmetry. apply Rcompare_Lt. lra.
    + symmetry. apply Rcompare_Gt. lra.
    + apply (mantissa_compare _ _ _ _ _ _ Vx Vy).
Qed.

Lemma Zdigits2_ge m k : 0 <= k -> 2 ^ k <= m -> k + 1 <= Zdigits2 m.
Proof.
  intros Hk H. pose proof (pow2_pos k Hk).
  pose proof (Zdigits2_bounds m ltac:(lia)) as [_ Hb].
  destruct (Z_le_gt_dec (k + 1) (Zdigits2 m)) as [|Hgt]; [assumption|exfalso].
  assert (2 ^ Zdigits2 m <= 2 ^ k) by (apply Z.pow_le_mono_r; lia). lia.
Qed.

Lemma Rabs_SF2R s m e :
  Rabs (SF2R (S754_finite s m e)) = (IZR (Z.pos m) * bpow e)%R.
Proof.
  pose proof (SF2R_pos m e). cbn [SF2R].
  destruct s; rewrite ?Rabs_Ropp; apply Rabs_pos_eq; lra.
Qed.

Lemma SFmul_correct x y :
  SFvalid x -> SFvalid y -> SFfinite x = true -> SFfinite y = true ->
  (Rabs (SF2R x * SF2R y) < bpow 1023)%R ->
  SFfinite (SFmul prec emax x y) = true /\
  rounds_to (SF2R x * SF2R y) (SF2R (SFmul prec emax x y)).
Proof.
  intros Vx Vy Hx Hy Hv.
  destruct x as [sx|sx| |sx mx ex]; try discriminate;
  destruct y as [sy|sy| |sy my ey]; try discriminate; cbn [SFmul];
  try (split; [reflexivity|]; eapply rounds_to_eq; [|apply rounds_to_refl]; cbn [SF2R]; lra).
  pose proof (SF2R_pos mx ex) as Px. pose proof (SF2R_pos my ey) as Py.
  set (v := (IZR (Z.pos (mx * my)) * bpow (ex + ey))%R).
  assert (Ev : v = ((IZR (Z.pos mx) * bpow ex) * (IZR (Z.pos my) * bpow ey))%R).
  { unfold v. rewrite Pos2Z.inj_mul, mult_IZR, bpow_add. lra. }
  assert (Hv' : (v < bpow 1023)%R).
  { rewrite Ev, <- (Rabs_SF2R sx mx ex), <- (Rabs_SF2R sy my ey), <- Rabs_mult. exact Hv. }
  destruct (binary_round_aux_correct (xorb sx sy) (Z.pos (mx * my)) (ex + ey) loc_Exact v)
    as (w & Hw & Hr); [lia| | |exact Hv'|].
  - split; [cbn; lia|]. reflexivity.
  - apply valid_finite_bounds in Vx as (Hex & Hmx & Hnx).
    apply valid_finite_bounds in Vy as (Hey & Hmy & Hny).
    rewrite fexp_eq. rewrite Pos2Z.inj_mul.
    destruct Hnx as [->|Hnx], Hny as [->|Hny].
    + lia.
    + destruct (Z_le_gt_dec ey 0); [lia|].
      assert (2 ^ 52 <= Z.pos mx * Z.pos my) by nia.
      pose proof (Zdigits2_ge _ 52 ltac:(lia) H). lia.
    + destruct (Z_le_gt_dec ex 0); [lia|].
      assert (2 ^ 52 <= Z.pos mx * Z.pos my) by nia.
      pose proof (Zdigits2_ge _ 52 ltac:(lia) H). lia.
    + assert (2 ^ 52 <= Z.pos mx * Z.pos my) by nia.
      pose proof (Zdigits2_ge _ 52 ltac:(lia) H). lia.
  - apply SFrepr_finite in Hr as [Hf E]. split; [exact Hf|].
    rewrite E. cbn [SF2R]. rewrite Ev in Hw.
    destruct sx, sy; cbn [xorb].
    + eapply rounds_to_eq; [|exact Hw]. lra.
    + eapply rounds_to_eq; [|apply rounds_to_opp; exact Hw]. lra.
    + eapply rounds_to_eq; [|apply rounds_to_opp; exact Hw]. lra.
    + eapply rounds_to_eq; [|exact Hw]. lra.
Qed.

Lemma new_location_exact nb k : k = 0 -> new_location nb k = loc_Exact.
Proof.
  intros ->. unfold new_location, new_location_even, new_location_odd.
  destruct (Z.even nb); reflexivity.
Qed.

Lemma new_location_inexact nb k : k <> 0 -> exists c, new_location nb k = loc_Inexact c.
Proof.
  intros H. apply Z.eqb_neq in H. unfold new_location.
  destruct (Z.even nb); [unfold new_location_even|unfold new_location_odd];
    rewrite H; eauto.
Qed.

Lemma located_inexact v m e c :
  0 <= m -> (IZR m * bpow e < v < (IZR m + 1) * bpow e)%R ->
  located v (shr_record_of_loc m (loc_Inexact c)) e.
Proof. intros Hm Hv. destruct c; (split; [exact Hm|exact Hv]). Qed.

(** The quotient of two finite numbers whose magnitude is in the normal range. *)
Lemma SFdiv_core_correct mx ex my ey :
  -1021 <= (Z.pos (digits2_pos mx) + ex) - (Z.pos (digits2_pos my) + ey) ->
  let v := ((IZR (Z.pos mx) * bpow ex) / (IZR (Z.pos my) * bpow ey))%R in
  let '(q, e', l) := SFdiv_core_binary prec emax (Z.pos mx) ex (Z.pos my) ey in
  2 ^ 52 <= q /\ e' <= fexp prec emax (Zdigits2 q + e') /\
  located v (shr_record_of_loc q l) e'.
Proof.
  intros Ht v. unfold SFdiv_core_binary.
  change (Zdigits2 (Z.pos mx)) with (Z.pos (digits2_pos mx)).
  change (Zdigits2 (Z.pos my)) with (Z.pos (digits2_pos my)).
  pose proof (digits2_pos_bounds mx) as [Hx1 Hx2].
  pose proof (digits2_pos_bounds my) as [Hy1 Hy2].
  set (d1 := Z.pos (digits2_pos mx)) in *. set (d2 := Z.pos (digits2_pos my)) in *.
  assert (0 < d1) by (unfold d1; lia). assert (0 < d2) by (unfold d2; lia).
  rewrite fexp_eq.
  set (e' := Z.min (Z.max (d1 + ex - (d2 + ey) - 53) (-1074)) (ex - ey)).
  set (s := ex - ey - e').
  assert (Hs : d2 - d1 + 53 <= s) by (unfold s, e'; lia).
  assert (Hs0 : 0 <= s) by (unfold s, e'; lia).
  set (m' := match s with Z.pos _ => Z.shiftl (Z.pos mx) s | 0 => Z.pos mx | Z.neg _ => 0 end).
  assert (Em : m' = Z.pos mx * 2 ^ s).
  { unfold m'. destruct s as [|p|p] eqn:E; [lia| |lia].
    rewrite Z.shiftl_mul_pow2 by lia. reflexivity. }
  clearbody m'.
  pose proof (Z.div_eucl_eq m' (Z.pos my) ltac:(lia)) as Hdiv.
  pose proof (Z.mod_pos_bound m' (Z.pos my) ltac:(lia)) as Hmod.
  unfold Z.modulo in Hmod.
  destruct (Z.div_eucl m' (Z.pos my)) as [q r]. 
  assert (Hq : 2 ^ 52 <= q).
  { assert (2 ^ (d2 + 52) <= m').
    { rewrite Em. apply Z.le_trans with (2 ^ (d1 - 1) * 2 ^ s).
      - rewrite <- Z.pow_add_r by lia. apply Z.pow_le_mono_r; lia.
      - pose proof (pow2_pos s Hs0). nia. }
    rewrite Z.pow_add_r in H1 by lia.
    assert (Z.pos my * 2 ^ 52 < Z.pos my * (q + 1)) by nia.
    assert (2 ^ 52 < q + 1) by (apply Z.mul_lt_mono_pos_l with (Z.pos my); lia). lia. }
  split; [exact Hq|].
  pose proof (Zdigits2_ge q 52 ltac:(lia) Hq) as Hdq.
  split; [rewrite fexp_eq; lia|].
  assert (Ev : (v * IZR (Z.pos my) = IZR m' * bpow e')%R).
  { unfold v. rewrite Em, mult_IZR, <- bpow_IZR by lia.
    rewrite Rmult_assoc, <- bpow_add. replace (s + e') with (ex - ey) by (unfold s; lia).
    replace (ex - ey) with (ex + - ey) by lia. rewrite bpow_add.
    pose proof (bpow_gt_0 ey).
    assert (bpow (- ey) = / bpow ey)%R as Hinv.
    { apply (Rmult_eq_reg_l (bpow ey)); [|lra]. rewrite <- bpow_add, Rinv_r by lra.
      replace (ey + - ey) with 0 by lia. reflexivity. }
    assert (0 < IZR (Z.pos my))%R by (apply IZR_lt; lia).
    rewrite Hinv. field. split; lra. }
  assert (Hmy : (0 < IZR (Z.pos my))%R) by (apply IZR_lt; lia).
  pose proof (bpow_gt_0 e') as Hb.
  rewrite Hdiv, plus_IZR, mult_IZR in Ev.
  destruct (Z.eq_dec r 0) as [Hr|Hr].
  - rewrite new_location_exact by exact Hr. split; [cbn; lia|]. cbn.
    rewrite Hr in Ev. nra.
  - destruct (new_location_inexact (Z.pos my) r Hr) as [c ->].
    apply located_inexact; [lia|].
    assert (0 < IZR r < IZR (Z.pos my))%R.
    { split; apply IZR_lt; lia. }
    split; nra.
Qed.

Lemma bpow_lt_inv a b : (bpow a < bpow b)%R -> a < b.
Proof.
  intros H. destruct (Z_lt_ge_dec a b) as [|Hge]; [assumption|exfalso].
  pose proof (bpow_le b a ltac:(lia)). lra.
Qed.

Lemma magnitude_bounds m e :
  (bpow (Z.pos (digits2_pos m) + e - 1) <= IZR (Z.pos m) * bpow e
   < bpow (Z.pos (digits2_pos m) + e))%R.
Proof.
  pose proof (digits2_pos_bounds m) as [H1 H2]. pose proof (bpow_gt_0 e).
  set (d := Z.pos (digits2_pos m)) in *. assert (0 < d) by (unfold d; lia).
  replace (d + e - 1) with (d - 1 + e) by lia. rewrite !bpow_add.
  rewrite (bpow_IZR (d - 1)), (bpow_IZR d) by lia. apply IZR_le in H1. apply IZR_lt in H2. split; nra.
Qed.

Lemma SFdiv_correct x y :
  SFfinite x = true -> SFfinite y = true ->
  (SF2R x = 0 \/ bpow (-500) <= Rabs (SF2R x) <= bpow 500)%R ->
  (bpow (-500) <= Rabs (SF2R y) <= bpow 500)%R ->
  SFfinite (SFdiv prec emax x y) = true /\
  rounds_to (SF2R x / SF2R y) (SF2R (SFdiv prec emax x y)).
Proof.
  intros Hx Hy Bx By.
  pose proof (bpow_gt_0 (-500)) as Hp.
  destruct y as [sy|sy| |sy my ey]; try discriminate.
  { cbn [SF2R] in By. rewrite Rabs_R0 in By. lra. }
  pose proof (SF2R_pos my ey) as Py.
  destruct x as [sx|sx| |sx mx ex]; try discriminate.
  { cbn [SFdiv]. split; [reflexivity|]. cbn [SF2R].
    eapply rounds_to_eq; [|apply rounds_to_refl]. unfold Rdiv. lra. }
  pose proof (SF2R_pos mx ex) as Px.
  destruct Bx as [Bx|Bx]; [cbn [SF2R] in Bx; destruct sx; lra|].
  rewrite Rabs_SF2R in Bx, By.
  pose proof (magnitude_bounds mx ex) as [Mx1 Mx2].
  pose proof (magnitude_bounds my ey) as [My1 My2].
  assert (-500 < Z.pos (digits2_pos mx) + ex) by (apply bpow_lt_inv; lra).
  assert (Z.pos (digits2_pos my) + ey - 1 < 501).
  { apply bpow_lt_inv. apply Rle_lt_trans with (bpow 500); [lra|]. apply bpow_lt. lia. }
  pose proof (SFdiv_core_correct mx ex my ey ltac:(lia)) as Hc.
  cbn [SFdiv]. cbv zeta in Hc.
  destruct (SFdiv_core_binary prec emax (Z.pos mx) ex (Z.pos my) ey) as [[q e'] l].
  destruct Hc as (Hq & He' & Hloc).
  set (v := (IZR (Z.pos mx) * bpow ex / (IZR (Z.pos my) * bpow ey))%R) in *.
  assert (Hvpos : (0 < v)%R) by (apply Rdiv_lt_0_compat; lra).
  assert (Hv : (v < bpow 1023)%R).
  { apply Rle_lt_trans with (bpow 500 / bpow (-500))%R.
    - unfold v. apply Rle_trans with (bpow 500 / (IZR (Z.pos my) * bpow ey))%R.
      + apply Rmult_le_compat_r; [|lra]. apply Rlt_le, Rinv_0_lt_compat; lra.
      + apply Rmult_le_compat_l; [pose proof (bpow_gt_0 500); lra|].
        apply Rinv_le_contravar; lra.
    - replace (bpow 500 / bpow (-500))%R with (bpow 1000).
      + apply bpow_lt. lia.
      + change 1000 with (500 + 500). rewrite bpow_add.
        assert (bpow 500 * bpow (-500) = 1)%R by (rewrite <- bpow_add; reflexivity).
        pose proof (bpow_gt_0 500). field_simplify_eq; [|lra]. nra. }
  destruct (binary_round_aux_correct (xorb sx sy) q e' l v) as (w & Hw & Hr);
    [pose proof (pow2_pos 52 ltac:(lia)); lia|exact Hloc|exact He'|exact Hv|].
  apply SFrepr_finite in Hr as [Hf E]. split; [exact Hf|].
  rewrite E. cbn [SF2R]. fold v.
  destruct sx, sy; cbn [xorb].
  - eapply rounds_to_eq; [|exact Hw]. unfold v, Rdiv. rewrite ?Rinv_opp. ring.
  - eapply rounds_to_eq; [|apply rounds_to_opp; exact Hw]. unfold v, Rdiv. rewrite ?Rinv_opp. ring.
  - eapply rounds_to_eq; [|apply rounds_to_opp; exact Hw]. unfold v, Rdiv. rewrite ?Rinv_opp. ring.
  - exact Hw.
Qed.

Definition F2R (x : float) : R := SF2R (Prim2SF x).
Definition finite_double (x : float) : Prop := SFfinite (Prim2SF x) = true.

Lemma Prim2SF_SFvalid x : SFvalid (Prim2SF x).
Proof. apply Prim2SF_valid. Qed.

Lemma F2R_format x : representable (F2R x).
Proof. apply valid_format, Prim2SF_SFvalid. Qed.

Lemma compare_correct x y : finite_double x -> finite_double y ->
  SFcompare (Prim2SF x) (Prim2SF y) = Some (Rcompare (F2R x) (F2R y)).
Proof. intros. apply SFcompare_correct; auto using Prim2SF_SFvalid. Qed.

Lemma ltb_correct x y : finite_double x -> finite_double y ->
  (x <? y)%float = true <-> (F2R x < F2R y)%R.
Proof.
  intros Hx Hy. rewrite FloatAxioms.ltb_spec. unfold SFltb. rewrite compare_correct by assumption.
  destruct (Rcompare_spec (F2R x) (F2R y)); split; intros; try discriminate; try lra; reflexivity.
Qed.

Lemma leb_correct x y : finite_double x -> finite_double y ->
  (x <=? y)%float = true <-> (F2R x <= F2R y)%R.
Proof.
  intros Hx Hy. rewrite FloatAxioms.leb_spec. unfold SFleb. rewrite compare_correct by assumption.
  destruct (Rcompare_spec (F2R x) (F2R y)); split; intros; try discriminate; try lra; reflexivity.
Qed.

Lemma eqb_correct x y : finite_double x -> finite_double y ->
  (x =? y)%float = true <-> F2R x = F2R y.
Proof.
  intros Hx Hy. rewrite FloatAxioms.eqb_spec. unfold SFeqb. rewrite compare_correct by assumption.
  destruct (Rcompare_spec (F2R x) (F2R y)); split; intros; try discriminate; try lra; reflexivity.
Qed.

(** A number between two finite numbers is finite. *)
Lemma leb_finite a x b : finite_double a -> finite_double b ->
  (a <=? x)%float = true -> (x <=? b)%float = true -> finite_double x.
Proof.
  unfold finite_double. rewrite !FloatAxioms.leb_spec. unfold SFleb.
  destruct (Prim2SF a) as [sa|sa| |sa ma ea]; try discriminate;
  destruct (Prim2SF b) as [sb|sb| |sb mb eb]; try discriminate;
  destruct (Prim2SF x) as [sx|[]| |sx mx ex]; cbn; intros; try discriminate; 
    try reflexivity; destruct sa; try discriminate; destruct sb; discriminate.
Qed.

Lemma ltb_finite_l a x b : finite_double a -> finite_double b ->
  (a <? x)%float = true -> (x <=? b)%float = true -> finite_double x.
Proof.
  unfold finite_double. rewrite !FloatAxioms.leb_spec, FloatAxioms.ltb_spec. unfold SFleb, SFltb.
  destruct (Prim2SF a) as [sa|sa| |sa ma ea]; try discriminate;
  destruct (Prim2SF b) as [sb|sb| |sb mb eb]; try discriminate;
  destruct (Prim2SF x) as [sx|[]| |sx mx ex]; cbn; intros; try discriminate; 
    try reflexivity; destruct sa; try discriminate; destruct sb; discriminate.
Qed.

Lemma add_correct x y : finite_double x -> finite_double y ->
  (Rabs (F2R x + F2R y) < bpow 1023)%R ->
  finite_double (x + y) /\ rounds_to (F2R x + F2R y) (F2R (x + y)).
Proof. intros. unfold finite_double, F2R. rewrite add_spec. apply SFadd_correct; assumption. Qed.

Lemma sub_correct x y : finite_double x -> finite_double y ->
  (Rabs (F2R x - F2R y) < bpow 1023)%R ->
  finite_double (x - y) /\ rounds_to (F2R x - F2R y) (F2R (x - y)).
Proof. intros. unfold finite_double, F2R. rewrite sub_spec. apply SFsub_correct; assumption. Qed.

Lemma mul_correct x y : finite_double x -> finite_double y ->
  (Rabs (F2R x * F2R y) < bpow 1023)%R ->
  finite_double (x * y) /\ rounds_to (F2R x * F2R y) (F2R (x * y)).
Proof.
  intros. unfold finite_double, F2R. rewrite mul_spec.
  apply SFmul_correct; auto using Prim2SF_SFvalid.
Qed.

Lemma div_correct x y : finite_double x -> finite_double y ->
  (F2R x = 0 \/ bpow (-500) <= Rabs (F2R x) <= bpow 500)%R ->
  (bpow (-500) <= Rabs (F2R y) <= bpow 500)%R ->
  finite_double (x / y) /\ rounds_to (F2R x / F2R y) (F2R (x / y)).
Proof. intros. unfold finite_double, F2R. rewrite div_spec. apply SFdiv_correct; assumption. Qed.

Lemma rounds_to_exact v w : rounds_to v w -> representable v -> w = v.
Proof. intros H Hf. destruct (H v Hf) as [H1 H2]. apply Rle_antisym; [apply H2|apply H1]; lra. Qed.

Lemma format_IZR n : Z.abs n < 2 ^ 53 -> representable (IZR n).
Proof. intros H. exists n, 0. split; [rewrite bpow_0; lra|]. split; [exact H|lia]. Qed.

Lemma of_uint63_exact n : 0 <= n < 2 ^ 53 ->
  finite_double (PrimFloat.of_uint63 (Uint63.of_Z n)) /\
  F2R (PrimFloat.of_uint63 (Uint63.of_Z n)) = IZR n.
Proof.
  intros Hn. unfold finite_double, F2R. rewrite of_uint63_spec.
  rewrite Uint63.of_Z_spec. rewrite Z.mod_small
    by (change Uint63.wB with (2 ^ 63); assert (2 ^ 53 < 2 ^ 63) by reflexivity; lia).
  destruct (binary_normalize_correct n 0 false) as [Hf Hr].
  - rewrite bpow_0, Rmult_1_r. apply Rlt_trans with (bpow 53).
    + rewrite bpow_IZR by lia. rewrite <- abs_IZR. apply IZR_lt. lia.
    + apply bpow_lt. lia.
  - split; [exact Hf|]. rewrite bpow_0, Rmult_1_r in Hr.
    apply rounds_to_exact; [exact Hr|]. apply format_IZR. lia.
Qed.


Lemma IZR_pow2_bpow k e : 0 <= k -> (IZR (2 ^ k) * bpow e)%R = bpow (k + e).
Proof. intros. rewrite <- bpow_IZR, bpow_add by lia. reflexivity. Qed.

Lemma finite_zero : finite_double 0%float.
Proof. reflexivity. Qed.
Lemma finite_one : finite_double 1%float.
Proof. reflexivity. Qed.
Lemma finite_epsilon : finite_double epsilon.
Proof. reflexivity. Qed.
Lemma F2R_zero : F2R 0%float = 0%R.
Proof. reflexivity. Qed.
Lemma F2R_one : F2R 1%float = 1%R.
Proof.
  unfold F2R. replace (Prim2SF 1%float) with (S754_finite false (Z.to_pos (2 ^ 52)) (-52))
    by (vm_compute; reflexivity).
  cbn [SF2R]. change (Z.pos (Z.to_pos (2 ^ 52))) with (2 ^ 52).
  rewrite IZR_pow2_bpow by lia. reflexivity.
Qed.
Lemma F2R_epsilon : F2R epsilon = bpow (-52).
Proof.
  unfold F2R. replace (Prim2SF epsilon) with (S754_finite false (Z.to_pos (2 ^ 52)) (-104))
    by (vm_compute; reflexivity).
  cbn [SF2R]. change (Z.pos (Z.to_pos (2 ^ 52))) with (2 ^ 52).
  rewrite IZR_pow2_bpow by lia. reflexivity.
Qed.

Lemma format_bpow e : -1074 <= e -> representable (bpow e).
Proof. intros. exists 1, e. split; [lra|]. split; [reflexivity|assumption]. Qed.

Lemma format_0 : representable 0.
Proof. exists 0, 0. split; [lra|]. split; [reflexivity|lia]. Qed.

Lemma format_1 : representable 1.
Proof. rewrite <- bpow_0. apply format_bpow. lia. Qed.

Lemma rounds_to_le v w y : rounds_to v w -> representable y -> (v <= y)%R -> (w <= y)%R.
Proof. intros H Hy. apply (H y Hy). Qed.

Lemma rounds_to_ge v w y : rounds_to v w -> representable y -> (y <= v)%R -> (y <= w)%R.
Proof. intros H Hy. apply (H y Hy). Qed.

(** The ratio [k / static_cast<double>(n)] of two sizes. *)
Definition size_ratio (k n : Z) : float := (double_of_size_t k / double_of_size_t n)%float.

Lemma ratio_correct k n : 0 <= k < 2 ^ 53 -> 1 <= n < 2 ^ 53 ->
  finite_double (size_ratio k n) /\ rounds_to (IZR k / IZR n) (F2R (size_ratio k n)).
Proof.
  intros Hk Hn. unfold size_ratio, double_of_size_t.
  destruct (of_uint63_exact k Hk) as [Fk Ek].
  destruct (of_uint63_exact n ltac:(lia)) as [Fn En].
  rewrite <- Ek, <- En.
  assert (forall j, 1 <= j < 2 ^ 53 -> (bpow (-500) <= Rabs (IZR j) <= bpow 500)%R) as Hb.
  { intros j Hj. rewrite Rabs_pos_eq by (apply IZR_le; lia).
    split.
    - apply Rle_trans with 1%R; [rewrite <- bpow_0; apply bpow_le; lia|apply IZR_le; lia].
    - apply Rle_trans with (bpow 53); [rewrite bpow_IZR by lia; apply IZR_le; lia|apply bpow_le; lia]. }
  apply div_correct; auto.
  - rewrite Ek. destruct (Z.eq_dec k 0) as [->|]; [left; reflexivity|right; apply Hb; lia].
  - rewrite En. apply Hb. lia.
Qed.

Lemma ratio_bounds k n : 0 <= k <= n -> 1 <= n < 2 ^ 53 ->
  (0 <= F2R (size_ratio k n) <= 1)%R.
Proof.
  intros Hk Hn. destruct (ratio_correct k n ltac:(lia) Hn) as [_ Hr].
  assert (0 < IZR n)%R by (apply IZR_lt; lia).
  assert (0 <= IZR k <= IZR n)%R by (split; apply IZR_le; lia).
  split.
  - apply (rounds_to_ge _ _ _ Hr format_0).
    apply Rmult_le_pos; [lra|]. apply Rlt_le, Rinv_0_lt_compat; lra.
  - apply (rounds_to_le _ _ _ Hr format_1).
    apply Rmult_le_reg_r with (IZR n); [lra|]. unfold Rdiv.
    rewrite Rmult_assoc, Rinv_l by lra. lra.
Qed.

Lemma ratio_lower k n : 1 <= k -> k < 2 ^ 53 -> 1 <= n <= 2147483647 ->
  (bpow (-31) <= F2R (size_ratio k n))%R.
Proof.
  intros Hk Hk' Hn.
  assert (2147483647 < 2 ^ 53) by reflexivity.
  destruct (ratio_correct k n ltac:(lia) ltac:(lia)) as [_ Hr].
  apply (rounds_to_ge _ _ _ Hr (format_bpow (-31) ltac:(lia))).
  assert (0 < IZR n)%R by (apply IZR_lt; lia).
  assert (1 <= IZR k)%R by (apply IZR_le; lia).
  assert (IZR n <= bpow 31)%R by (rewrite bpow_IZR by lia; apply IZR_le; change (2^31) with 2147483648; lia).
  assert (bpow (-31) * bpow 31 = 1)%R by (rewrite <- bpow_add; reflexivity).
  pose proof (bpow_gt_0 (-31)).
  apply Rmult_le_reg_r with (IZR n); [lra|]. unfold Rdiv.
  rewrite Rmult_assoc, Rinv_l by lra. nra.
Qed.

Lemma ratio_one n : 1 <= n < 2 ^ 53 -> F2R (size_ratio n n) = 1%R.
Proof.
  intros Hn. destruct (ratio_correct n n ltac:(lia) Hn) as [_ Hr].
  assert (0 < IZR n)%R by (apply IZR_lt; lia).
  replace (IZR n / IZR n)%R with 1%R in Hr by (field; lra).
  apply rounds_to_exact; [exact Hr|apply format_1].
Qed.

Lemma Rdiv_le_iff a b c : (0 < b)%R -> (a / b <= c <-> a <= c * b)%R.
Proof.
  intros Hb. unfold Rdiv. split; intros H.
  - apply Rmult_le_reg_r with (/ b)%R; [apply Rinv_0_lt_compat; lra|].
    rewrite Rmult_assoc, Rinv_r by lra. lra.
  - apply Rmult_le_reg_r with b; [lra|]. rewrite Rmult_assoc, Rinv_l by lra. lra.
Qed.

Lemma Rdiv_ge_iff a b c : (0 < b)%R -> (c <= a / b <-> c * b <= a)%R.
Proof.
  intros Hb. unfold Rdiv. split; intros H.
  - apply Rmult_le_reg_r with (/ b)%R; [apply Rinv_0_lt_compat; lra|].
    rewrite Rmult_assoc, Rinv_r by lra. lra.
  - apply Rmult_le_reg_r with b; [lra|]. rewrite Rmult_assoc, Rinv_l by lra. lra.
Qed.

Lemma ratio_mono k k' n : 0 <= k <= k' -> k' <= n -> 1 <= n <= 2 ^ 52 ->
  (F2R (size_ratio k n) <= F2R (size_ratio k' n))%R.
Proof.
  intros Hk Hk' Hn. assert (2 ^ 52 < 2 ^ 53) by reflexivity.
  destruct (Z.eq_dec k k') as [->|Hne]; [lra|].
  destruct (ratio_correct k n ltac:(lia) ltac:(lia)) as [_ Hr].
  destruct (ratio_correct k' n ltac:(lia) ltac:(lia)) as [_ Hr'].
  apply (rounds_to_le _ _ _ Hr (F2R_format _)).
  set (j := (k * 2 ^ 52 + n - 1) / n).
  pose proof (Z.div_mod (k * 2 ^ 52 + n - 1) n ltac:(lia)) as Hdm.
  pose proof (Z.mod_pos_bound (k * 2 ^ 52 + n - 1) n ltac:(lia)) as Hmb.
  fold j in Hdm.
  assert (H1 : k * 2 ^ 52 <= n * j) by lia.
  assert (H2 : n * j <= k' * 2 ^ 52) by lia.
  assert (H3 : 0 <= j < 2 ^ 53) by nia.
  assert (Hnpos : (0 < IZR n)%R) by (apply IZR_lt; lia).
  assert (Hinv : (bpow (-52) * IZR (2 ^ 52) = 1)%R).
  { rewrite Rmult_comm, IZR_pow2_bpow by lia. reflexivity. }
  apply IZR_le in H1, H2. rewrite !mult_IZR in H1, H2.
  pose proof (bpow_gt_0 (-52)) as Hb.
  apply Rle_trans with (IZR j * bpow (-52))%R.
  - apply Rdiv_le_iff; [lra|].
    assert (IZR k * (bpow (-52) * IZR (2 ^ 52)) <= IZR j * bpow (-52) * IZR n)%R by nra.
    rewrite Hinv in H0. lra.
  - apply (rounds_to_ge _ _ _ Hr').
    + exists j, (-52). split; [reflexivity|]. split; lia.
    + apply Rdiv_ge_iff; [lra|].
      assert (IZR j * bpow (-52) * IZR n <= IZR k' * (bpow (-52) * IZR (2 ^ 52)))%R by nra.
      rewrite Hinv in H0. lra.
Qed.

Lemma ratio_below_one k n : 0 <= k < n -> n <= 2147483647 ->
  (F2R (size_ratio k n) <= 1 - bpow (-31))%R.
Proof.
  intros Hk Hn. assert (2147483647 < 2 ^ 53) by reflexivity.
  destruct (ratio_correct k n ltac:(lia) ltac:(lia)) as [_ Hr].
  assert (Hinv : (bpow (-31) * IZR (2 ^ 31) = 1)%R).
  { rewrite Rmult_comm, IZR_pow2_bpow by lia. reflexivity. }
  pose proof (bpow_gt_0 (-31)) as Hb.
  apply (rounds_to_le _ _ _ Hr).
  - exists (2 ^ 31 - 1), (-31). split; [rewrite minus_IZR; lra|]. split; [reflexivity|lia].
  - assert (0 < IZR n)%R by (apply IZR_lt; lia).
    apply Rdiv_le_iff; [lra|].
    assert (IZR k <= IZR n - 1)%R by (rewrite <- minus_IZR; apply IZR_le; lia).
    assert (IZR n <= IZR (2 ^ 31))%R by (apply IZR_le; change (2 ^ 31) with 2147483648; lia).
    nra.
Qed.

Lemma format_succ m e : 0 <= m < 2 ^ 53 -> -1074 <= e -> representable ((IZR m + 1) * bpow e).
Proof.
  intros Hm He. destruct (Z.eq_dec (m + 1) (2 ^ 53)) as [E|E].
  - exists (2 ^ 52), (e + 1). split; [|split; [reflexivity|lia]].
    rewrite bpow_succ. rewrite <- plus_IZR, E.
    change (2 ^ 53) with (2 * 2 ^ 52). rewrite mult_IZR. lra.
  - exists (m + 1), e. split; [rewrite plus_IZR; reflexivity|]. split; lia.
Qed.

Lemma format_one_plus_eps : representable (1 + bpow (-52)).
Proof.
  exists (2 ^ 52 + 1), (-52). split; [|split; [reflexivity|lia]].
  rewrite plus_IZR, Rmult_plus_distr_r, IZR_pow2_bpow by lia.
  change (52 + -52) with 0. rewrite bpow_0. lra.
Qed.

Lemma bpow_le_1 e : e <= 0 -> (bpow e <= 1)%R.
Proof. intros. rewrite <- bpow_0. apply bpow_le. assumption. Qed.

(** Adding [epsilon] to a number of [0, 1] gives a strictly greater number. *)
Lemma add_epsilon_correct q : finite_double q -> (0 <= F2R q <= 1)%R ->
  finite_double (q + epsilon) /\
  (F2R q < F2R (q + epsilon))%R /\
  (bpow (-52) <= F2R (q + epsilon) <= 1 + bpow (-52))%R /\
  ((F2R q <= 1 - bpow (-31))%R -> (F2R (q + epsilon) <= 1)%R).
Proof.
  intros Fq Hq. pose proof (bpow_gt_0 (-52)) as Hb.
  pose proof (bpow_lt (-52) 0 ltac:(lia)) as Hb1. rewrite bpow_0 in Hb1.
  destruct (add_correct q epsilon Fq finite_epsilon) as [Ff Hr].
  { rewrite F2R_epsilon, Rabs_pos_eq by lra.
    apply Rlt_trans with (bpow 2); [rewrite (bpow_IZR 2) by lia; change (2 ^ 2) with 4; lra|apply bpow_lt; lia]. }
  rewrite F2R_epsilon in Hr.
  split; [exact Ff|]. split; [|split; [split|]].
  - (* strictly greater: the successor of q is at most q + epsilon *)
    assert (exists y, representable y /\ F2R q < y <= F2R q + bpow (-52))%R as (y & Fy & Hy1 & Hy2).
    { pose proof (Prim2SF_SFvalid q) as Vq. unfold F2R in *. unfold finite_double in Fq.
      destruct (Prim2SF q) as [s|s| |s m e]; try discriminate.
      - exists (bpow (-52)). cbn [SF2R]. split; [apply format_bpow; lia|lra].
      - pose proof (SF2R_pos m e) as Hp. cbn [SF2R] in *.
        destruct s; [lra|].
        apply valid_finite_bounds in Vq as (He & Hm & Hn).
        exists ((IZR (Z.pos m) + 1) * bpow e)%R.
        split; [apply format_succ; lia|].
        pose proof (bpow_gt_0 e).
        assert (bpow e <= bpow (-52))%R.
        { apply bpow_le. destruct Hn as [->|Hn]; [lia|].
          destruct (Z_le_gt_dec e (-52)) as [|Hgt]; [assumption|exfalso].
          assert (bpow (-51) <= bpow e)%R by (apply bpow_le; lia).
          assert (IZR (2 ^ 52) <= IZR (Z.pos m))%R by (apply IZR_le; exact Hn).
          assert (IZR (2 ^ 52) * bpow (-51) = 2)%R.
          { rewrite IZR_pow2_bpow by lia. apply bpow_1. }
          nra. }
        nra. }
    pose proof (rounds_to_ge _ _ _ Hr Fy Hy2). lra.
  - apply (rounds_to_ge _ _ _ Hr (format_bpow (-52) ltac:(lia))). lra.
  - apply (rounds_to_le _ _ _ Hr format_one_plus_eps). lra.
  - intros Hq'. apply (rounds_to_le _ _ _ Hr format_1).
    pose proof (bpow_lt (-52) (-31) ltac:(lia)). lra.
Qed.

Lemma sub_unit a : finite_double a -> (0 <= F2R a <= 1)%R ->
  finite_double (1 - a) /\ (0 <= F2R (1 - a) <= 1)%R.
Proof.
  intros Fa Ha. destruct (sub_correct 1 a finite_one Fa) as [Ff Hr].
  { rewrite F2R_one. apply Rle_lt_trans with 1%R.
    - rewrite Rabs_pos_eq; lra.
    - rewrite <- bpow_0. apply bpow_lt. lia. }
  rewrite F2R_one in Hr. split; [exact Ff|]. split.
  - apply (rounds_to_ge _ _ _ Hr format_0). lra.
  - apply (rounds_to_le _ _ _ Hr format_1). lra.
Qed.

Lemma sub_from_one_nonpos a : finite_double a -> (1 <= F2R a <= 16)%R ->
  finite_double (1 - a) /\ (F2R (1 - a) <= 0)%R.
Proof.
  intros Fa Ha. destruct (sub_correct 1 a finite_one Fa) as [Ff Hr].
  { rewrite F2R_one. apply Rle_lt_trans with 16%R.
    - rewrite Rabs_left1; lra.
    - replace 16%R with (bpow 4) by (rewrite bpow_IZR by lia; reflexivity). apply bpow_lt. lia. }
  rewrite F2R_one in Hr. split; [exact Ff|].
  apply (rounds_to_le _ _ _ Hr format_0). lra.
Qed.

(** * Properties of the estimator *)

(** ** Outcomes and loops *)

Lemma bind_Ok {A B : Type} (m : outcome A) (f : A -> outcome B) (b : B) :
  m ≫= f = Ok b -> exists a, m = Ok a /\ f a = Ok b.
Proof. destruct m as [a| | |]; try discriminate. intros H. exists a. auto. Qed.

Lemma CHECK_Ok (cond : bool) (u : unit) : CHECK cond = Ok u -> cond = true.
Proof. destruct cond; [reflexivity|discriminate]. Qed.

(** A loop whose body returns and keeps [P] returns, and [P] holds at the end. *)
Lemma for_loop_invariant {St : Type} (P : Z -> St -> Prop) (body : Z -> St -> outcome St) :
  forall (count : nat) (i : Z) (s : St),
  P i s ->
  (forall j t, i <= j < i + Z.of_nat count -> P j t ->
     exists t', body j t = Ok t' /\ P (j + 1) t') ->
  exists s', for_loop count i body s = Ok s' /\ P (i + Z.of_nat count) s'.
Proof.
  induction count as [|count IH]; intros i s Hs Hbody.
  - exists s. split; [reflexivity|]. rewrite Z.add_0_r. exact Hs.
  - destruct (Hbody i s ltac:(lia) Hs) as (t & Ht & HP).
    destruct (IH (i + 1) t HP) as (s' & Hs' & HP').
    { intros j u Hj Hu. apply Hbody; [lia|exact Hu]. }
    exists s'. split.
    + cbn [for_loop]. rewrite Ht. exact Hs'.
    + replace (i + Z.of_nat (S count)) with (i + 1 + Z.of_nat count) by lia. exact HP'.
Qed.

(** What a loop returns satisfies every invariant of its body. *)
Lemma for_loop_preserves {St : Type} (P : Z -> St -> Prop) (body : Z -> St -> outcome St) :
  forall (count : nat) (i : Z) (s s' : St),
  P i s ->
  (forall j t t', i <= j < i + Z.of_nat count -> P j t -> body j t = Ok t' ->
     P (j + 1) t') ->
  for_loop count i body s = Ok s' -> P (i + Z.of_nat count) s'.
Proof.
  induction count as [|count IH]; intros i s s' Hs Hbody Hrun.
  - cbn in Hrun. injection Hrun as <-. rewrite Z.add_0_r. exact Hs.
  - cbn [for_loop] in Hrun. apply bind_Ok in Hrun as (t & Ht & Hrun).
    replace (i + Z.of_nat (S count)) with (i + 1 + Z.of_nat count) by lia.
    apply (IH (i + 1) t s'); [eapply Hbody; eauto; lia| |exact Hrun].
    intros j u u' Hj Hu. apply Hbody; [lia|exact Hu].
Qed.

(** ** Integers and vectors *)

Lemma wrap_int_small (z : Z) : INT_MIN <= z <= INT_MAX -> wrap_int z = z.
Proof.
  unfold INT_MIN, INT_MAX, wrap_int. intros H. rewrite Z.mod_small by lia. lia.
Qed.

Lemma clamp_range (v lo hi : Z) : lo <= hi -> lo <= clamp v lo hi <= hi.
Proof.
  intros H. unfold clamp.
  destruct (Z.ltb_spec v lo); [lia|]. destruct (Z.ltb_spec hi v); lia.
Qed.

Lemma clamp_upper (v lo hi : Z) : clamp v lo hi <= Z.max lo hi.
Proof.
  unfold clamp.
  destruct (Z.ltb_spec v lo); [lia|]. destruct (Z.ltb_spec hi v); lia.
Qed.

Lemma vec_get_Ok {A : Type} (v : list A) (i : Z) (x : A) :
  vec_get v i = Ok x <-> 0 <= i /\ v !! Z.to_nat i = Some x.
Proof.
  unfold vec_get. destruct (Z.leb_spec 0 i) as [Hi|Hi].
  - destruct (v !! Z.to_nat i) as [y|]; split.
    + intros [= ->]. auto.
    + intros [_ [= ->]]. reflexivity.
    + discriminate.
    + intros [_ [=]].
  - split; [discriminate|lia].
Qed.

Lemma vec_get_lookup {A : Type} (v : list A) (i : nat) (x : A) :
  v !! i = Some x -> vec_get v (Z.of_nat i) = Ok x.
Proof. intros H. apply vec_get_Ok. rewrite Nat2Z.id. split; [lia|exact H]. Qed.

Lemma vec_set_Ok {A : Type} (v : list A) (i : Z) (x : A) :
  0 <= i < size v -> vec_set v i x = Ok (<[Z.to_nat i := x]> v).
Proof.
  intros [H1 H2]. unfold vec_set.
  apply Z.leb_le in H1. apply Z.ltb_lt in H2. rewrite H1, H2. reflexivity.
Qed.

Lemma vec_set_inv {A : Type} (v v' : list A) (i : Z) (x : A) :
  vec_set v i x = Ok v' -> 0 <= i < size v /\ v' = <[Z.to_nat i := x]> v.
Proof.
  unfold vec_set. destruct (Z.leb_spec 0 i), (Z.ltb_spec i (size v)); cbn;
    try discriminate. intros [= <-]. auto.
Qed.

Lemma size_insert {A : Type} (v : list A) (i : nat) (x : A) :
  size (<[i := x]> v) = size v.
Proof. unfold size. rewrite length_insert. reflexivity. Qed.

(** A swap that returns permutes the vector. *)
Lemma vec_swap_inv {A : Type} (v v' : list A) (i j : Z) :
  vec_swap v i j = Ok v' ->
  exists a b, 0 <= i /\ 0 <= j /\
    v !! Z.to_nat i = Some a /\ v !! Z.to_nat j = Some b /\
    v' = <[Z.to_nat j := a]> (<[Z.to_nat i := b]> v) /\ v' ≡ₚ v.
Proof.
  unfold vec_swap. intros H.
  apply bind_Ok in H as (a & Ha & H). apply bind_Ok in H as (b & Hb & H).
  apply bind_Ok in H as (w & Hw & H).
  apply vec_get_Ok in Ha as [Hi Ha]. apply vec_get_Ok in Hb as [Hj Hb].
  apply vec_set_inv in Hw as [_ ->]. apply vec_set_inv in H as [_ ->].
  exists a, b. repeat split; auto.
  apply Permutation_insert_swap; assumption.
Qed.

Lemma vec_swap_Ok {A : Type} (v : list A) (i j : Z) :
  0 <= i < size v -> 0 <= j < size v -> exists v', vec_swap v i j = Ok v'.
Proof.
  intros Hi Hj. unfold vec_swap, size in *.
  destruct (lookup_lt_is_Some_2 v (Z.to_nat i) ltac:(lia)) as [a Ha].
  destruct (lookup_lt_is_Some_2 v (Z.to_nat j) ltac:(lia)) as [b Hb].
  rewrite (proj2 (vec_get_Ok v i a)) by (split; [lia|exact Ha]).
  rewrite (proj2 (vec_get_Ok v j b)) by (split; [lia|exact Hb]).
  cbn. rewrite vec_set_Ok by (unfold size; lia). cbn.
  rewrite vec_set_Ok by (rewrite size_insert; unfold size; lia). eauto.
Qed.

(** ** The sampler *)

(** [l] holds every index of [0, n) exactly once. *)
Definition is_index_permutation (n : nat) (l : list Z) : Prop :=
  l ≡ₚ map Z.of_nat (seq 0 n).

Lemma index_permutation_length (n : nat) (l : list Z) :
  is_index_permutation n l -> length l = n.
Proof.
  intros H. rewrite (Permutation_length H), length_map, length_seq. reflexivity.
Qed.

Lemma index_permutation_NoDup (n : nat) (l : list Z) :
  is_index_permutation n l -> NoDup l.
Proof.
  intros H. rewrite H. apply (NoDup_fmap_2 Z.of_nat), NoDup_seq.
Qed.

Lemma index_permutation_elem (n : nat) (l : list Z) (k : Z) :
  is_index_permutation n l -> k ∈ l -> 0 <= k < Z.of_nat n.
Proof.
  intros H Hk. rewrite H in Hk. apply list_elem_of_fmap in Hk as (x & -> & Hx).
  apply elem_of_seq in Hx. lia.
Qed.

Section EstimatorProofs.
Context `{G : Geometry} `{R : RandomEngine} `{L : Libm}.
Context `{M : !MinimalSolver CameraFeatureCorrespondence2D3D Solution}.

#[local] Abbreviation Correspondence := CameraFeatureCorrespondence2D3D.
#[local] Abbreviation Estimator := GdlsStarRobustEstimator.

(** The relation between a drawn correspondence and its index. *)
Definition drawn_at (correspondences : list Correspondence)
    (c : Correspondence) (k : Z) : Prop :=
  0 <= k < size correspondences /\ correspondences !! Z.to_nat k = Some c.

Lemma Sample_step_spec (cs : list Correspondence) (self : Estimator)
    (sample : list Correspondence) (i : Z) :
  uniform_int_in_range ->
  0 <= i < size cs ->
  is_index_permutation (length cs) (correspondence_indices_ self) ->
  exists self' c k,
    Sample_step cs (size cs) i (self, sample) = Ok (self', sample ++ [c]) /\
    params_ self' = params_ self /\
    is_index_permutation (length cs) (correspondence_indices_ self') /\
    take (Z.to_nat i) (correspondence_indices_ self')
      = take (Z.to_nat i) (correspondence_indices_ self) /\
    correspondence_indices_ self' !! Z.to_nat i = Some k /\
    drawn_at cs c k.
Proof.
  intros Hrng Hi Hperm. unfold Sample_step, RandInt.
  pose proof (index_permutation_length _ _ Hperm) as Hlen.
  replace (i <=? size cs - 1) with true by (symmetry; apply Z.leb_le; lia).
  pose proof (Hrng (prng_ self) i (size cs - 1) ltac:(lia)) as Hj.
  destruct (uniform_int (prng_ self) i (size cs - 1)) as [j g]. cbn [fst] in Hj.
  cbn [mbind outcome_bind].
  destruct (vec_swap_Ok (correspondence_indices_ self) i j) as [idx Hswap];
    [unfold size in *; lia|unfold size in *; lia|].
  rewrite Hswap. cbn [mbind outcome_bind].
  apply vec_swap_inv in Hswap as (a & b & _ & _ & Ha & Hb & -> & Hp).
  set (idx0 := correspondence_indices_ self) in *.
  assert (Hlook : <[Z.to_nat j := a]> (<[Z.to_nat i := b]> idx0) !! Z.to_nat i = Some b).
  { destruct (decide (Z.to_nat j = Z.to_nat i)) as [E|E].
    - rewrite E in *. assert (a = b) as -> by congruence.
      apply list_lookup_insert_eq. rewrite length_insert. unfold size in *. lia.
    - rewrite list_lookup_insert_ne by exact E.
      apply list_lookup_insert_eq. unfold size in *. lia. }
  assert (Hb' : 0 <= b < size cs).
  { apply (index_permutation_elem _ idx0 b Hperm).
    apply list_elem_of_lookup. eauto. }
  destruct (lookup_lt_is_Some_2 cs (Z.to_nat b) ltac:(unfold size in *; lia)) as [c Hc].
  rewrite (proj2 (vec_get_Ok _ i b)) by (split; [lia|exact Hlook]).
  cbn [mbind outcome_bind].
  rewrite (proj2 (vec_get_Ok cs b c)) by (split; [lia|exact Hc]).
  cbn [mbind outcome_bind].
  eexists _, c, b. split; [reflexivity|]. cbn [params_ correspondence_indices_].
  split; [reflexivity|]. split; [unfold is_index_permutation; rewrite Hp; exact Hperm|].
  split; [|split; [exact Hlook|split; assumption]].
  rewrite take_insert_ge by lia. rewrite take_insert_ge by lia. reflexivity.
Qed.

(** A call of [Sample] on a permutation of the indices. *)
Lemma Sample_spec (cs : list Correspondence) (self : Estimator) :
  uniform_int_in_range ->
  kMinimalSampleSize <= size cs <= INT_MAX ->
  is_index_permutation (length cs) (correspondence_indices_ self) ->
  exists sample self',
    Sample self cs = Ok (sample, self') /\
    params_ self' = params_ self /\
    is_index_permutation (length cs) (correspondence_indices_ self') /\
    Forall2 (drawn_at cs) sample (take 4 (correspondence_indices_ self')).
Proof.
  intros Hrng Hn Hperm. unfold Sample.
  rewrite wrap_int_small by (unfold INT_MIN, INT_MAX, kMinimalSampleSize in *; lia).
  set (P := fun (j : Z) (st : Estimator * list Correspondence) =>
    params_ (fst st) = params_ self /\
    is_index_permutation (length cs) (correspondence_indices_ (fst st)) /\
    Forall2 (drawn_at cs) (snd st)
      (take (Z.to_nat j) (correspondence_indices_ (fst st)))).
  destruct (for_loop_invariant P (Sample_step cs (size cs)) 4 0 (self, []))
    as ([self' sample] & Hrun & HP).
  - repeat split; [exact Hperm|]. cbn. constructor.
  - intros j [s smp] Hj (Hp1 & Hp2 & Hp3). cbn [fst snd] in *.
    destruct (Sample_step_spec cs s smp j Hrng
                ltac:(unfold kMinimalSampleSize in *; lia) Hp2)
      as (s' & c & k & Hstep & Hq1 & Hq2 & Hq3 & Hq4 & Hq5).
    exists (s', smp ++ [c]). split; [exact Hstep|].
    unfold P. cbn [fst snd]. split; [congruence|]. split; [exact Hq2|].
    replace (Z.to_nat (j + 1)) with (S (Z.to_nat j)) by lia.
    rewrite (take_S_r _ _ _ Hq4), Hq3.
    apply Forall2_app; [exact Hp3|]. constructor; [exact Hq5|constructor].
  - unfold for_range. change (Z.to_nat (kMinimalSampleSize - 0)) with 4%nat.
    rewrite Hrun. cbn [mbind outcome_bind].
    destruct HP as (H1 & H2 & H3). cbn [fst snd] in *.
    exists sample, self'. auto.
Qed.

(** A call of [Sample] that returns leaves a permutation of what it found. *)
Lemma Sample_permutes (cs : list Correspondence) (self self' : Estimator)
    (sample : list Correspondence) :
  Sample self cs = Ok (sample, self') ->
  correspondence_indices_ self' ≡ₚ correspondence_indices_ self /\
  params_ self' = params_ self.
Proof.
  unfold Sample. intros H. apply bind_Ok in H as ([s smp] & Hrun & H).
  injection H as <- <-.
  pose (P := fun (j : Z) (st : Estimator * list Correspondence) =>
    correspondence_indices_ (fst st) ≡ₚ correspondence_indices_ self /\
    params_ (fst st) = params_ self).
  apply (for_loop_preserves P) in Hrun.
  - exact Hrun.
  - split; reflexivity.
  - intros j [t u] [t' u'] _ [Hp1 Hp2] Hstep. unfold Sample_step in Hstep.
    apply bind_Ok in Hstep as ([k g] & _ & Hstep).
    apply bind_Ok in Hstep as (idx & Hswap & Hstep).
    apply bind_Ok in Hstep as (b & _ & Hstep).
    apply bind_Ok in Hstep as (c & _ & Hstep).
    injection Hstep as <- <-.
    apply vec_swap_inv in Hswap as (_ & _ & _ & _ & _ & _ & _ & Hp).
    unfold P. cbn [fst params_ correspondence_indices_] in *.
    split; [rewrite Hp; exact Hp1|exact Hp2].
Qed.


(** ** Scoring a hypothesis *)

(** Correspondence [j] exists and is an inlier of the hypothesis. *)
Definition inlier_at (sq_thresh : double) (cs : list Correspondence)
    (rotation : Quaterniond) (translation : Vector3d) (scale : double)
    (j : Z) : Prop :=
  exists c, 0 <= j /\ cs !! Z.to_nat j = Some c /\
            is_inlier sq_thresh rotation translation scale c = true.

Lemma size_app {A : Type} (l k : list A) : size (l ++ k) = size l + size k.
Proof. unfold size. rewrite length_app. lia. Qed.

Lemma score_spec (cs : list Correspondence) (thr : double)
    (rotation : Quaterniond) (translation : Vector3d) (scale : double) :
  size cs <= INT_MAX ->
  exists l, score cs thr rotation translation scale = Ok l /\
    (forall j, j ∈ l <-> inlier_at thr cs rotation translation scale j) /\
    StronglySorted Z.lt l /\ size l <= size cs.
Proof.
  intros Hn. unfold score.
  replace (size cs <=? INT_MAX) with true by (symmetry; apply Z.leb_le; exact Hn).
  set (P := fun (j : Z) (l : list Z) =>
    (forall k, k ∈ l <-> k < j /\ inlier_at thr cs rotation translation scale k) /\
    StronglySorted Z.lt l /\ size l <= j).
  destruct (for_loop_invariant P
              (score_step cs thr rotation translation scale)
              (Z.to_nat (size cs - 0)) 0 []) as (l & Hrun & HP).
  - split; [|split; [apply SSorted_nil|unfold size; cbn; lia]].
    intros k. rewrite elem_of_nil. split; [tauto|].
    intros [Hk (c & Hk0 & _)]. lia.
  - intros j l Hj (H1 & H2 & H3). unfold score_step.
    destruct (lookup_lt_is_Some_2 cs (Z.to_nat j) ltac:(unfold size in *; lia)) as [c Hc].
    rewrite (proj2 (vec_get_Ok cs j c)) by (split; [lia|exact Hc]).
    cbn [mbind outcome_bind].
    destruct (is_inlier thr rotation translation scale c) eqn:Hin.
    + exists (l ++ [j]). split; [reflexivity|]. split; [|split].
      * intros k. rewrite elem_of_app, list_elem_of_singleton, H1. split.
        -- intros [[Hk Hi]| ->]; [split; [lia|exact Hi]|].
           split; [lia|]. exists c. split; [lia|]. auto.
        -- intros [Hk Hi]. destruct (Z.eq_dec k j); [right; assumption|left].
           split; [lia|exact Hi].
      * apply StronglySorted_app_2;
          [|exact H2|apply SSorted_cons; [apply SSorted_nil|apply Forall_nil_2]].
        intros x1 x2 Hx1 Hx2. apply list_elem_of_singleton in Hx2 as ->.
        apply H1 in Hx1. lia.
      * rewrite size_app. unfold size in *. cbn. lia.
    + exists l. split; [reflexivity|]. split; [|split; [exact H2|lia]].
      intros k. rewrite H1. split.
      * intros [Hk Hi]. split; [lia|exact Hi].
      * intros [Hk Hi]. split; [|exact Hi].
        destruct (Z.eq_dec k j) as [->|]; [|lia].
        destruct Hi as (c' & _ & Hc' & Hi). congruence.
  - exists l. unfold for_range. split; [exact Hrun|].
    destruct HP as (H1 & H2 & H3).
    split; [|split; [exact H2|unfold size in *; lia]].
    intros j. rewrite H1. split; [tauto|]. intros Hi. split; [|exact Hi].
    destruct Hi as (c & Hj & Hc & _). apply lookup_lt_Some in Hc.
    unfold size in *. lia.
Qed.


(** ** Updating the best solution *)

(** The vectors of [sol] have one entry per hypothesis. *)
Definition well_formed (sol : Solution) : Prop :=
  length (translations sol) = length (rotations sol) /\
  length (scales sol) = length (rotations sol).

(** The solution that holds the one hypothesis [(rotation, translation, scale)]. *)
Definition single_hypothesis (rotation : Quaterniond) (translation : Vector3d)
    (scale : double) : Solution :=
  {| rotations := [rotation]; translations := [translation]; scales := [scale] |}.

Definition holds_one_hypothesis (sol : Solution) : Prop :=
  exists rotation translation scale,
    sol = single_hypothesis rotation translation scale.

(** Hypothesis [i] of [est] exists and its inliers are [li]; [b] holds it. *)
Definition hypothesis_scores (thr : double) (cs : list Correspondence)
    (est : Solution) (i : Z) (li : list Z) (b : Solution) : Prop :=
  exists rotation translation scale,
    0 <= i /\
    rotations est !! Z.to_nat i = Some rotation /\
    translations est !! Z.to_nat i = Some translation /\
    scales est !! Z.to_nat i = Some scale /\
    score cs thr rotation translation scale = Ok li /\
    b = single_hypothesis rotation translation scale.

Lemma hypothesis_scores_unique thr cs est i li b li' b' :
  hypothesis_scores thr cs est i li b ->
  hypothesis_scores thr cs est i li' b' -> li = li' /\ b = b'.
Proof.
  intros (r & t & s & _ & H1 & H2 & H3 & H4 & ->)
         (r' & t' & s' & _ & H1' & H2' & H3' & H4' & ->).
  assert (r = r') as -> by congruence. assert (t = t') as -> by congruence.
  assert (s = s') as -> by congruence. split; congruence.
Qed.

Lemma UpdateBestSolution_step_spec (thr : double) (cs : list Correspondence)
    (est : Solution) (i : Z) (r : double) (b : Solution) (l : list Z) :
  size cs <= INT_MAX -> well_formed est ->
  0 <= i < size (rotations est) -> holds_one_hypothesis b ->
  exists li bi, hypothesis_scores thr cs est i li bi /\
    UpdateBestSolution_step thr cs est i (r, b, l)
    = Ok (if size l <? size li
          then (size_ratio (size li) (size cs), bi, li)
          else (r, b, l)).
Proof.
  intros Hn [Hw1 Hw2] Hi (r0 & t0 & s0 & ->). unfold UpdateBestSolution_step, size in *.
  destruct (lookup_lt_is_Some_2 (rotations est) (Z.to_nat i) ltac:(lia)) as [rot Hr].
  destruct (lookup_lt_is_Some_2 (translations est) (Z.to_nat i) ltac:(lia)) as [tr Ht].
  destruct (lookup_lt_is_Some_2 (scales est) (Z.to_nat i) ltac:(lia)) as [sc Hs].
  rewrite (proj2 (vec_get_Ok _ i rot)) by (split; [lia|exact Hr]).
  cbn [mbind outcome_bind].
  rewrite (proj2 (vec_get_Ok _ i tr)) by (split; [lia|exact Ht]).
  cbn [mbind outcome_bind].
  rewrite (proj2 (vec_get_Ok _ i sc)) by (split; [lia|exact Hs]).
  cbn [mbind outcome_bind].
  destruct (score_spec cs thr rot tr sc Hn) as (li & Hli & _).
  rewrite Hli. cbn [mbind outcome_bind].
  exists li, (single_hypothesis rot tr sc). split.
  - exists rot, tr, sc. repeat split; auto; lia.
  - destruct (Z.of_nat (length l) <? Z.of_nat (length li)); reflexivity.
Qed.


(** What [UpdateBestSolution] leaves after the hypotheses below [j]: the
    incoming best while nothing had strictly more inliers, otherwise the first
    hypothesis with the largest number of inliers. *)
Definition best_so_far (thr : double) (cs : list Correspondence)
    (est b0 : Solution) (l0 : list Z) (j : Z)
    (st : double * Solution * list Z) : Prop :=
  let '(r, b, l) := st in
  holds_one_hypothesis b /\
  (forall i li bi, hypothesis_scores thr cs est i li bi -> i < j ->
     size li <= size l) /\
  ((l = l0 /\ b = b0 /\
    r = (size_ratio (size l0) (size cs) + epsilon)%float) \/
   (size l0 < size l /\ r = size_ratio (size l) (size cs) /\
    exists i, i < j /\ hypothesis_scores thr cs est i l b /\
      forall k lk bk, hypothesis_scores thr cs est k lk bk -> k < i ->
        size lk < size l)).

Lemma UpdateBestSolution_spec (self : Estimator) (cs : list Correspondence)
    (est b0 : Solution) (l0 : list Z) :
  size cs <= INT_MAX -> size (rotations est) <= INT_MAX ->
  well_formed est -> holds_one_hypothesis b0 ->
  exists st, UpdateBestSolution self cs est b0 l0 = Ok st /\
    best_so_far
      (reprojection_error_thresh (params_ self)
         * reprojection_error_thresh (params_ self))%float
      cs est b0 l0 (size (rotations est)) st.
Proof.
  intros Hn Hm Hwf Hb0. unfold UpdateBestSolution.
  set (thr := (reprojection_error_thresh (params_ self)
                 * reprojection_error_thresh (params_ self))%float).
  rewrite wrap_int_small by (unfold INT_MIN, INT_MAX, size in *; lia).
  unfold for_range. rewrite Z.sub_0_r.
  destruct (for_loop_invariant (best_so_far thr cs est b0 l0)
              (UpdateBestSolution_step thr cs est)
              (Z.to_nat (size (rotations est))) 0
              ((size_ratio (size l0) (size cs) + epsilon)%float, b0, l0))
    as (st & Hrun & Hpost).
  - split; [exact Hb0|]. split; [|left; auto].
    intros i li bi (? & ? & ? & Hi & _) ?. lia.
  - intros j [[r b] l] Hj (Hb & Hmax & Hcase).
    destruct (UpdateBestSolution_step_spec thr cs est j r b l Hn Hwf
                ltac:(unfold size in *; lia) Hb) as (lj & bj & Hsc & Hstep).
    eexists. split; [exact Hstep|].
    destruct (Z.ltb_spec (size l) (size lj)) as [Hlt|Hge]; cbn [best_so_far].
    + split; [destruct Hsc as (r' & t' & s' & _ & _ & _ & _ & _ & ->); eexists _, _, _; reflexivity|].
      split.
      * intros i li bi Hi Hij. destruct (Z.eq_dec i j) as [->|Hne].
        -- destruct (hypothesis_scores_unique _ _ _ _ _ _ _ _ Hi Hsc) as [-> _]. lia.
        -- specialize (Hmax i li bi Hi ltac:(lia)). lia.
      * right. split; [destruct Hcase as [(-> & _)|(? & _)]; lia|].
        split; [reflexivity|]. exists j. split; [lia|]. split; [exact Hsc|].
        intros k lk bk Hk Hkj. specialize (Hmax k lk bk Hk Hkj). lia.
    + split; [exact Hb|]. split.
      * intros i li bi Hi Hij. destruct (Z.eq_dec i j) as [->|Hne].
        -- destruct (hypothesis_scores_unique _ _ _ _ _ _ _ _ Hi Hsc) as [-> _]. lia.
        -- apply (Hmax i li bi Hi). lia.
      * destruct Hcase as [Hc|(H1 & H2 & i & Hi & H3 & H4)]; [left; exact Hc|right].
        split; [exact H1|]. split; [exact H2|]. exists i. split; [lia|]. auto.
  - exists st. split; [exact Hrun|].
    rewrite Z.add_0_l, Z2Nat.id in Hpost by (unfold size; lia). exact Hpost.
Qed.


Lemma INT_MAX_lt_pow53 : INT_MAX < 2 ^ 53.
Proof. reflexivity. Qed.

Lemma score_size_le (cs : list Correspondence) thr rotation translation scale l :
  size cs <= INT_MAX ->
  score cs thr rotation translation scale = Ok l -> size l <= size cs.
Proof.
  intros Hn H. destruct (score_spec cs thr rotation translation scale Hn)
    as (l' & Hl' & _ & _ & Hs). congruence.
Qed.

Lemma hypothesis_scores_size thr cs est i li bi :
  size cs <= INT_MAX -> hypothesis_scores thr cs est i li bi -> size li <= size cs.
Proof.
  intros Hn (r & t & s & _ & _ & _ & _ & H & _). eapply score_size_le; eauto.
Qed.

(** The ratio of an inlier count to the number of correspondences. *)
Lemma size_ratio_unit (k n : Z) : 0 <= k <= n -> 1 <= n <= INT_MAX ->
  finite_double (size_ratio k n) /\ (0 <= F2R (size_ratio k n) <= 1)%R.
Proof.
  intros Hk Hn. pose proof INT_MAX_lt_pow53.
  split; [apply ratio_correct; lia|apply ratio_bounds; lia].
Qed.

Lemma size_ratio_positive (k n : Z) : 1 <= k <= n -> n <= INT_MAX ->
  (0 <? size_ratio k n)%float = true /\ (epsilon <=? size_ratio k n)%float = true.
Proof.
  intros Hk Hn. pose proof INT_MAX_lt_pow53.
  destruct (size_ratio_unit k n ltac:(lia) ltac:(lia)) as [Hf _].
  pose proof (ratio_lower k n ltac:(lia) ltac:(lia) ltac:(unfold INT_MAX in *; lia)) as Hl.
  pose proof (bpow_gt_0 (-31)). pose proof (bpow_le (-52) (-31) ltac:(lia)).
  split.
  - apply ltb_correct; [apply finite_zero|exact Hf|]. rewrite F2R_zero. lra.
  - apply leb_correct; [apply finite_epsilon|exact Hf|]. rewrite F2R_epsilon. lra.
Qed.

Lemma size_ratio_nudged (k n : Z) : 0 <= k <= n -> 1 <= n <= INT_MAX ->
  let q := size_ratio k n in
  finite_double (q + epsilon) /\
  (q <? q + epsilon)%float = true /\
  (0 <? q + epsilon)%float = true /\
  (epsilon <=? q + epsilon)%float = true.
Proof.
  intros Hk Hn q. destruct (size_ratio_unit k n Hk Hn) as [Hf Hb]. fold q in Hf, Hb.
  destruct (add_epsilon_correct q Hf Hb) as (Hf' & Hlt & [Hlo _] & _).
  pose proof (bpow_gt_0 (-52)).
  split; [exact Hf'|]. split; [|split].
  - apply ltb_correct; assumption.
  - apply ltb_correct; [apply finite_zero|exact Hf'|]. rewrite F2R_zero. lra.
  - apply leb_correct; [apply finite_epsilon|exact Hf'|]. rewrite F2R_epsilon. lra.
Qed.

Lemma size_ratio_le (k k' n : Z) : 0 <= k <= k' -> k' <= n -> 1 <= n <= INT_MAX ->
  (size_ratio k n <=? size_ratio k' n)%float = true.
Proof.
  intros Hk Hk' Hn.
  destruct (size_ratio_unit k n ltac:(lia) Hn) as [Hf _].
  destruct (size_ratio_unit k' n ltac:(lia) Hn) as [Hf' _].
  apply leb_correct; [exact Hf|exact Hf'|].
  apply ratio_mono; [lia|lia|]. unfold INT_MAX in *.
  assert (2147483647 < 2 ^ 52) by reflexivity. lia.
Qed.

(** C4. [UpdateBestSolution] returns the new best inlier count divided by the
    number of correspondences when some hypothesis has strictly more inliers
    than the incoming best; when none has, it returns the incoming best count
    divided by the number of correspondences plus machine epsilon, which is
    strictly greater than the incoming ratio, and leaves the best solution and
    inliers as they were. In both cases the returned ratio is strictly
    positive and not below the incoming ratio. *)
Theorem UpdateBestSolution_returned_ratio (self : Estimator)
    (cs : list Correspondence) (est b0 : Solution) (l0 : list Z) :
  1 <= size cs <= INT_MAX -> size (rotations est) <= INT_MAX ->
  well_formed est -> holds_one_hypothesis b0 -> size l0 <= size cs ->
  let thr := (reprojection_error_thresh (params_ self)
                * reprojection_error_thresh (params_ self))%float in
  let incoming := size_ratio (size l0) (size cs) in
  exists r b l, UpdateBestSolution self cs est b0 l0 = Ok (r, b, l) /\
    (forall i li bi, hypothesis_scores thr cs est i li bi -> size li <= size l) /\
    ((exists i li bi, hypothesis_scores thr cs est i li bi /\ size l0 < size li) ->
       size l0 < size l /\ r = size_ratio (size l) (size cs) /\
       exists i, hypothesis_scores thr cs est i l b) /\
    ((forall i li bi, hypothesis_scores thr cs est i li bi -> size li <= size l0) ->
       l = l0 /\ b = b0 /\ r = (incoming + epsilon)%float /\
       (incoming <? r)%float = true) /\
    (0 <? r)%float = true /\ (incoming <=? r)%float = true.
Proof.
  intros Hn Hm Hwf Hb0 Hl0 thr incoming.
  destruct (UpdateBestSolution_spec self cs est b0 l0 ltac:(lia) Hm Hwf Hb0)
    as ([[r b] l] & Hrun & Hb & Hmax & Hcase).
  fold thr in Hmax, Hcase.
  assert (Hmax' : forall i li bi, hypothesis_scores thr cs est i li bi -> size li <= size l).
  { intros i li bi Hi. apply (Hmax i li bi Hi).
    destruct Hi as (? & ? & ? & ? & Hi & _). apply lookup_lt_Some in Hi.
    unfold size. lia. }
  assert (H0 : 0 <= size l0) by (unfold size; lia).
  destruct (size_ratio_nudged (size l0) (size cs) ltac:(lia) Hn) as (Hf & Hgt & Hpos & _).
  fold incoming in Hf, Hgt, Hpos.
  exists r, b, l. split; [exact Hrun|]. split; [exact Hmax'|].
  destruct Hcase as [(-> & -> & ->)|(Hlt & -> & i & _ & Hi & _)].
  - split; [|split; [|split]].
    + intros (i & li & bi & Hi & Hlt). specialize (Hmax' i li bi Hi). lia.
    + intros _. auto.
    + exact Hpos.
    + destruct (size_ratio_unit (size l0) (size cs) ltac:(lia) Hn) as [Hq _].
      fold incoming in Hq.
      apply leb_correct; [exact Hq|exact Hf|].
      apply ltb_correct in Hgt; [apply Rlt_le; exact Hgt|exact Hq|exact Hf].
  - pose proof (hypothesis_scores_size thr cs est i l b (proj2 Hn) Hi) as Hle.
    split; [|split; [|split]].
    + intros _. split; [exact Hlt|]. split; [reflexivity|]. exists i. exact Hi.
    + intros Hnone. specialize (Hnone i l b Hi). lia.
    + apply size_ratio_positive; lia.
    + apply size_ratio_le; lia.
Qed.


Lemma vec_set_single {A : Type} (x y : A) : vec_set [x] 0 y = Ok [y].
Proof. reflexivity. Qed.

(** What a call of [UpdateBestSolution] that returns has done. *)
Lemma UpdateBestSolution_inv (self : Estimator) (cs : list Correspondence)
    (est b0 b : Solution) (l0 l : list Z) (r : double) :
  holds_one_hypothesis b0 ->
  UpdateBestSolution self cs est b0 l0 = Ok (r, b, l) ->
  (l = l0 /\ b = b0 /\
   r = (size_ratio (size l0) (size cs) + epsilon)%float) \/
  (size l0 < size l /\ r = size_ratio (size l) (size cs) /\
   exists rotation translation scale,
     score cs
       (reprojection_error_thresh (params_ self)
          * reprojection_error_thresh (params_ self))%float
       rotation translation scale = Ok l /\
     b = single_hypothesis rotation translation scale).
Proof.
  intros Hb0. unfold UpdateBestSolution, for_range.
  set (thr := (reprojection_error_thresh (params_ self)
                 * reprojection_error_thresh (params_ self))%float).
  set (P := fun (j : Z) (st : double * Solution * list Z) =>
    let '(r, b, l) := st in
    holds_one_hypothesis b /\
    ((l = l0 /\ b = b0 /\
      r = (size_ratio (size l0) (size cs) + epsilon)%float) \/
     (size l0 < size l /\ r = size_ratio (size l) (size cs) /\
      exists rotation translation scale,
        score cs thr rotation translation scale = Ok l /\
        b = single_hypothesis rotation translation scale))).
  intros Hrun. apply (for_loop_preserves P) in Hrun.
  - apply Hrun.
  - split; [exact Hb0|]. left. auto.
  - intros j [[r1 b1] l1] st' _ [(rb & tb & sb & ->) Hcase] Hstep.
    unfold UpdateBestSolution_step in Hstep.
    apply bind_Ok in Hstep as (rot & _ & Hstep).
    apply bind_Ok in Hstep as (tr & _ & Hstep).
    apply bind_Ok in Hstep as (sc & _ & Hstep).
    apply bind_Ok in Hstep as (lj & Hlj & Hstep).
    destruct (Z.ltb_spec (size l1) (size lj)) as [Hlt|Hge].
    + cbn in Hstep. injection Hstep as <-. unfold P.
      split; [eexists _, _, _; reflexivity|]. right.
      split; [destruct Hcase as [(-> & _)|(? & _)]; lia|].
      split; [reflexivity|]. exists rot, tr, sc. auto.
    + injection Hstep as <-. split; [eexists _, _, _; reflexivity|exact Hcase].
Qed.

(** ** The adaptive bound *)

Lemma static_cast_int_not_Fatal (x : double) : static_cast_int x <> Fatal.
Proof.
  unfold static_cast_int. destruct (truncate x) as [z|]; [|discriminate].
  destruct (_ && _); discriminate.
Qed.

Lemma ComputeMaxIterations_not_Fatal (self : Estimator) (r lfp : double) :
  (0 <? r)%float = true -> ComputeMaxIterations self r lfp <> Fatal.
Proof.
  intros Hr. unfold ComputeMaxIterations. rewrite Hr. cbn [CHECK mbind outcome_bind].
  destruct (r =? 1)%float; [discriminate|].
  match goal with |- context [static_cast_int ?x] =>
    pose proof (static_cast_int_not_Fatal x) as H;
    destruct (static_cast_int x); try discriminate; congruence end.
Qed.

Lemma ComputeMaxIterations_Ok (self : Estimator) (r lfp : double) (v : Z) :
  ComputeMaxIterations self r lfp = Ok v ->
  (0 <? r)%float = true /\
  v <= Z.max (min_iterations (params_ self)) (max_iterations (params_ self)) /\
  (min_iterations (params_ self) <= max_iterations (params_ self) ->
   min_iterations (params_ self) <= v <= max_iterations (params_ self)).
Proof.
  unfold ComputeMaxIterations. intros H.
  apply bind_Ok in H as (u & Hc & H). apply CHECK_Ok in Hc.
  split; [exact Hc|].
  destruct (r =? 1)%float.
  - injection H as <-. split; lia.
  - apply bind_Ok in H as (n & _ & H). injection H as <-.
    split; [apply clamp_upper|apply clamp_range].
Qed.


(** ** The hypothesize-and-test loop *)

(** The iteration found no hypothesis: only the sampler, the scratch
    hypotheses and the iteration counter change. *)
Definition skipped_iteration (st st' : loop_state) : Prop :=
  inliers (ls_summary st') = inliers (ls_summary st) /\
  num_hypotheses (ls_summary st') = num_hypotheses (ls_summary st) /\
  ls_max_iterations st' = ls_max_iterations st /\
  ls_best_solution st' = ls_best_solution st /\
  ls_inlier_ratio st' = ls_inlier_ratio st.

(** The iteration scored the hypotheses [hyps] with the estimator [self]. *)
Definition scored_iteration (cs : list Correspondence) (lfp : double)
    (self : Estimator) (hyps : Solution) (st st' : loop_state) : Prop :=
  UpdateBestSolution self cs hyps (ls_best_solution st) (inliers (ls_summary st))
    = Ok (ls_inlier_ratio st', ls_best_solution st', inliers (ls_summary st')) /\
  ComputeMaxIterations self (ls_inlier_ratio st') lfp = Ok (ls_max_iterations st') /\
  num_hypotheses (ls_summary st')
    = wrap_int (num_hypotheses (ls_summary st) + size (rotations hyps)).

Lemma Estimate_iteration_inv (priors : Priors) (cs : list Correspondence)
    (lfp : double) (st st' : loop_state) :
  Estimate_iteration priors cs lfp st = Ok st' ->
  exists sample ok,
    Sample (ls_self st) cs = Ok (sample, ls_self st') /\
    EstimateSimilarityTransformation
      (set_priors (ComputeInputDatum sample) priors) (ls_hypotheses st)
      = (ok, ls_hypotheses st') /\
    num_iterations (ls_summary st') = num_iterations (ls_summary st) + 1 /\
    confidence (ls_summary st') = confidence (ls_summary st) /\
    if ok then scored_iteration cs lfp (ls_self st') (ls_hypotheses st') st st'
    else skipped_iteration st st'.
Proof.
  unfold Estimate_iteration. intros H.
  apply bind_Ok in H as ([sample self] & HS & H).
  destruct (EstimateSimilarityTransformation _ _) as [ok hyps] eqn:Hsolve.
  exists sample, ok. destruct ok; cbn [negb] in H.
  - apply bind_Ok in H as ([[r b] l] & HU & H).
    apply bind_Ok in H as (v & HC & H). injection H as <-. cbn.
    repeat split; auto.
  - injection H as <-. cbn. repeat split; auto.
Qed.

(** What every state of the loop satisfies. *)
Definition loop_invariant (p : RansacParameters) (cs : list Correspondence)
    (st : loop_state) : Prop :=
  params_ (ls_self st) = p /\
  is_index_permutation (length cs) (correspondence_indices_ (ls_self st)) /\
  holds_one_hypothesis (ls_best_solution st) /\
  size (inliers (ls_summary st)) <= size cs /\
  0 <= num_iterations (ls_summary st) /\
  ls_max_iterations st <= Z.max (min_iterations p) (max_iterations p).

Lemma loop_invariant_init (self : Estimator) (cs : list Correspondence)
    (indices : list Z) (summary : RansacSummary) :
  iota (length cs) = Ok indices ->
  loop_invariant (params_ self) cs (Estimate_init self indices summary).
Proof.
  unfold iota. destruct (_ <=? _); [|discriminate]. intros [= <-].
  unfold loop_invariant, Estimate_init.
  cbn [ls_self ls_summary ls_max_iterations ls_best_solution params_
       correspondence_indices_ inliers num_iterations].
  split; [reflexivity|]. split; [unfold is_index_permutation; reflexivity|].
  split; [eexists _, _, _; reflexivity|].
  split; [unfold size; cbn; lia|]. split; lia.
Qed.

Lemma loop_invariant_step (p : RansacParameters) (priors : Priors)
    (cs : list Correspondence) (lfp : double) (st st' : loop_state) :
  loop_invariant p cs st ->
  Estimate_iteration priors cs lfp st = Ok st' ->
  loop_invariant p cs st'.
Proof.
  intros (Hp & Hperm & Hone & Hsz & Hit & Hmax) Hstep.
  apply Estimate_iteration_inv in Hstep as (sample & ok & HS & _ & Hn & _ & Hcase).
  apply Sample_permutes in HS as [Hperm' Hp'].
  unfold loop_invariant. split; [congruence|].
  split; [unfold is_index_permutation in *; rewrite Hperm'; exact Hperm|].
  destruct ok.
  - destruct Hcase as (HU & HC & _).
    pose proof (UpdateBestSolution_inv _ _ _ _ _ _ _ _ Hone HU) as Hinv.
    apply ComputeMaxIterations_Ok in HC as (_ & HC & _).
    rewrite Hp', Hp in HC.
    split; [|split; [|split; [lia|exact HC]]].
    + destruct Hinv as [(_ & -> & _)|(_ & _ & r & t & s & _ & ->)];
        [exact Hone|eexists _, _, _; reflexivity].
    + destruct Hinv as [(-> & _)|(_ & _ & r & t & s & Hsc & _)]; [exact Hsz|].
      unfold score in Hsc. destruct (Z.leb_spec (size cs) INT_MAX); [|discriminate].
      eapply score_size_le; [eassumption|]. unfold score.
      replace (size cs <=? INT_MAX) with true by (symmetry; apply Z.leb_le; assumption).
      exact Hsc.
  - destruct Hcase as (H1 & _ & H3 & H4 & _).
    rewrite H1, H3, H4. repeat split; auto. lia.
Qed.


(** The states the loop goes through from [st]. *)
Inductive loop_reaches (priors : Priors) (cs : list Correspondence)
    (lfp : double) (st : loop_state) : loop_state -> Prop :=
  | reaches_start : loop_reaches priors cs lfp st st
  | reaches_next (st' st'' : loop_state) :
      loop_reaches priors cs lfp st st' ->
      num_iterations (ls_summary st') < ls_max_iterations st' ->
      Estimate_iteration priors cs lfp st' = Ok st'' ->
      loop_reaches priors cs lfp st st''.

Lemma loop_reaches_first (priors : Priors) (cs : list Correspondence)
    (lfp : double) (st st' st'' : loop_state) :
  num_iterations (ls_summary st) < ls_max_iterations st ->
  Estimate_iteration priors cs lfp st = Ok st' ->
  loop_reaches priors cs lfp st' st'' ->
  loop_reaches priors cs lfp st st''.
Proof.
  intros Hc Hstep Hr. induction Hr as [|u u' _ IH Hc' Hstep'].
  - eapply reaches_next; [apply reaches_start|exact Hc|exact Hstep].
  - eapply reaches_next; eauto.
Qed.

(** The loop ends in a state it reaches, with the bound met. *)
Lemma Estimate_loop_reaches (priors : Priors) (cs : list Correspondence)
    (lfp : double) :
  forall (fuel : nat) (st st' : loop_state),
  Estimate_loop fuel priors cs lfp st = Ok st' ->
  loop_reaches priors cs lfp st st' /\
  ls_max_iterations st' <= num_iterations (ls_summary st').
Proof.
  induction fuel as [|fuel IH]; intros st st' H; cbn [Estimate_loop] in H;
    destruct (Z.ltb_spec (num_iterations (ls_summary st)) (ls_max_iterations st))
      as [Hc|Hc]; try discriminate.
  - injection H as <-. split; [apply reaches_start|exact Hc].
  - apply bind_Ok in H as (u & Hstep & H). apply IH in H as [Hr Hend].
    split; [|exact Hend]. eapply loop_reaches_first; eauto.
  - injection H as <-. split; [apply reaches_start|exact Hc].
Qed.

Lemma loop_reaches_invariant (p : RansacParameters) (priors : Priors)
    (cs : list Correspondence) (lfp : double) (st st' : loop_state) :
  loop_invariant p cs st -> loop_reaches priors cs lfp st st' ->
  loop_invariant p cs st'.
Proof.
  intros Hinv Hr. induction Hr as [|u u' _ IH _ Hstep]; [exact Hinv|].
  eapply loop_invariant_step; eauto.
Qed.

(** *** Which calls can abort *)

(** The call returns or runs into undefined behaviour: no [CHECK] fails and
    the loop budget is not exhausted. *)
Definition no_abort {A : Type} (m : outcome A) : Prop :=
  match m with
  | Ok _ | Undefined => True
  | Fatal | OutOfFuel => False
  end.

Lemma no_abort_bind {A B : Type} (m : outcome A) (f : A -> outcome B) :
  no_abort m -> (forall a, m = Ok a -> no_abort (f a)) -> no_abort (m ≫= f).
Proof. destruct m; cbn; auto. Qed.

Lemma for_loop_no_abort {St : Type} (body : Z -> St -> outcome St) :
  (forall j t, no_abort (body j t)) ->
  forall (count : nat) (i : Z) (s : St), no_abort (for_loop count i body s).
Proof.
  intros Hbody. induction count as [|count IH]; intros i s; cbn [for_loop].
  - exact I.
  - apply no_abort_bind; auto.
Qed.

Lemma vec_get_no_abort {A : Type} (v : list A) (i : Z) : no_abort (vec_get v i).
Proof. unfold vec_get. destruct (if 0 <=? i then _ else _); exact I. Qed.

Lemma vec_set_no_abort {A : Type} (v : list A) (i : Z) (x : A) :
  no_abort (vec_set v i x).
Proof. unfold vec_set. destruct (_ && _); exact I. Qed.

Lemma Sample_no_abort (self : Estimator) (cs : list Correspondence) :
  no_abort (Sample self cs).
Proof.
  unfold Sample. apply no_abort_bind; [|intros [? ?] _; exact I].
  apply for_loop_no_abort. intros j [s smp]. unfold Sample_step, RandInt, vec_swap.
  destruct (_ <=? _); [|exact I].
  destruct (uniform_int _ _ _) as [k g]. cbn [mbind outcome_bind].
  repeat first [exact I | apply vec_get_no_abort | apply vec_set_no_abort
               | apply no_abort_bind; [|intros ? _]].
Qed.

Lemma score_no_abort (cs : list Correspondence) thr rotation translation scale :
  no_abort (score cs thr rotation translation scale).
Proof.
  unfold score. destruct (_ <=? _); [|exact I].
  apply for_loop_no_abort. intros j l. unfold score_step.
  apply no_abort_bind; [apply vec_get_no_abort|]. intros c _.
  destruct (is_inlier _ _ _ _ _); exact I.
Qed.

Lemma UpdateBestSolution_no_abort (self : Estimator) (cs : list Correspondence)
    (est b0 : Solution) (l0 : list Z) :
  no_abort (UpdateBestSolution self cs est b0 l0).
Proof.
  unfold UpdateBestSolution. apply for_loop_no_abort.
  intros j [[r b] l]. unfold UpdateBestSolution_step.
  do 3 (apply no_abort_bind; [apply vec_get_no_abort|intros ? _]).
  apply no_abort_bind; [apply score_no_abort|intros ? _].
  destruct (_ <? _); [|exact I].
  do 3 (apply no_abort_bind; [apply vec_set_no_abort|intros ? _]). exact I.
Qed.

Lemma static_cast_int_no_abort (x : double) : no_abort (static_cast_int x).
Proof.
  unfold static_cast_int. destruct (truncate x); [|exact I].
  destruct (_ && _); exact I.
Qed.

(** [ComputeMaxIterations] aborts on its [CHECK] only. *)
Lemma ComputeMaxIterations_no_abort (self : Estimator) (r lfp : double) :
  (0 <? r)%float = true -> no_abort (ComputeMaxIterations self r lfp).
Proof.
  intros Hr. unfold ComputeMaxIterations. rewrite Hr. cbn [CHECK mbind outcome_bind].
  destruct (r =? 1)%float; [exact I|].
  apply no_abort_bind; [apply static_cast_int_no_abort|intros ? _; exact I].
Qed.

Lemma ComputeMaxIterations_fuel (self : Estimator) (r lfp : double) :
  ComputeMaxIterations self r lfp <> OutOfFuel.
Proof.
  unfold ComputeMaxIterations. destruct (0 <? r)%float; cbn; [|discriminate].
  destruct (r =? 1)%float; [discriminate|].
  unfold static_cast_int. destruct (truncate _); cbn; [|discriminate].
  destruct (_ && _); discriminate.
Qed.

Lemma no_abort_fuel {A : Type} (m : outcome A) : no_abort m -> m <> OutOfFuel.
Proof. destruct m; cbn; try discriminate; tauto. Qed.

Lemma no_abort_Fatal {A : Type} (m : outcome A) : no_abort m -> m <> Fatal.
Proof. destruct m; cbn; try discriminate; tauto. Qed.

Lemma Estimate_iteration_fuel (priors : Priors) (cs : list Correspondence)
    (lfp : double) (st : loop_state) :
  Estimate_iteration priors cs lfp st <> OutOfFuel.
Proof.
  unfold Estimate_iteration.
  pose proof (no_abort_fuel _ (Sample_no_abort (ls_self st) cs)).
  destruct (Sample (ls_self st) cs) as [[sample self]| | |]; cbn;
    try discriminate; try congruence.
  destruct (EstimateSimilarityTransformation _ _) as [[] hyps]; cbn; [|discriminate].
  match goal with |- context [UpdateBestSolution ?a ?b ?c ?d ?e] =>
    pose proof (no_abort_fuel _ (UpdateBestSolution_no_abort a b c d e));
    destruct (UpdateBestSolution a b c d e) as [[[r b'] l]| | |]; cbn;
    try discriminate; try congruence end.
  pose proof (ComputeMaxIterations_fuel self r lfp).
  destruct (ComputeMaxIterations self r lfp); cbn; try discriminate; congruence.
Qed.

(** The budget of [Estimate_loop] is enough. *)
Lemma Estimate_loop_fuel (p : RansacParameters) (priors : Priors)
    (cs : list Correspondence) (lfp : double) :
  forall (fuel : nat) (st : loop_state),
  loop_invariant p cs st ->
  Z.max (min_iterations p) (max_iterations p) - num_iterations (ls_summary st)
    <= Z.of_nat fuel ->
  Estimate_loop fuel priors cs lfp st <> OutOfFuel.
Proof.
  induction fuel as [|fuel IH]; intros st Hinv Hfuel; cbn [Estimate_loop];
    destruct (Z.ltb_spec (num_iterations (ls_summary st)) (ls_max_iterations st))
      as [Hc|Hc]; try discriminate.
  - destruct Hinv as (_ & _ & _ & _ & _ & Hmax). lia.
  - pose proof (Estimate_iteration_fuel priors cs lfp st) as Hf.
    destruct (Estimate_iteration priors cs lfp st) as [st'| | |] eqn:Hstep; cbn;
      try discriminate; try congruence.
    apply IH; [eapply loop_invariant_step; eauto|].
    apply Estimate_iteration_inv in Hstep as (_ & _ & _ & _ & Hn & _). lia.
Qed.


(** *** The ratio handed to [ComputeMaxIterations] *)

Lemma returned_ratio_positive (self : Estimator) (cs : list Correspondence)
    (est b0 b : Solution) (l0 l : list Z) (r : double) :
  1 <= size cs <= INT_MAX -> holds_one_hypothesis b0 -> size l0 <= size cs ->
  UpdateBestSolution self cs est b0 l0 = Ok (r, b, l) ->
  (epsilon <=? r)%float = true /\ (0 <? r)%float = true.
Proof.
  intros Hn Hb0 Hl0 HU.
  assert (0 <= size l0) by (unfold size; lia).
  destruct (UpdateBestSolution_inv _ _ _ _ _ _ _ _ Hb0 HU)
    as [(_ & _ & ->)|(Hlt & -> & rot & tr & sc & Hsc & _)].
  - destruct (size_ratio_nudged (size l0) (size cs) ltac:(lia) Hn) as (_ & _ & H1 & H2).
    auto.
  - pose proof (score_size_le _ _ _ _ _ _ (proj2 Hn) Hsc).
    destruct (size_ratio_positive (size l) (size cs) ltac:(lia) ltac:(lia)). auto.
Qed.

Lemma Estimate_iteration_no_abort (p : RansacParameters) (priors : Priors)
    (cs : list Correspondence) (lfp : double) (st : loop_state) :
  1 <= size cs <= INT_MAX -> loop_invariant p cs st ->
  no_abort (Estimate_iteration priors cs lfp st).
Proof.
  intros Hn (_ & _ & Hone & Hsz & _). unfold Estimate_iteration.
  apply no_abort_bind; [apply Sample_no_abort|]. intros [sample self] _.
  destruct (EstimateSimilarityTransformation _ _) as [[] hyps]; cbn [negb]; [|exact I].
  apply no_abort_bind; [apply UpdateBestSolution_no_abort|].
  intros [[r b] l] HU.
  apply no_abort_bind; [|intros ? _; exact I].
  apply ComputeMaxIterations_no_abort.
  eapply returned_ratio_positive; eauto.
Qed.

Lemma Estimate_loop_no_abort (p : RansacParameters) (priors : Priors)
    (cs : list Correspondence) (lfp : double) :
  1 <= size cs <= INT_MAX ->
  forall (fuel : nat) (st : loop_state),
  loop_invariant p cs st ->
  Estimate_loop fuel priors cs lfp st <> Fatal.
Proof.
  intros Hn. induction fuel as [|fuel IH]; intros st Hinv; cbn [Estimate_loop];
    destruct (_ <? _); try discriminate.
  pose proof (Estimate_iteration_no_abort p priors cs lfp st Hn Hinv) as Hna.
  destruct (Estimate_iteration priors cs lfp st) as [st'| | |] eqn:Hstep; cbn;
    try discriminate; try contradiction.
  apply IH. eapply loop_invariant_step; eauto.
Qed.

(** C10. Within an [Estimate] run on at least [kMinimalSampleSize]
    correspondences the check [inlier_ratio > 0] of [ComputeMaxIterations]
    cannot fail: the call never aborts, and in every state the loop reaches,
    whatever [UpdateBestSolution] returns is at least machine epsilon, so
    that [ComputeMaxIterations] does not abort on it. *)
Theorem ComputeMaxIterations_check_never_fires (self : Estimator)
    (priors : Priors) (cs : list Correspondence) (summary : RansacSummary) :
  kMinimalSampleSize <= size cs <= INT_MAX ->
  Estimate self priors cs (Some summary) <> Fatal /\
  forall indices st sample self' hyps r b l lfp,
    iota (length cs) = Ok indices ->
    loop_reaches priors cs (libm_log (failure_probability (params_ self)))
      (Estimate_init self indices summary) st ->
    Sample (ls_self st) cs = Ok (sample, self') ->
    UpdateBestSolution self' cs hyps (ls_best_solution st)
      (inliers (ls_summary st)) = Ok (r, b, l) ->
    (epsilon <=? r)%float = true /\ (0 <? r)%float = true /\
    ComputeMaxIterations self' r lfp <> Fatal.
Proof.
  intros Hn. assert (Hn' : 1 <= size cs <= INT_MAX)
    by (unfold kMinimalSampleSize in Hn; lia).
  split.
  - unfold Estimate.
    replace (kMinimalSampleSize <=? size cs) with true
      by (symmetry; apply Z.leb_le; lia).
    cbn [CHECK mbind outcome_bind].
    destruct (iota (length cs)) as [indices| | |] eqn:Hiota; cbn; try discriminate.
    + pose proof (Estimate_loop_no_abort (params_ self) priors cs
                    (libm_log (failure_probability (params_ self))) Hn'
                    (loop_budget (params_ self)) _
                    (loop_invariant_init self cs indices summary Hiota)) as Hl.
      destruct (Estimate_loop _ _ _ _ _); cbn; try discriminate. congruence.
    + unfold iota in Hiota. destruct (_ <=? _); discriminate.
  - intros indices st sample self' hyps r b l lfp Hiota Hreach HS HU.
    pose proof (loop_reaches_invariant _ _ _ _ _ _
                  (loop_invariant_init self cs indices summary Hiota) Hreach)
      as (_ & _ & Hone & Hsz & _).
    destruct (returned_ratio_positive _ _ _ _ _ _ _ _ Hn' Hone Hsz HU) as [H1 H2].
    split; [exact H1|]. split; [exact H2|].
    apply no_abort_Fatal, ComputeMaxIterations_no_abort, H2.
Qed.


(** ** Construction *)

(** The constraints the constructor checks. *)
Definition valid_parameters (p : RansacParameters) : Prop :=
  (0 <? failure_probability p)%float = true /\
  (failure_probability p <? 1)%float = true /\
  (0 <? reprojection_error_thresh p)%float = true /\
  0 <= min_iterations p /\
  min_iterations p < max_iterations p.

(** C8. Construction succeeds exactly when [0 < failure_probability < 1],
    [reprojection_error_thresh > 0], [min_iterations >= 0] and
    [max_iterations > min_iterations]; it then yields an estimator that holds
    the parameters, a generator seeded with [seed] and an empty index array,
    and otherwise it aborts. *)
Theorem Build_succeeds_iff_valid (p : RansacParameters) :
  (valid_parameters p ->
   Build p = Ok {| params_ := p; prng_ := prng_seed (seed p);
                   correspondence_indices_ := [] |}) /\
  (~ valid_parameters p -> Build p = Fatal).
Proof.
  unfold valid_parameters, Build. cbn [params_].
  destruct (0 <? failure_probability p)%float; cbn [CHECK mbind outcome_bind];
    [|split; [intros (? & _); discriminate|reflexivity]].
  destruct (failure_probability p <? 1)%float; cbn [CHECK mbind outcome_bind];
    [|split; [intros (_ & ? & _); discriminate|reflexivity]].
  destruct (0 <? reprojection_error_thresh p)%float; cbn [CHECK mbind outcome_bind];
    [|split; [intros (_ & _ & ? & _); discriminate|reflexivity]].
  destruct (Z.leb_spec 0 (min_iterations p)); cbn [CHECK mbind outcome_bind];
    [|split; [intros (_ & _ & _ & ? & _); lia|reflexivity]].
  destruct (Z.ltb_spec (min_iterations p) (max_iterations p));
    cbn [CHECK mbind outcome_bind];
    [|split; [intros (_ & _ & _ & _ & ?); lia|reflexivity]].
  split; [reflexivity|]. intros Hn. exfalso. apply Hn. auto.
Qed.

(** ** Sampling *)

(** C6. On at least [kMinimalSampleSize] correspondences, and with the index
    array a permutation of the indices (as the reset of [Estimate] leaves it
    and as every call of [Sample] leaves it again), [Sample] returns exactly
    [kMinimalSampleSize] correspondences, those at [kMinimalSampleSize]
    distinct indices, whatever the state of the random generator. *)
Theorem Sample_draws_distinct (cs : list Correspondence) (self : Estimator) :
  uniform_int_in_range ->
  kMinimalSampleSize <= size cs <= INT_MAX ->
  is_index_permutation (length cs) (correspondence_indices_ self) ->
  exists sample self' drawn,
    Sample self cs = Ok (sample, self') /\
    size sample = kMinimalSampleSize /\
    size drawn = kMinimalSampleSize /\
    NoDup drawn /\
    Forall2 (drawn_at cs) sample drawn /\
    is_index_permutation (length cs) (correspondence_indices_ self').
Proof.
  intros Hrng Hn Hperm.
  destruct (Sample_spec cs self Hrng Hn Hperm) as (sample & self' & HS & _ & Hp & Hd).
  exists sample, self', (take 4 (correspondence_indices_ self')).
  pose proof (index_permutation_length _ _ Hp) as Hlen.
  assert (Hl : length (take 4 (correspondence_indices_ self')) = 4%nat).
  { apply length_take_le. unfold kMinimalSampleSize, size in *. lia. }
  split; [exact HS|]. split; [|split; [|split; [|split]]].
  - unfold size. rewrite (Forall2_length _ _ _ Hd), Hl. reflexivity.
  - unfold size. rewrite Hl. reflexivity.
  - eapply sublist_NoDup; [|apply sublist_take].
    eapply index_permutation_NoDup; eauto.
  - exact Hd.
  - exact Hp.
Qed.

(** C9. The index array of the sampler is a permutation of
    [0, num_correspondences) in every state the loop of [Estimate] reaches:
    the reset establishes it and every call of [Sample] keeps it. *)
Theorem indices_stay_a_permutation (self : Estimator) (priors : Priors)
    (cs : list Correspondence) (summary : RansacSummary) (lfp : double)
    (indices : list Z) (st : loop_state) :
  iota (length cs) = Ok indices ->
  loop_reaches priors cs lfp (Estimate_init self indices summary) st ->
  is_index_permutation (length cs) indices /\
  is_index_permutation (length cs) (correspondence_indices_ (ls_self st)) /\
  forall sample self',
    Sample (ls_self st) cs = Ok (sample, self') ->
    is_index_permutation (length cs) (correspondence_indices_ self').
Proof.
  intros Hiota Hreach.
  pose proof (loop_invariant_init self cs indices summary Hiota) as Hinit.
  pose proof (loop_reaches_invariant _ _ _ _ _ _ Hinit Hreach) as (_ & Hp & _).
  split; [apply Hinit|]. split; [exact Hp|].
  intros sample self' HS. apply Sample_permutes in HS as [HS _].
  unfold is_index_permutation in *. rewrite HS. exact Hp.
Qed.

(** ** What a run that returns went through *)

Lemma Estimate_inv (self self' : Estimator) (priors : Priors)
    (cs : list Correspondence) (summary out : RansacSummary) (sol : Solution) :
  Estimate self priors cs (Some summary) = Ok (sol, out, self') ->
  exists indices st,
    kMinimalSampleSize <= size cs /\
    iota (length cs) = Ok indices /\
    loop_reaches priors cs (libm_log (failure_probability (params_ self)))
      (Estimate_init self indices summary) st /\
    ls_max_iterations st <= num_iterations (ls_summary st) /\
    sol = ls_best_solution st /\ self' = ls_self st /\
    out = {| inliers := inliers (ls_summary st);
             num_iterations := num_iterations (ls_summary st);
             num_hypotheses := num_hypotheses (ls_summary st);
             confidence := final_confidence (ls_inlier_ratio st)
                             (num_iterations (ls_summary st)) |}.
Proof.
  unfold Estimate. intros H.
  apply bind_Ok in H as (u & Hc & H). apply CHECK_Ok, Z.leb_le in Hc.
  apply bind_Ok in H as (indices & Hiota & H).
  apply bind_Ok in H as (st & Hloop & H). injection H as <- <- <-.
  apply Estimate_loop_reaches in Hloop as [Hr Hend].
  exists indices, st. auto 10.
Qed.


(** ** Runs without inliers *)

(** No correspondence is an inlier of any hypothesis. *)
Definition no_inliers (thr : double) (cs : list Correspondence) : Prop :=
  forall rotation translation scale c,
    c ∈ cs -> is_inlier thr rotation translation scale c = false.

Lemma score_no_inliers (thr : double) (cs : list Correspondence)
    rotation translation scale (l : list Z) :
  no_inliers thr cs ->
  score cs thr rotation translation scale = Ok l -> l = [].
Proof.
  intros Hno Hsc.
  assert (Hn : size cs <= INT_MAX).
  { unfold score in Hsc. destruct (Z.leb_spec (size cs) INT_MAX); [assumption|discriminate]. }
  destruct (score_spec cs thr rotation translation scale Hn) as (l' & Hl' & Hmem & _).
  assert (l' = l) as -> by congruence.
  apply elem_of_nil_inv. intros j Hj. apply Hmem in Hj as (c & _ & Hc & Hin).
  rewrite Hno in Hin; [discriminate|]. apply list_elem_of_lookup. eauto.
Qed.

(** With no inlier so far the nudged ratio is machine epsilon itself. *)
Lemma size_ratio_zero_nudged (n : Z) : 1 <= n <= INT_MAX ->
  (size_ratio 0 n + epsilon)%float = epsilon.
Proof.
  intros Hn. pose proof INT_MAX_lt_pow53.
  apply Prim2SF_inj. rewrite add_spec. unfold size_ratio. rewrite div_spec.
  unfold double_of_size_t.
  replace (Prim2SF (PrimFloat.of_uint63 (Uint63.of_Z 0))) with (S754_zero false)
    by (vm_compute; reflexivity).
  destruct (of_uint63_exact n ltac:(lia)) as [Hf E]. unfold finite_double, F2R in *.
  destruct (Prim2SF (PrimFloat.of_uint63 (Uint63.of_Z n))) as [s|s| |s m e];
    try discriminate.
  - cbn [SF2R] in E. assert (0 < IZR n)%R by (apply IZR_lt; lia). lra.
  - replace (Prim2SF epsilon) with (S754_finite false 4503599627370496 (-104))
      by (vm_compute; reflexivity).
    reflexivity.
Qed.

Lemma ComputeMaxIterations_params (self self' : Estimator) (r lfp : double) :
  params_ self' = params_ self ->
  ComputeMaxIterations self' r lfp = ComputeMaxIterations self r lfp.
Proof. intros H. unfold ComputeMaxIterations. rewrite H. reflexivity. Qed.

(** The state of a run in which nothing has been an inlier. *)
Definition fallback_state (st : loop_state) : Prop :=
  ls_best_solution st = identity_solution /\ inliers (ls_summary st) = [].

Lemma fallback_state_step (priors : Priors) (cs : list Correspondence)
    (lfp : double) (st st' : loop_state) :
  no_inliers
    (reprojection_error_thresh (params_ (ls_self st))
       * reprojection_error_thresh (params_ (ls_self st)))%float cs ->
  fallback_state st ->
  Estimate_iteration priors cs lfp st = Ok st' ->
  fallback_state st' /\
  (ls_inlier_ratio st' = ls_inlier_ratio st \/
   ls_inlier_ratio st' = (size_ratio 0 (size cs) + epsilon)%float).
Proof.
  intros Hno [Hb Hl] Hstep.
  apply Estimate_iteration_inv in Hstep as (sample & ok & HS & _ & _ & _ & Hcase).
  apply Sample_permutes in HS as [_ Hp]. destruct ok.
  - destruct Hcase as (HU & _). rewrite Hb, Hl in HU.
    apply UpdateBestSolution_inv in HU
      as [(H1 & H2 & H3)|(Hlt & _ & rot & tr & sc & Hsc & _)];
      [|rewrite Hp in Hsc; apply (score_no_inliers _ _ _ _ _ _ Hno) in Hsc;
        rewrite Hsc in Hlt; unfold size in Hlt; cbn in Hlt; lia
       |eexists _, _, _; reflexivity].
    split; [split; assumption|]. right. exact H3.
  - destruct Hcase as (H1 & _ & _ & H4 & H5).
    split; [split; congruence|]. left. exact H5.
Qed.


(** Whenever the solver produces hypotheses, they are well formed and the
    bound recomputed for the ratio epsilon is [max_iterations] again. *)
Definition keeps_bound (self : Estimator) : Prop :=
  forall input h,
    fst (EstimateSimilarityTransformation input h) = true ->
    well_formed (snd (EstimateSimilarityTransformation input h)) /\
    size (rotations (snd (EstimateSimilarityTransformation input h))) <= INT_MAX /\
    ComputeMaxIterations self epsilon
      (libm_log (failure_probability (params_ self)))
    = Ok (max_iterations (params_ self)).

Lemma zero_inlier_iteration (self : Estimator) (priors : Priors)
    (cs : list Correspondence) (st : loop_state) :
  let lfp := libm_log (failure_probability (params_ self)) in
  let thr := (reprojection_error_thresh (params_ self)
                * reprojection_error_thresh (params_ self))%float in
  uniform_int_in_range -> kMinimalSampleSize <= size cs <= INT_MAX ->
  no_inliers thr cs -> keeps_bound self ->
  loop_invariant (params_ self) cs st -> fallback_state st ->
  ls_max_iterations st = max_iterations (params_ self) ->
  exists st', Estimate_iteration priors cs lfp st = Ok st' /\
    ls_max_iterations st' = max_iterations (params_ self).
Proof.
  intros lfp thr Hrng Hn Hno Hkeep (Hp & Hperm & _) [Hb Hl] Hmax.
  unfold Estimate_iteration.
  destruct (Sample_spec cs (ls_self st) Hrng Hn Hperm) as (sample & s' & HS & Hp' & _).
  rewrite HS. cbn [mbind outcome_bind].
  specialize (Hkeep (set_priors (ComputeInputDatum sample) priors) (ls_hypotheses st)).
  destruct (EstimateSimilarityTransformation _ _) as [[] hyps]; cbn [fst snd negb] in *.
  - destruct (Hkeep eq_refl) as (Hwf & Hsz & HC).
    destruct (UpdateBestSolution_spec s' cs hyps (ls_best_solution st)
                (inliers (ls_summary st)) ltac:(lia) Hsz Hwf)
      as ([[r b] l] & HU & _ & _ & Hcase).
    { rewrite Hb. eexists _, _, _. reflexivity. }
    rewrite HU. cbn [mbind outcome_bind].
    assert (r = epsilon) as ->.
    { destruct Hcase as [(_ & _ & ->)|(Hlt & _ & i & _ & Hi & _)].
      - rewrite Hl. change (size []) with 0.
        apply size_ratio_zero_nudged. unfold kMinimalSampleSize in Hn. lia.
      - exfalso. destruct Hi as (rot & tr & sc & _ & _ & _ & _ & Hsc & _).
        rewrite Hp', Hp in Hsc. apply (score_no_inliers _ _ _ _ _ _ Hno) in Hsc.
        rewrite Hsc, Hl in Hlt. unfold size in Hlt. cbn in Hlt. lia. }
    rewrite (ComputeMaxIterations_params self s') by congruence.
    fold lfp in HC. rewrite HC. cbn [mbind outcome_bind].
    eexists. split; [reflexivity|]. reflexivity.
  - eexists. split; [reflexivity|]. exact Hmax.
Qed.

Lemma zero_inlier_loop (self : Estimator) (priors : Priors)
    (cs : list Correspondence) :
  let lfp := libm_log (failure_probability (params_ self)) in
  let thr := (reprojection_error_thresh (params_ self)
                * reprojection_error_thresh (params_ self))%float in
  uniform_int_in_range -> kMinimalSampleSize <= size cs <= INT_MAX ->
  no_inliers thr cs -> keeps_bound self ->
  forall (fuel : nat) (st : loop_state),
  loop_invariant (params_ self) cs st -> fallback_state st ->
  ls_max_iterations st = max_iterations (params_ self) ->
  num_iterations (ls_summary st) <= max_iterations (params_ self) ->
  max_iterations (params_ self) - num_iterations (ls_summary st) <= Z.of_nat fuel ->
  exists st', Estimate_loop fuel priors cs lfp st = Ok st' /\
    fallback_state st' /\
    num_iterations (ls_summary st') = max_iterations (params_ self).
Proof.
  intros lfp thr Hrng Hn Hno Hkeep.
  induction fuel as [|fuel IH]; intros st Hinv Hfb Hmax Hle Hfuel;
    cbn [Estimate_loop]; rewrite Hmax;
    destruct (Z.ltb_spec (num_iterations (ls_summary st))
                (max_iterations (params_ self))) as [Hc|Hc].
  - lia.
  - exists st. split; [reflexivity|]. split; [exact Hfb|lia].
  - destruct (zero_inlier_iteration self priors cs st Hrng Hn Hno Hkeep Hinv Hfb Hmax)
      as (st' & Hstep & Hmax').
    fold lfp in Hstep. rewrite Hstep. cbn [mbind outcome_bind].
    pose proof (loop_invariant_step _ _ _ _ _ _ Hinv Hstep) as Hinv'.
    assert (Hno' : no_inliers
      (reprojection_error_thresh (params_ (ls_self st))
         * reprojection_error_thresh (params_ (ls_self st)))%float cs).
    { destruct Hinv as (-> & _). exact Hno. }
    destruct (fallback_state_step _ _ _ _ _ Hno' Hfb Hstep) as [Hfb' _].
    pose proof (Estimate_iteration_inv _ _ _ _ _ Hstep) as (_ & _ & _ & _ & Hnum & _).
    apply (IH st' Hinv' Hfb' Hmax'); lia.
  - exists st. split; [reflexivity|]. split; [exact Hfb|lia].
Qed.


Lemma fallback_state_reaches (self : Estimator) (priors : Priors)
    (cs : list Correspondence) (lfp : double) (st st' : loop_state) :
  no_inliers
    (reprojection_error_thresh (params_ self)
       * reprojection_error_thresh (params_ self))%float cs ->
  params_ (ls_self st) = params_ self -> fallback_state st ->
  loop_reaches priors cs lfp st st' ->
  params_ (ls_self st') = params_ self /\ fallback_state st'.
Proof.
  intros Hno Hp Hfb Hr. induction Hr as [|u u' _ [IHp IHf] _ Hstep]; [auto|].
  split.
  - apply Estimate_iteration_inv in Hstep as (? & ? & HS & _).
    apply Sample_permutes in HS as [_ HS]. congruence.
  - eapply fallback_state_step; [|exact IHf|exact Hstep]. rewrite IHp. exact Hno.
Qed.

(** C5, as the code has it. If no correspondence is an inlier of any
    hypothesis, a run that returns gives the identity fallback solution and
    an empty inlier set; and the run does return, after exactly
    [max_iterations] iterations, when no sample yields a hypothesis or, more
    generally, when the bound recomputed for the ratio epsilon is
    [max_iterations] again. *)
Theorem no_inlier_run_returns_fallback (self : Estimator) (priors : Priors)
    (cs : list Correspondence) (summary : RansacSummary) :
  no_inliers
    (reprojection_error_thresh (params_ self)
       * reprojection_error_thresh (params_ self))%float cs ->
  (forall sol out self',
     Estimate self priors cs (Some summary) = Ok (sol, out, self') ->
     sol = identity_solution /\ inliers out = []) /\
  (uniform_int_in_range -> kMinimalSampleSize <= size cs <= INT_MAX ->
   0 <= max_iterations (params_ self) -> keeps_bound self ->
   exists out self',
     Estimate self priors cs (Some summary) = Ok (identity_solution, out, self') /\
     inliers out = [] /\
     num_iterations out = max_iterations (params_ self)).
Proof.
  intros Hno. split.
  - intros sol out self' H.
    apply Estimate_inv in H as (indices & st & _ & _ & Hr & _ & -> & _ & ->).
    apply (fallback_state_reaches self) in Hr as [_ [Hb Hl]];
      [auto|exact Hno|reflexivity|split; reflexivity].
  - intros Hrng Hn Hmax Hkeep. unfold Estimate.
    replace (kMinimalSampleSize <=? size cs) with true
      by (symmetry; apply Z.leb_le; lia).
    cbn [CHECK mbind outcome_bind].
    assert (Hiota : iota (length cs) = Ok (map Z.of_nat (seq 0 (length cs)))).
    { unfold iota. replace (Z.of_nat (length cs) <=? INT_MAX + 1) with true;
        [reflexivity|]. symmetry. apply Z.leb_le. unfold size in Hn. lia. }
    rewrite Hiota. cbn [mbind outcome_bind].
    destruct (zero_inlier_loop self priors cs Hrng Hn Hno Hkeep
                (loop_budget (params_ self))
                (Estimate_init self _ summary)
                (loop_invariant_init self cs _ summary Hiota))
      as (st & Hloop & [Hb Hl] & Hnum).
    + split; reflexivity.
    + reflexivity.
    + exact Hmax.
    + unfold loop_budget. cbn. lia.
    + rewrite Hloop. cbn [mbind outcome_bind]. rewrite Hb.
      eexists _, _. split; [reflexivity|]. cbn. auto.
Qed.


(** ** The final confidence *)

(** What the proof of the confidence bound takes from libm: [pow] maps the
    unit interval to itself for the integral exponents of an [int], is at
    least [1] (and finite) on [1, 2] for the exponent [kMinimalSampleSize],
    and [log] of a negative number is a NaN. *)
Definition libm_conforms : Prop :=
  (forall x n, 0 <= n <= INT_MAX ->
     (0 <=? x)%float = true -> (x <=? 1)%float = true ->
     (0 <=? libm_pow x (double_of_int n))%float = true /\
     (libm_pow x (double_of_int n) <=? 1)%float = true) /\
  (forall x, (1 <=? x)%float = true -> (x <=? 2)%float = true ->
     (1 <=? libm_pow x (double_of_int kMinimalSampleSize))%float = true /\
     (libm_pow x (double_of_int kMinimalSampleSize) <=? 16)%float = true) /\
  (forall x, (x <? 0)%float = true -> Prim2SF (libm_log x) = S754_nan).

Lemma finite_two : finite_double 2%float.
Proof. reflexivity. Qed.
Lemma finite_sixteen : finite_double 16%float.
Proof. reflexivity. Qed.
Lemma F2R_two : F2R 2%float = 2%R.
Proof.
  unfold F2R. replace (Prim2SF 2%float) with (S754_finite false (Z.to_pos (2 ^ 52)) (-51))
    by (vm_compute; reflexivity).
  cbn [SF2R]. change (Z.pos (Z.to_pos (2 ^ 52))) with (2 ^ 52).
  rewrite IZR_pow2_bpow by lia. apply bpow_1.
Qed.
Lemma F2R_sixteen : F2R 16%float = 16%R.
Proof.
  unfold F2R. replace (Prim2SF 16%float) with (S754_finite false (Z.to_pos (2 ^ 52)) (-48))
    by (vm_compute; reflexivity).
  cbn [SF2R]. change (Z.pos (Z.to_pos (2 ^ 52))) with (2 ^ 52).
  rewrite IZR_pow2_bpow by lia. rewrite bpow_IZR by lia. reflexivity.
Qed.

Lemma leb_unit (x : double) :
  (0 <=? x)%float = true -> (x <=? 1)%float = true ->
  finite_double x /\ (0 <= F2R x <= 1)%R.
Proof.
  intros H0 H1. pose proof (leb_finite 0 x 1 finite_zero finite_one H0 H1) as Hf.
  split; [exact Hf|].
  apply leb_correct in H0; [|apply finite_zero|exact Hf].
  apply leb_correct in H1; [|exact Hf|apply finite_one].
  rewrite F2R_zero in H0. rewrite F2R_one in H1. lra.
Qed.

Lemma unit_leb (x : double) :
  finite_double x -> (0 <= F2R x <= 1)%R ->
  (0 <=? x)%float = true /\ (x <=? 1)%float = true.
Proof.
  intros Hf Hx. split.
  - apply leb_correct; [apply finite_zero|exact Hf|]. rewrite F2R_zero. lra.
  - apply leb_correct; [exact Hf|apply finite_one|]. rewrite F2R_one. lra.
Qed.

Lemma one_minus_unit (a : double) :
  (0 <=? a)%float = true -> (a <=? 1)%float = true ->
  (0 <=? 1 - a)%float = true /\ (1 - a <=? 1)%float = true.
Proof.
  intros H0 H1. destruct (leb_unit a H0 H1) as [Hf Ha].
  destruct (sub_unit a Hf Ha) as [Hf' Hb]. apply unit_leb; assumption.
Qed.

(** [1 - pow(r, kMinimalSampleSize)] is in the unit interval. *)
Definition unit_base (r : double) : Prop :=
  (0 <=? 1 - libm_pow r (double_of_int kMinimalSampleSize))%float = true /\
  (1 - libm_pow r (double_of_int kMinimalSampleSize) <=? 1)%float = true.

Lemma unit_base_of_unit (r : double) :
  libm_conforms -> (0 <=? r)%float = true -> (r <=? 1)%float = true ->
  unit_base r.
Proof.
  intros (Hpow & _) H0 H1.
  destruct (Hpow r kMinimalSampleSize ltac:(unfold kMinimalSampleSize, INT_MAX; lia) H0 H1).
  apply one_minus_unit; assumption.
Qed.

Lemma Prim2SF_sub_nan (x y : double) :
  Prim2SF x = S754_nan -> Prim2SF (x - y) = S754_nan.
Proof. intros H. rewrite sub_spec, H. reflexivity. Qed.

Lemma Prim2SF_div_nan (x y : double) :
  Prim2SF y = S754_nan -> Prim2SF (x / y) = S754_nan.
Proof. intros H. rewrite div_spec, H. destruct (Prim2SF x); reflexivity. Qed.

Lemma static_cast_int_nan (x : double) :
  Prim2SF x = S754_nan -> static_cast_int x = Undefined.
Proof. intros H. unfold static_cast_int, truncate. rewrite H. reflexivity. Qed.

(** When the ratio exceeds [1] (all correspondences are inliers and the ratio
    was nudged), [ComputeMaxIterations] only returns if [pow] gave exactly
    [1]: otherwise it takes the logarithm of a negative number. *)
Lemma unit_base_above_one (self : Estimator) (r lfp : double) (v : Z) :
  libm_conforms -> finite_double r -> (1 < F2R r <= 2)%R ->
  ComputeMaxIterations self r lfp = Ok v -> unit_base r.
Proof.
  intros (_ & Hpow & Hlog) Hf Hr HC.
  assert (H1 : (1 <=? r)%float = true).
  { apply leb_correct; [apply finite_one|exact Hf|]. rewrite F2R_one. lra. }
  assert (H2 : (r <=? 2)%float = true).
  { apply leb_correct; [exact Hf|apply finite_two|]. rewrite F2R_two. lra. }
  destruct (Hpow r H1 H2) as [Ha1 Ha2].
  set (a := libm_pow r (double_of_int kMinimalSampleSize)) in *.
  pose proof (leb_finite 1 a 16 finite_one finite_sixteen Ha1 Ha2) as Hfa.
  apply leb_correct in Ha1; [|apply finite_one|exact Hfa].
  apply leb_correct in Ha2; [|exact Hfa|apply finite_sixteen].
  rewrite F2R_one in Ha1. rewrite F2R_sixteen in Ha2.
  destruct (sub_from_one_nonpos a Hfa ltac:(lra)) as [Hfb Hb].
  unfold unit_base. fold a.
  destruct (Rle_lt_or_eq_dec _ _ Hb) as [Hneg|Hzero].
  - exfalso. unfold ComputeMaxIterations in HC.
    apply bind_Ok in HC as (u & _ & HC).
    assert (Hne : (r =? 1)%float = false).
    { destruct (r =? 1)%float eqn:E; [|reflexivity].
      apply eqb_correct in E; [|exact Hf|apply finite_one]. rewrite F2R_one in E. lra. }
    rewrite Hne in HC. fold a in HC.
    assert (Hlt : (1 - a <? 0)%float = true).
    { apply ltb_correct; [exact Hfb|apply finite_zero|]. rewrite F2R_zero. exact Hneg. }
    apply Hlog in Hlt.
    rewrite (static_cast_int_nan _ (Prim2SF_div_nan _ _ (Prim2SF_sub_nan _ epsilon Hlt))) in HC.
    discriminate.
  - apply unit_leb; [exact Hfb|]. lra.
Qed.


Lemma unit_base_returned (self : Estimator) (cs : list Correspondence)
    (est b0 b : Solution) (l0 l : list Z) (r lfp : double) (v : Z) :
  libm_conforms -> 1 <= size cs <= INT_MAX ->
  holds_one_hypothesis b0 -> size l0 <= size cs ->
  UpdateBestSolution self cs est b0 l0 = Ok (r, b, l) ->
  ComputeMaxIterations self r lfp = Ok v -> unit_base r.
Proof.
  intros Hlibm Hn Hb0 Hl0 HU HC.
  assert (0 <= size l0) by (unfold size; lia).
  destruct (UpdateBestSolution_inv _ _ _ _ _ _ _ _ Hb0 HU)
    as [(_ & _ & ->)|(Hlt & -> & rot & tr & sc & Hsc & _)].
  - destruct (size_ratio_unit (size l0) (size cs) ltac:(lia) Hn) as [Hf Hq].
    destruct (add_epsilon_correct _ Hf Hq) as (Hf' & Hgt & [Hlo Hhi] & Hle).
    pose proof (bpow_gt_0 (-52)) as Hb.
    pose proof (bpow_lt (-52) 0 ltac:(lia)) as Hb1. rewrite bpow_0 in Hb1.
    destruct (Z.eq_dec (size l0) (size cs)) as [E|E].
    + rewrite E in *.
      eapply unit_base_above_one; [exact Hlibm|exact Hf'| |exact HC].
      rewrite (ratio_one (size cs)) in Hgt
        by (pose proof INT_MAX_lt_pow53; lia).
      lra.
    + pose proof (ratio_below_one (size l0) (size cs) ltac:(lia)
                    ltac:(unfold INT_MAX in Hn; lia)) as Hlow.
      specialize (Hle Hlow).
      apply unit_base_of_unit; [exact Hlibm| |];
        apply unit_leb; auto; lra.
  - pose proof (score_size_le _ _ _ _ _ _ (proj2 Hn) Hsc).
    destruct (size_ratio_unit (size l) (size cs) ltac:(lia) Hn) as [Hf Hq].
    apply unit_base_of_unit; [exact Hlibm| |]; apply unit_leb; auto.
Qed.

Lemma unit_base_reaches (p : RansacParameters) (priors : Priors)
    (cs : list Correspondence) (lfp : double) (st st' : loop_state) :
  libm_conforms -> 1 <= size cs <= INT_MAX ->
  loop_invariant p cs st -> unit_base (ls_inlier_ratio st) ->
  num_iterations (ls_summary st)
    <= Z.max 0 (Z.max (min_iterations p) (max_iterations p)) ->
  loop_reaches priors cs lfp st st' ->
  unit_base (ls_inlier_ratio st') /\
  num_iterations (ls_summary st')
    <= Z.max 0 (Z.max (min_iterations p) (max_iterations p)).
Proof.
  intros Hlibm Hn Hinv Hub Hnum Hr.
  induction Hr as [|u u' Hr [IHu IHn] Hc Hstep]; [auto|].
  pose proof (loop_reaches_invariant _ _ _ _ _ _ Hinv Hr)
    as (_ & _ & Hone & Hsz & _ & Hmax).
  apply Estimate_iteration_inv in Hstep as (sample & ok & _ & _ & Hnum' & _ & Hcase).
  split; [|lia]. destruct ok.
  - destruct Hcase as (HU & HC & _).
    eapply unit_base_returned; eauto.
  - destruct Hcase as (_ & _ & _ & _ & ->). exact IHu.
Qed.

(** C2, as the code has it. The final confidence of a run that returns lies
    in the closed interval [0, 1]: the bound [1] is not excluded. *)
Theorem final_confidence_in_unit_interval (self self' : Estimator)
    (priors : Priors) (cs : list Correspondence)
    (summary out : RansacSummary) (sol : Solution) :
  libm_conforms ->
  size cs <= INT_MAX ->
  min_iterations (params_ self) <= INT_MAX ->
  max_iterations (params_ self) <= INT_MAX ->
  Estimate self priors cs (Some summary) = Ok (sol, out, self') ->
  (0 <=? confidence out)%float = true /\ (confidence out <=? 1)%float = true.
Proof.
  intros Hlibm Hn Hmin Hmax H.
  apply Estimate_inv in H as (indices & st & Hk & Hiota & Hr & _ & _ & _ & ->).
  cbn [confidence].
  assert (Hn' : 1 <= size cs <= INT_MAX) by (unfold kMinimalSampleSize in Hk; lia).
  pose proof (loop_invariant_init self cs indices summary Hiota) as Hinit.
  pose proof (loop_reaches_invariant _ _ _ _ _ _ Hinit Hr) as (_ & _ & _ & _ & Hnn & _).
  assert (Hub : unit_base (ls_inlier_ratio (Estimate_init self indices summary))).
  { apply unit_base_of_unit; [exact Hlibm|reflexivity|reflexivity]. }
  assert (Hn0 : num_iterations (ls_summary (Estimate_init self indices summary))
                <= Z.max 0 (Z.max (min_iterations (params_ self))
                                  (max_iterations (params_ self)))).
  { cbn. lia. }
  destruct (unit_base_reaches _ _ _ _ _ _ Hlibm Hn' Hinit Hub Hn0 Hr)
    as [[Hb0 Hb1] Hnum].
  unfold final_confidence. destruct Hlibm as (Hpow & _).
  destruct (Hpow _ (num_iterations (ls_summary st)) ltac:(lia) Hb0 Hb1).
  apply one_minus_unit; assumption.
Qed.


(** ** What a run takes from the summary and the estimator it is given *)

(** Two outcomes of the same kind, with related results. *)
Definition outcome_rel {A : Type} (Q : A -> A -> Prop) (m1 m2 : outcome A) : Prop :=
  match m1, m2 with
  | Ok a, Ok b => Q a b
  | Fatal, Fatal | Undefined, Undefined | OutOfFuel, OutOfFuel => True
  | _, _ => False
  end.

(** Two loop states that differ at most in the confidence they carry and, by
    [d] modulo 2^32, in the hypothesis counter. *)
Definition same_but_counter (d : Z) (st1 st2 : loop_state) : Prop :=
  ls_self st1 = ls_self st2 /\
  inliers (ls_summary st1) = inliers (ls_summary st2) /\
  num_iterations (ls_summary st1) = num_iterations (ls_summary st2) /\
  ls_max_iterations st1 = ls_max_iterations st2 /\
  ls_hypotheses st1 = ls_hypotheses st2 /\
  ls_best_solution st1 = ls_best_solution st2 /\
  ls_inlier_ratio st1 = ls_inlier_ratio st2 /\
  wrap_int (num_hypotheses (ls_summary st1) + d)
    = wrap_int (num_hypotheses (ls_summary st2)) /\
  (d = 0 -> num_hypotheses (ls_summary st1) = num_hypotheses (ls_summary st2)).

Lemma wrap_int_add (a b c d : Z) :
  wrap_int (a + d) = wrap_int b ->
  wrap_int (wrap_int (a + c) + d) = wrap_int (wrap_int (b + c)).
Proof.
  unfold wrap_int. intros H.
  assert (E : (a + d + 2147483648) mod 4294967296 = (b + 2147483648) mod 4294967296) by lia.
  f_equal.
  replace ((a + c + 2147483648) mod 4294967296 - 2147483648 + d + 2147483648)
    with ((a + c + 2147483648) mod 4294967296 + d) by lia.
  replace ((b + c + 2147483648) mod 4294967296 - 2147483648 + 2147483648)
    with ((b + c + 2147483648) mod 4294967296) by lia.
  rewrite Zplus_mod_idemp_l, Z.mod_mod by lia.
  replace (a + c + 2147483648 + d) with ((a + d + 2147483648) + c) by lia.
  replace (b + c + 2147483648) with ((b + 2147483648) + c) by lia.
  rewrite <- (Zplus_mod_idemp_l (a + d + 2147483648)), E, Zplus_mod_idemp_l.
  reflexivity.
Qed.

Lemma Estimate_iteration_same (d : Z) (priors : Priors)
    (cs : list Correspondence) (lfp : double) (st1 st2 : loop_state) :
  same_but_counter d st1 st2 ->
  outcome_rel (same_but_counter d)
    (Estimate_iteration priors cs lfp st1) (Estimate_iteration priors cs lfp st2).
Proof.
  intros (H1 & H2 & H3 & H4 & H5 & H6 & H7 & H8 & H9).
  unfold Estimate_iteration. rewrite H1, H2, H5, H6.
  destruct (Sample (ls_self st2) cs) as [[sample self]| | |];
    cbn [mbind outcome_bind outcome_rel]; try exact I.
  destruct (EstimateSimilarityTransformation _ _) as [[] hyps]; cbn [negb].
  - destruct (UpdateBestSolution self cs hyps _ _) as [[[r b] l]| | |];
      cbn [mbind outcome_bind outcome_rel]; try exact I.
    destruct (ComputeMaxIterations self r lfp);
      cbn [mbind outcome_bind outcome_rel]; try exact I.
    unfold same_but_counter. cbn. rewrite H3.
    repeat split; auto using wrap_int_add.
    intros ->. rewrite (H9 eq_refl). reflexivity.
  - unfold same_but_counter. cbn. rewrite H3, H4, H7. repeat split; auto.
Qed.

Lemma Estimate_loop_same (d : Z) (priors : Priors)
    (cs : list Correspondence) (lfp : double) :
  forall (fuel : nat) (st1 st2 : loop_state),
  same_but_counter d st1 st2 ->
  outcome_rel (same_but_counter d)
    (Estimate_loop fuel priors cs lfp st1) (Estimate_loop fuel priors cs lfp st2).
Proof.
  induction fuel as [|fuel IH]; intros st1 st2 Hs; cbn [Estimate_loop];
    pose proof Hs as (_ & _ & H3 & H4 & _); rewrite H3, H4;
    destruct (_ <? _); cbn [outcome_rel]; auto.
  pose proof (Estimate_iteration_same d priors cs lfp st1 st2 Hs) as Hi.
  destruct (Estimate_iteration priors cs lfp st1),
           (Estimate_iteration priors cs lfp st2);
    cbn [outcome_rel mbind outcome_bind] in *; try contradiction; auto.
Qed.

(** The run summaries of two calls: equal but for the hypothesis counters,
    which differ by [d] modulo 2^32. *)
Definition summaries_agree (d : Z) (out1 out2 : RansacSummary) : Prop :=
  inliers out1 = inliers out2 /\
  num_iterations out1 = num_iterations out2 /\
  confidence out1 = confidence out2 /\
  wrap_int (num_hypotheses out1 + d) = wrap_int (num_hypotheses out2) /\
  (d = 0 -> num_hypotheses out1 = num_hypotheses out2).

Lemma Estimate_same (self1 self2 : Estimator) (priors : Priors)
    (cs : list Correspondence) (s1 s2 : RansacSummary) :
  params_ self1 = params_ self2 -> prng_ self1 = prng_ self2 ->
  outcome_rel
    (fun x y => fst (fst x) = fst (fst y) /\ snd x = snd y /\
                summaries_agree (num_hypotheses s2 - num_hypotheses s1)
                  (snd (fst x)) (snd (fst y)))
    (Estimate self1 priors cs (Some s1)) (Estimate self2 priors cs (Some s2)).
Proof.
  intros Hp Hg. unfold Estimate.
  destruct (kMinimalSampleSize <=? size cs); cbn [CHECK mbind outcome_bind outcome_rel];
    [|exact I].
  destruct (iota (length cs)) as [indices| | |];
    cbn [mbind outcome_bind outcome_rel]; try exact I.
  rewrite Hp.
  set (d := num_hypotheses s2 - num_hypotheses s1).
  assert (Hinit : same_but_counter d (Estimate_init self1 indices s1)
                    (Estimate_init self2 indices s2)).
  { unfold same_but_counter, Estimate_init. cbn. rewrite Hp, Hg.
    repeat split; auto; unfold d; [f_equal|]; lia. }
  pose proof (Estimate_loop_same d priors cs
                (libm_log (failure_probability (params_ self2)))
                (loop_budget (params_ self2)) _ _ Hinit) as Hl.
  destruct (Estimate_loop _ _ _ _ (Estimate_init self1 indices s1)),
           (Estimate_loop _ _ _ _ (Estimate_init self2 indices s2));
    cbn [outcome_rel mbind outcome_bind] in *; try contradiction; auto.
  destruct Hl as (H1 & H2 & H3 & H4 & H5 & H6 & H7 & H8 & H9).
  cbn [fst snd]. unfold summaries_agree. cbn.
  rewrite H3, H7. repeat split; auto.
Qed.


(** C3, as the code has it. The generator is seeded by the constructor only
    and the hypothesis counter of the summary is never reset, so what a call
    returns is a function of the correspondences, the priors, the parameters,
    the state of the generator on entry and the hypothesis count the summary
    holds on entry. Two calls that agree on these return the same solution,
    the same summary and leave the same estimator, whatever index array the
    estimators held and whatever else the summaries held. *)
Theorem Estimate_equal_state_equal_result (self1 self2 : Estimator)
    (priors : Priors) (cs : list Correspondence) (s1 s2 : RansacSummary) :
  params_ self1 = params_ self2 -> prng_ self1 = prng_ self2 ->
  num_hypotheses s1 = num_hypotheses s2 ->
  Estimate self1 priors cs (Some s1) = Estimate self2 priors cs (Some s2).
Proof.
  intros Hp Hg Hh.
  pose proof (Estimate_same self1 self2 priors cs s1 s2 Hp Hg) as H.
  destruct (Estimate self1 priors cs (Some s1)) as [[[sol1 out1] e1]| | |],
           (Estimate self2 priors cs (Some s2)) as [[[sol2 out2] e2]| | |];
    cbn [outcome_rel fst snd] in H; try contradiction; try reflexivity.
  destruct H as (-> & -> & H1 & H2 & H3 & _ & H5).
  specialize (H5 ltac:(lia)).
  destruct out1, out2; cbn in *; subst. reflexivity.
Qed.

(** X1. Of the summary a call is given, only the hypothesis count matters: a
    call given another summary returns the same solution, estimator, inliers,
    iteration count and confidence, and a hypothesis count shifted, modulo
    2^32, by the difference of the incoming counts. *)
Theorem Estimate_reads_only_the_hypothesis_count (self self' : Estimator)
    (priors : Priors) (cs : list Correspondence) (s1 s2 out1 : RansacSummary)
    (sol : Solution) :
  Estimate self priors cs (Some s1) = Ok (sol, out1, self') ->
  exists out2,
    Estimate self priors cs (Some s2) = Ok (sol, out2, self') /\
    inliers out2 = inliers out1 /\
    num_iterations out2 = num_iterations out1 /\
    confidence out2 = confidence out1 /\
    wrap_int (num_hypotheses out2)
      = wrap_int (num_hypotheses out1 + (num_hypotheses s2 - num_hypotheses s1)).
Proof.
  intros H1.
  pose proof (Estimate_same self self priors cs s1 s2 eq_refl eq_refl) as H.
  rewrite H1 in H.
  destruct (Estimate self priors cs (Some s2)) as [[[sol2 out2] e2]| | |] eqn:H2;
    cbn [outcome_rel fst snd] in H; try contradiction.
  destruct H as (-> & -> & Ha & Hb & Hc & Hd & _).
  exists out2. repeat split; auto.
Qed.


(** ** Further properties of [Estimate] *)

(** X2. A call is aborted by a [CHECK] exactly when it is given a null summary or
    fewer than [kMinimalSampleSize] correspondences. *)
Theorem Estimate_aborts_exactly_on_bad_arguments (self : Estimator)
    (priors : Priors) (cs : list Correspondence)
    (ransac_summary : option RansacSummary) :
  size cs <= INT_MAX ->
  Estimate self priors cs ransac_summary = Fatal <->
  ransac_summary = None \/ size cs < kMinimalSampleSize.
Proof.
  intros Hn. destruct ransac_summary as [summary|]; [|split; auto].
  split.
  - intros H. right.
    destruct (Z.lt_ge_cases (size cs) kMinimalSampleSize) as [Hlt|Hge]; [exact Hlt|].
    exfalso. revert H. unfold Estimate.
    replace (kMinimalSampleSize <=? size cs) with true
      by (symmetry; apply Z.leb_le; lia).
    cbn [CHECK mbind outcome_bind].
    destruct (iota (length cs)) as [indices| | |] eqn:Hiota; cbn; try discriminate.
    + pose proof (Estimate_loop_no_abort (params_ self) priors cs
                    (libm_log (failure_probability (params_ self)))
                    ltac:(unfold kMinimalSampleSize in Hge; lia)
                    (loop_budget (params_ self)) _
                    (loop_invariant_init self cs indices summary Hiota)) as Hl.
      destruct (Estimate_loop _ _ _ _ _); cbn; try discriminate. congruence.
    + unfold iota in Hiota. destruct (_ <=? _); discriminate.
  - intros [H|H]; [discriminate|]. unfold Estimate.
    replace (kMinimalSampleSize <=? size cs) with false
      by (symmetry; apply Z.leb_gt; lia).
    reflexivity.
Qed.

(** X3. The loop of a call makes at most [max (min_iterations, max_iterations)]
    iterations: the budget [loop_budget] of the model is never exhausted. *)
Theorem Estimate_loop_budget_suffices (self : Estimator) (priors : Priors)
    (cs : list Correspondence) (ransac_summary : option RansacSummary) :
  Estimate self priors cs ransac_summary <> OutOfFuel.
Proof.
  destruct ransac_summary as [summary|]; [|discriminate]. unfold Estimate.
  destruct (kMinimalSampleSize <=? size cs); cbn [CHECK mbind outcome_bind];
    [|discriminate].
  destruct (iota (length cs)) as [indices| | |] eqn:Hiota; cbn; try discriminate.
  - pose proof (Estimate_loop_fuel (params_ self) priors cs
                  (libm_log (failure_probability (params_ self)))
                  (loop_budget (params_ self)) _
                  (loop_invariant_init self cs indices summary Hiota)) as Hl.
    destruct (Estimate_loop _ _ _ _ _); cbn; try discriminate.
    intros _. apply Hl; [|reflexivity]. unfold loop_budget, Estimate_init. cbn. lia.
  - unfold iota in Hiota. destruct (_ <=? _); discriminate.
Qed.

(** The bound of the loop stays between [min_iterations] and
    [max_iterations], and the iteration counter below [max_iterations]. *)
Definition bound_in_range (p : RansacParameters) (st : loop_state) : Prop :=
  min_iterations p <= ls_max_iterations st <= max_iterations p /\
  num_iterations (ls_summary st) <= max_iterations p.

Lemma bound_in_range_reaches (p : RansacParameters) (priors : Priors)
    (cs : list Correspondence) (lfp : double) (st st' : loop_state) :
  min_iterations p <= max_iterations p ->
  loop_invariant p cs st -> bound_in_range p st ->
  loop_reaches priors cs lfp st st' -> bound_in_range p st'.
Proof.
  intros Hp Hinv Hb Hr. induction Hr as [|u u' Hr' IH Hc Hstep]; [exact Hb|].
  pose proof (loop_reaches_invariant _ _ _ _ _ _ Hinv Hr') as Hu.
  pose proof (loop_invariant_step _ _ _ _ _ _ Hu Hstep) as (Hp' & _).
  destruct IH as [Hrange Hnum].
  apply Estimate_iteration_inv in Hstep as (sample & ok & _ & _ & Hn & _ & Hcase).
  unfold bound_in_range. rewrite Hn. split; [|lia].
  destruct ok.
  - destruct Hcase as (_ & HC & _).
    apply ComputeMaxIterations_Ok in HC as (_ & _ & HC). rewrite Hp' in HC. auto.
  - destruct Hcase as (_ & _ & -> & _). exact Hrange.
Qed.

(** X4. A call on an estimator the constructor built, when it returns, has made
    at least [min_iterations] and at most [max_iterations] iterations, and
    leaves the parameters of the estimator as they were. *)
Theorem Estimate_iterations_within_parameters (p : RansacParameters)
    (self self' : Estimator) (priors : Priors) (cs : list Correspondence)
    (summary out : RansacSummary) (sol : Solution) :
  Build p = Ok self ->
  Estimate self priors cs (Some summary) = Ok (sol, out, self') ->
  min_iterations p <= num_iterations out <= max_iterations p /\
  params_ self' = p.
Proof.
  intros HB HE.
  assert (Hv : valid_parameters p /\ params_ self = p).
  { revert HB. unfold Build, valid_parameters. cbn [params_].
    destruct (0 <? failure_probability p)%float; [|discriminate].
    destruct (failure_probability p <? 1)%float; [|discriminate].
    destruct (0 <? reprojection_error_thresh p)%float; [|discriminate].
    destruct (Z.leb_spec 0 (min_iterations p)); [|discriminate].
    destruct (Z.ltb_spec (min_iterations p) (max_iterations p)); [|discriminate].
    cbn. intros [= <-]. auto 10. }
  destruct Hv as [(_ & _ & _ & Hmin & Hmax) Hp].
  apply Estimate_inv in HE as (indices & st & _ & Hiota & Hr & Hend & _ & -> & ->).
  cbn [num_iterations].
  pose proof (loop_invariant_init self cs indices summary Hiota) as Hinit.
  rewrite Hp in Hinit.
  pose proof (loop_reaches_invariant _ _ _ _ _ _ Hinit Hr) as (Hp' & _).
  assert (Hb : bound_in_range p (Estimate_init self indices summary)).
  { unfold bound_in_range, Estimate_init. cbn. rewrite Hp. lia. }
  destruct (bound_in_range_reaches p priors cs _ _ _ ltac:(lia) Hinit Hb Hr)
    as [Hrange Hnum].
  split; [lia|exact Hp'].
Qed.


(** The inliers of the summary belong to the best solution: either nothing
    improved on the fallback, or they are what scoring the best solution
    gives. *)
Definition inliers_of_best (thr : double) (cs : list Correspondence)
    (st : loop_state) : Prop :=
  (ls_best_solution st = identity_solution /\ inliers (ls_summary st) = []) \/
  (exists rotation translation scale,
     ls_best_solution st = single_hypothesis rotation translation scale /\
     score cs thr rotation translation scale = Ok (inliers (ls_summary st)) /\
     0 < size (inliers (ls_summary st))).

Lemma inliers_of_best_reaches (p : RansacParameters) (priors : Priors)
    (cs : list Correspondence) (lfp : double) (st st' : loop_state) :
  let thr := (reprojection_error_thresh p * reprojection_error_thresh p)%float in
  loop_invariant p cs st -> inliers_of_best thr cs st ->
  loop_reaches priors cs lfp st st' ->
  inliers_of_best thr cs st' /\
  size (inliers (ls_summary st)) <= size (inliers (ls_summary st')).
Proof.
  intros thr Hinv Hb Hr. induction Hr as [|u u' Hr' IH Hc Hstep]; [split; [exact Hb|lia]|].
  pose proof (loop_reaches_invariant _ _ _ _ _ _ Hinv Hr') as Hu.
  pose proof (loop_invariant_step _ _ _ _ _ _ Hu Hstep) as (Hp' & _).
  destruct Hu as (_ & _ & Hone & _).
  destruct IH as [IH Hle].
  apply Estimate_iteration_inv in Hstep as (sample & ok & _ & _ & _ & _ & Hcase).
  destruct ok.
  - destruct Hcase as (HU & _ & _).
    apply UpdateBestSolution_inv in HU; [|exact Hone].
    rewrite Hp' in HU. fold thr in HU.
    destruct HU as [(E1 & E2 & _)|(Hlt & _ & r & t & s & Hsc & E)].
    + unfold inliers_of_best. rewrite E1, E2. split; [exact IH|exact Hle].
    + split; [|lia]. right. exists r, t, s.
      assert (0 <= size (inliers (ls_summary u))) by (unfold size; lia).
      repeat split; auto. lia.
  - destruct Hcase as (E1 & _ & _ & E2 & _).
    unfold inliers_of_best. rewrite E1, E2. split; [exact IH|exact Hle].
Qed.

(** X5. The solution a call returns holds exactly one hypothesis, and the inlier
    set of the summary is consistent with it: either the solution is the
    identity fallback and the set is empty, or the set is not empty and lists,
    in ascending order and without repetition, exactly the indices of the
    correspondences that are inliers of the solution. *)
Theorem Estimate_inliers_belong_to_solution (self self' : Estimator)
    (priors : Priors) (cs : list Correspondence) (summary out : RansacSummary)
    (sol : Solution) :
  let thr := (reprojection_error_thresh (params_ self)
                * reprojection_error_thresh (params_ self))%float in
  Estimate self priors cs (Some summary) = Ok (sol, out, self') ->
  (sol = identity_solution /\ inliers out = []) \/
  (exists rotation translation scale,
     sol = single_hypothesis rotation translation scale /\
     inliers out <> [] /\
     StronglySorted Z.lt (inliers out) /\
     forall j, j ∈ inliers out <->
               inlier_at thr cs rotation translation scale j).
Proof.
  intros thr HE.
  apply Estimate_inv in HE as (indices & st & _ & Hiota & Hr & _ & -> & _ & ->).
  cbn [inliers].
  pose proof (loop_invariant_init self cs indices summary Hiota) as Hinit.
  destruct (inliers_of_best_reaches (params_ self) priors cs _ _ _ Hinit
              ltac:(left; split; reflexivity) Hr) as [[H|H] _]; [left; exact H|].
  right. destruct H as (r & t & s & Hb & Hsc & Hpos). exists r, t, s.
  split; [exact Hb|].
  split; [intros E; rewrite E in Hpos; unfold size in Hpos; cbn in Hpos; lia|].
  assert (Hn : size cs <= INT_MAX).
  { unfold score in Hsc. destruct (Z.leb_spec (size cs) INT_MAX); [lia|discriminate]. }
  destruct (score_spec cs thr r t s Hn) as (l & Hl & Hmem & Hsorted & _).
  fold thr in Hsc. rewrite Hsc in Hl. injection Hl as <-. auto.
Qed.

(** X6. The best inlier set never shrinks during a run: from any state the loop
    reaches to any later one, the number of inliers does not decrease. *)
Theorem best_inlier_count_never_decreases (self : Estimator) (priors : Priors)
    (cs : list Correspondence) (summary : RansacSummary) (lfp : double)
    (indices : list Z) (st st' : loop_state) :
  iota (length cs) = Ok indices ->
  loop_reaches priors cs lfp (Estimate_init self indices summary) st ->
  loop_reaches priors cs lfp st st' ->
  size (inliers (ls_summary st)) <= size (inliers (ls_summary st')).
Proof.
  intros Hiota Hr Hr'.
  pose proof (loop_invariant_init self cs indices summary Hiota) as Hinit.
  pose proof (loop_reaches_invariant _ _ _ _ _ _ Hinit Hr) as Hinv.
  destruct (inliers_of_best_reaches (params_ self) priors cs lfp _ _ Hinit
              ltac:(left; split; reflexivity) Hr) as [Hb _].
  apply (inliers_of_best_reaches (params_ self) priors cs lfp st st' Hinv Hb Hr').
Qed.


(** ** Further properties of the helpers *)

Lemma StronglySorted_lt_NoDup (l : list Z) : StronglySorted Z.lt l -> NoDup l.
Proof.
  induction 1 as [|x l _ IH Hx]; [apply NoDup_nil_2|].
  apply NoDup_cons_2; [|exact IH].
  intros Hin. rewrite Forall_forall in Hx. specialize (Hx x Hin). lia.
Qed.

(** X7. The scoring loop of [UpdateBestSolution] (lines 85-104) returns, for up
    to [INT_MAX] correspondences, the indices of the inliers of the
    hypothesis: each exactly once, in ascending order. *)
Theorem score_lists_the_inliers (cs : list Correspondence) (thr : double)
    (rotation : Quaterniond) (translation : Vector3d) (scale : double) :
  size cs <= INT_MAX ->
  exists l, score cs thr rotation translation scale = Ok l /\
    (forall j, j ∈ l <->
       0 <= j < size cs /\
       exists c, cs !! Z.to_nat j = Some c /\
                 is_inlier thr rotation translation scale c = true) /\
    StronglySorted Z.lt l /\ NoDup l /\ size l <= size cs.
Proof.
  intros Hn. destruct (score_spec cs thr rotation translation scale Hn)
    as (l & Hl & Hmem & Hs & Hsz).
  exists l. split; [exact Hl|]. split; [|auto using StronglySorted_lt_NoDup].
  intros j. rewrite Hmem. unfold inlier_at. split.
  - intros (c & H0 & Hc & Hi). split; [|eauto].
    apply lookup_lt_Some in Hc. unfold size. lia.
  - intros ([H0 _] & c & Hc & Hi). eauto.
Qed.

(** X8. Among several hypotheses [UpdateBestSolution] keeps the first one with
    the largest number of inliers: when the returned inlier set is larger
    than the incoming one, it is the set of a hypothesis that no other
    hypothesis beats and that every earlier hypothesis is strictly below. *)
Theorem UpdateBestSolution_keeps_the_first_best (self : Estimator)
    (cs : list Correspondence) (est b0 b : Solution) (l0 l : list Z) (r : double) :
  let thr := (reprojection_error_thresh (params_ self)
                * reprojection_error_thresh (params_ self))%float in
  size cs <= INT_MAX -> size (rotations est) <= INT_MAX ->
  well_formed est -> holds_one_hypothesis b0 ->
  UpdateBestSolution self cs est b0 l0 = Ok (r, b, l) ->
  size l0 < size l ->
  exists i, hypothesis_scores thr cs est i l b /\
    (forall k lk bk, hypothesis_scores thr cs est k lk bk -> size lk <= size l) /\
    (forall k lk bk, hypothesis_scores thr cs est k lk bk -> k < i ->
       size lk < size l).
Proof.
  intros thr Hn Hm Hwf Hb0 HU Hlt.
  destruct (UpdateBestSolution_spec self cs est b0 l0 Hn Hm Hwf Hb0)
    as (st & Hst & Hbest).
  rewrite HU in Hst. injection Hst as <-. fold thr in Hbest.
  destruct Hbest as (_ & Hall & [(-> & _)|(_ & _ & i & _ & Hi & Hfirst)]); [lia|].
  exists i. split; [exact Hi|]. split; [|exact Hfirst].
  intros k lk bk Hk. apply (Hall k lk bk Hk).
  destruct Hk as (rot & _ & _ & H0 & Hrot & _).
  apply lookup_lt_Some in Hrot. unfold size. lia.
Qed.

Lemma for_loop_Ok_each {St : Type} (body : Z -> St -> outcome St) :
  forall (count : nat) (i : Z) (s s' : St),
  for_loop count i body s = Ok s' ->
  forall k, i <= k < i + Z.of_nat count -> exists t t', body k t = Ok t'.
Proof.
  induction count as [|count IH]; intros i s s' H k Hk; [lia|].
  cbn [for_loop] in H. apply bind_Ok in H as (u & Hb & H).
  destruct (Z.eq_dec k i) as [->|Hne]; [eauto|].
  apply (IH _ _ _ H). lia.
Qed.

(** X9. [Sample] needs [kMinimalSampleSize] correspondences: on fewer, the range
    handed to the integer distribution becomes empty and the behaviour is
    undefined. [Estimate] checks the size before it samples. *)
Theorem Sample_undefined_below_four (self : Estimator) (cs : list Correspondence) :
  size cs < kMinimalSampleSize -> Sample self cs = Undefined.
Proof.
  intros Hn. assert (H0 : 0 <= size cs) by (unfold size; lia).
  pose proof (Sample_no_abort self cs) as Hna.
  destruct (Sample self cs) as [[sample self']| | |] eqn:HS;
    try reflexivity; try contradiction.
  exfalso. unfold Sample in HS.
  apply bind_Ok in HS as ([s smp] & Hrun & _). unfold for_range in Hrun.
  destruct (for_loop_Ok_each _ _ _ _ _ Hrun (size cs)
              ltac:(unfold kMinimalSampleSize in *; cbn; lia))
    as ([s1 smp1] & t' & Hstep).
  unfold Sample_step, RandInt in Hstep.
  rewrite wrap_int_small in Hstep
    by (unfold INT_MIN, INT_MAX, kMinimalSampleSize in *; lia).
  replace (size cs <=? size cs - 1) with false in Hstep
    by (symmetry; apply Z.leb_gt; lia).
  discriminate.
Qed.


Lemma eqb_one (r : double) : (r =? 1)%float = true -> r = 1%float.
Proof.
  intros H. rewrite FloatAxioms.eqb_spec in H. apply Prim2SF_inj.
  replace (Prim2SF 1) with (S754_finite false 4503599627370496 (-52)) in *
    by (vm_compute; reflexivity).
  destruct (Prim2SF r) as [[]|[]| |[] m e]; unfold SFeqb, SFcompare in H;
    try discriminate.
  destruct (e ?= -52) eqn:E; try discriminate.
  destruct (PosDef.Pos.compare_cont Eq m 4503599627370496) eqn:E';
    try discriminate.
  apply Z.compare_eq in E. apply Pos.compare_eq in E'. subst. reflexivity.
Qed.

(** X10. What [ComputeMaxIterations] does with a ratio: it aborts unless the ratio
    is positive, returns [min_iterations] for the ratio [1.0], and whatever
    it returns lies between [min_iterations] and [max_iterations] when these
    are ordered. *)
Theorem ComputeMaxIterations_contract (self : Estimator) (r lfp : double) :
  ((0 <? r)%float = false -> ComputeMaxIterations self r lfp = Fatal) /\
  ((r =? 1)%float = true ->
   ComputeMaxIterations self r lfp = Ok (min_iterations (params_ self))) /\
  (forall v, ComputeMaxIterations self r lfp = Ok v ->
     min_iterations (params_ self) <= max_iterations (params_ self) ->
     min_iterations (params_ self) <= v <= max_iterations (params_ self)).
Proof.
  split; [|split].
  - intros H. unfold ComputeMaxIterations. rewrite H. reflexivity.
  - intros H. unfold ComputeMaxIterations. rewrite H.
    apply eqb_one in H. subst r. reflexivity.
  - intros v H Hle. apply ComputeMaxIterations_Ok in H as (_ & _ & H). auto.
Qed.

(** X11. The ratio [UpdateBestSolution] computes for [k] inliers among [n]
    correspondences is the double [1.0] exactly when all are inliers: this is
    when the early exit of [ComputeMaxIterations] is taken. *)
Theorem ratio_is_one_iff_all_inliers (k n : Z) :
  0 <= k <= n -> 1 <= n <= INT_MAX ->
  (size_ratio k n =? 1)%float = true <-> k = n.
Proof.
  intros Hk Hn. destruct (size_ratio_unit k n Hk Hn) as [Hf _].
  rewrite (eqb_correct _ _ Hf finite_one), F2R_one. split.
  - intros H. destruct (Z.eq_dec k n) as [E|E]; [exact E|exfalso].
    pose proof (ratio_below_one k n ltac:(lia) ltac:(unfold INT_MAX in Hn; lia)).
    pose proof (bpow_gt_0 (-31)). lra.
  - intros ->. apply ratio_one. pose proof INT_MAX_lt_pow53. lia.
Qed.

Lemma format_above_one (y : Rdefinitions.R) :
  representable y -> (1 < y)%R -> (1 + bpow (-52) <= y)%R.
Proof.
  intros Hy H1. destruct (Rle_lt_dec (1 + bpow (-52)) y) as [H|H]; [exact H|exfalso].
  assert (Hone : (IZR (2 ^ 52) * bpow (-52))%R = 1%R).
  { rewrite <- (bpow_IZR 52) by lia. rewrite <- bpow_add. apply bpow_0. }
  assert (Hr : rounds_to y 1).
  { apply (rounds_to_between y (2 ^ 52) (-52) 1); [lia|right; lia| |left; lra].
    rewrite Rmult_plus_distr_r, Hone. lra. }
  pose proof (rounds_to_exact _ _ Hr Hy). lra.
Qed.

(** [pow] with the exponent [kMinimalSampleSize] maps a double above [1] to a
    double above [1]. *)
Definition pow_exceeds_one : Prop :=
  forall x, (1 <? x)%float = true -> (x <=? 2)%float = true ->
    (1 <? libm_pow x (double_of_int kMinimalSampleSize))%float = true.

Lemma ComputeMaxIterations_above_one (self : Estimator) (r lfp : double) :
  libm_conforms -> pow_exceeds_one ->
  (1 <? r)%float = true -> (r <=? 2)%float = true ->
  ComputeMaxIterations self r lfp = Undefined.
Proof.
  intros (_ & Hpow & Hlog) Hex H1 H2.
  pose proof (ltb_finite_l 1 r 2 finite_one finite_two H1 H2) as Hf.
  pose proof H1 as H1'.
  apply ltb_correct in H1'; [|apply finite_one|exact Hf]. rewrite F2R_one in H1'.
  assert (H1le : (1 <=? r)%float = true).
  { apply leb_correct; [apply finite_one|exact Hf|]. rewrite F2R_one. lra. }
  destruct (Hpow r H1le H2) as [_ Ha2]. specialize (Hex r H1 H2).
  set (a := libm_pow r (double_of_int kMinimalSampleSize)) in *.
  pose proof (ltb_finite_l 1 a 16 finite_one finite_sixteen Hex Ha2) as Hfa.
  apply ltb_correct in Hex; [|apply finite_one|exact Hfa].
  apply leb_correct in Ha2; [|exact Hfa|apply finite_sixteen].
  rewrite F2R_one in Hex. rewrite F2R_sixteen in Ha2.
  pose proof (format_above_one _ (F2R_format a) Hex) as Hlow.
  destruct (sub_correct 1 a finite_one Hfa) as [Hfb Hround].
  { rewrite F2R_one. pose proof (bpow_le 5 1023 ltac:(lia)) as Hb.
    rewrite (bpow_IZR 5) in Hb by lia. change (2 ^ 5) with 32 in Hb.
    apply Rabs_def1; lra. }
  rewrite F2R_one in Hround.
  assert (Hneg : (F2R (1 - a) <= - bpow (-52))%R).
  { apply (rounds_to_le _ _ _ Hround); [|lra].
    exists (-1), (-52). split; [lra|]. split; [cbn|]; lia. }
  assert (Hlt : (1 - a <? 0)%float = true).
  { apply ltb_correct; [exact Hfb|apply finite_zero|]. rewrite F2R_zero.
    pose proof (bpow_gt_0 (-52)). lra. }
  unfold ComputeMaxIterations.
  replace (0 <? r)%float with true.
  2:{ symmetry. apply ltb_correct; [apply finite_zero|exact Hf|].
      rewrite F2R_zero. lra. }
  cbn [CHECK mbind outcome_bind].
  replace (r =? 1)%float with false.
  2:{ symmetry. destruct (r =? 1)%float eqn:E; [|reflexivity].
      apply eqb_correct in E; [|exact Hf|apply finite_one]. rewrite F2R_one in E. lra. }
  fold a. apply Hlog in Hlt.
  rewrite (static_cast_int_nan _ (Prim2SF_div_nan _ _ (Prim2SF_sub_nan _ epsilon Hlt))).
  reflexivity.
Qed.

(** X12. Once every correspondence is an inlier of the best solution, scoring
    further hypotheses is undefined: [UpdateBestSolution] finds no
    improvement and returns the ratio [1.0] nudged above [1], for which
    [ComputeMaxIterations] takes the logarithm of a negative number and
    converts a NaN to [int]. *)
Theorem scoring_after_a_perfect_fit_is_undefined (self : Estimator)
    (cs : list Correspondence) (est b0 : Solution) (l0 : list Z) (lfp : double) :
  libm_conforms -> pow_exceeds_one ->
  1 <= size cs <= INT_MAX -> size (rotations est) <= INT_MAX ->
  well_formed est -> holds_one_hypothesis b0 -> size l0 = size cs ->
  exists r, UpdateBestSolution self cs est b0 l0 = Ok (r, b0, l0) /\
    (1 <? r)%float = true /\
    ComputeMaxIterations self r lfp = Undefined.
Proof.
  intros Hlibm Hex Hn Hm Hwf Hb0 Hall.
  destruct (UpdateBestSolution_spec self cs est b0 l0 (proj2 Hn) Hm Hwf Hb0)
    as ([[r b] l] & HU & Hbest).
  destruct Hbest as (_ & _ & [(-> & -> & ->)|(Hlt & _ & i & _ & Hi & _)]).
  2:{ pose proof (hypothesis_scores_size _ _ _ _ _ _ (proj2 Hn) Hi). lia. }
  eexists. split; [exact HU|]. rewrite Hall.
  destruct (size_ratio_unit (size cs) (size cs) ltac:(lia) Hn) as [Hf Hq].
  destruct (add_epsilon_correct _ Hf Hq) as (Hf' & Hgt & [_ Hhi] & _).
  rewrite (ratio_one (size cs)) in Hgt by (pose proof INT_MAX_lt_pow53; lia).
  pose proof (bpow_lt (-52) 0 ltac:(lia)) as Hb1. rewrite bpow_0 in Hb1.
  assert (H1 : (1 <? size_ratio (size cs) (size cs) + epsilon)%float = true).
  { apply ltb_correct; [apply finite_one|exact Hf'|]. rewrite F2R_one. exact Hgt. }
  split; [exact H1|].
  apply ComputeMaxIterations_above_one; auto.
  apply leb_correct; [exact Hf'|apply finite_two|]. rewrite F2R_two. lra.
Qed.


(** *** The conversion of the quotient to [int] *)

Lemma static_cast_int_large (x : double) :
  finite_double x -> (bpow 32 <= F2R x)%R -> static_cast_int x = Undefined.
Proof.
  unfold finite_double, F2R, static_cast_int, truncate. intros Hf Hx.
  pose proof (bpow_gt_0 32) as H32.
  destruct (Prim2SF x) as [s|s| |s m e]; try discriminate; cbn [SF2R] in Hx;
    [lra|].
  destruct s; [pose proof (SF2R_pos m e); lra|].
  assert (Hlarge : 2 ^ 32 <= (if 0 <=? e then Z.pos m * 2 ^ e
                              else Z.pos m / 2 ^ (- e))).
  { rewrite (bpow_IZR 32) in Hx by lia.
    destruct (Z.leb_spec 0 e) as [He|He].
    - apply le_IZR. rewrite mult_IZR, <- (bpow_IZR e) by lia. exact Hx.
    - assert (Hp : 0 < 2 ^ (- e)) by (apply Z.pow_pos_nonneg; lia).
      apply Z.div_le_lower_bound; [exact Hp|].
      apply le_IZR. rewrite mult_IZR, <- (bpow_IZR (- e)) by lia.
      pose proof (bpow_gt_0 (- e)) as Hb.
      assert (Hinv : (bpow e * bpow (- e) = 1)%R).
      { rewrite <- bpow_add. replace (e + - e) with 0 by lia. apply bpow_0. }
      replace (IZR (Z.pos m)) with (IZR (Z.pos m) * bpow e * bpow (- e))%R
        by (rewrite Rmult_assoc, Hinv; ring).
      rewrite (Rmult_comm (bpow (- e))).
      apply Rmult_le_compat_r; [lra|exact Hx]. }
  replace ((INT_MIN <=? _) && (_ <=? INT_MAX)) with false; [reflexivity|].
  symmetry. apply andb_false_iff. right. apply Z.leb_gt.
  unfold INT_MAX. change (2 ^ 32) with 4294967296 in Hlarge. lia.
Qed.

Lemma F2R_minus_epsilon :
  finite_double (0 - epsilon) /\ F2R (0 - epsilon) = (- bpow (-52))%R.
Proof.
  destruct (sub_correct 0 epsilon finite_zero finite_epsilon) as [Hf Hr].
  { rewrite F2R_zero, F2R_epsilon.
    pose proof (bpow_lt (-52) 1023 ltac:(lia)). pose proof (bpow_gt_0 (-52)).
    apply Rabs_def1; lra. }
  split; [exact Hf|].
  rewrite F2R_zero, F2R_epsilon in Hr.
  rewrite (rounds_to_exact _ _ Hr); [lra|].
  exists (-1), (-52). split; [lra|]. split; [cbn|]; lia.
Qed.

(** [log (1 - pow (epsilon, kMinimalSampleSize))] is [0.0]: the power is far
    below half an ulp of [1]. *)
Definition log_prob_vanishes_at_epsilon : Prop :=
  libm_log (1 - libm_pow epsilon (double_of_int kMinimalSampleSize)) = 0%float.

(** X13. When no hypothesis has an inlier the ratio is machine epsilon, and for a
    failure probability of at most [1 - 2^-20] (a logarithm of at most
    [-2^-20]) the quotient that [ComputeMaxIterations] converts to [int] is at
    least [2^32]: the conversion is undefined. *)
Theorem ComputeMaxIterations_undefined_at_epsilon (self : Estimator)
    (lfp : double) :
  log_prob_vanishes_at_epsilon ->
  finite_double lfp -> (- bpow 500 <= F2R lfp <= - bpow (-20))%R ->
  ComputeMaxIterations self epsilon lfp = Undefined.
Proof.
  intros Hlog Hf Hv. unfold ComputeMaxIterations.
  replace (0 <? epsilon)%float with true by reflexivity.
  cbn [CHECK mbind outcome_bind].
  replace (epsilon =? 1)%float with false by reflexivity.
  unfold log_prob_vanishes_at_epsilon in Hlog. rewrite Hlog.
  destruct F2R_minus_epsilon as [Hfe He].
  pose proof (bpow_gt_0 (-20)) as H20. pose proof (bpow_gt_0 (-52)) as H52.
  pose proof (bpow_le (-500) (-20) ltac:(lia)) as Hlo.
  pose proof (bpow_le (-500) (-52) ltac:(lia)) as Hlo'.
  pose proof (bpow_le (-52) 500 ltac:(lia)) as Hhi'.
  destruct (div_correct lfp (0 - epsilon) Hf Hfe) as [Hfq Hr].
  { right. rewrite Rabs_left by lra. lra. }
  { rewrite He, Rabs_left by lra. lra. }
  rewrite (static_cast_int_large _ Hfq); [reflexivity|].
  apply (rounds_to_ge _ _ _ Hr); [apply format_bpow; lia|].
  rewrite He.
  assert (Hinv : (bpow 52 * bpow (-52) = 1)%R).
  { rewrite <- bpow_add. apply bpow_0. }
  replace (F2R lfp / - bpow (-52))%R with (- F2R lfp * bpow 52)%R.
  2:{ field_simplify_eq; [|lra]. rewrite Rmult_assoc, Hinv. ring. }
  replace (bpow 32) with (bpow (-20) * bpow 52)%R by (rewrite <- bpow_add; reflexivity).
  apply Rmult_le_compat_r; [pose proof (bpow_gt_0 52); lra|lra].
Qed.


(** *** A solver that finds no hypothesis *)

(** With the priors [priors] the solver fails on every sample. *)
Definition solver_fails (priors : Priors) : Prop :=
  forall sample hypotheses,
    fst (EstimateSimilarityTransformation
           (set_priors (ComputeInputDatum sample) priors) hypotheses) = false.

(** The loop state differs from [st] only in the sampler, the scratch
    hypotheses and the iteration counter. *)
Definition only_sampled (st st' : loop_state) : Prop :=
  params_ (ls_self st') = params_ (ls_self st) /\
  inliers (ls_summary st') = inliers (ls_summary st) /\
  num_hypotheses (ls_summary st') = num_hypotheses (ls_summary st) /\
  ls_max_iterations st' = ls_max_iterations st /\
  ls_best_solution st' = ls_best_solution st /\
  ls_inlier_ratio st' = ls_inlier_ratio st.

Lemma failing_solver_loop (p : RansacParameters) (priors : Priors)
    (cs : list Correspondence) (lfp : double) :
  solver_fails priors -> uniform_int_in_range ->
  kMinimalSampleSize <= size cs <= INT_MAX ->
  forall (fuel : nat) (st : loop_state),
  loop_invariant p cs st ->
  num_iterations (ls_summary st) <= ls_max_iterations st ->
  ls_max_iterations st - num_iterations (ls_summary st) <= Z.of_nat fuel ->
  exists st', Estimate_loop fuel priors cs lfp st = Ok st' /\
    only_sampled st st' /\
    num_iterations (ls_summary st') = ls_max_iterations st.
Proof.
  intros Hfail Hrng Hn.
  induction fuel as [|fuel IH]; intros st Hinv Hle Hfuel; cbn [Estimate_loop];
    destruct (Z.ltb_spec (num_iterations (ls_summary st)) (ls_max_iterations st))
      as [Hc|Hc]; try lia;
    try (exists st; split; [reflexivity|]; split; [repeat split|lia]).
  pose proof Hinv as (_ & Hperm & _).
  destruct (Sample_spec cs (ls_self st) Hrng Hn Hperm) as (sample & s' & HS & Hp' & _).
  assert (Hstep : Estimate_iteration priors cs lfp st
    = Ok {| ls_self := s';
            ls_summary := next_iteration (ls_summary st);
            ls_max_iterations := ls_max_iterations st;
            ls_hypotheses :=
              snd (EstimateSimilarityTransformation
                     (set_priors (ComputeInputDatum sample) priors)
                     (ls_hypotheses st));
            ls_best_solution := ls_best_solution st;
            ls_inlier_ratio := ls_inlier_ratio st |}).
  { unfold Estimate_iteration. rewrite HS. cbn [mbind outcome_bind].
    specialize (Hfail sample (ls_hypotheses st)).
    destruct (EstimateSimilarityTransformation _ _) as [ok hyps].
    cbn [fst snd] in *. subst ok. reflexivity. }
  rewrite Hstep. cbn [mbind outcome_bind].
  pose proof (loop_invariant_step _ _ _ _ _ _ Hinv Hstep) as Hinv'.
  destruct (IH _ Hinv') as (st' & Hloop & Hsame & Hnum); cbn; try lia.
  exists st'. split; [exact Hloop|]. split; [|exact Hnum].
  destruct Hsame as (H1 & H2 & H3 & H4 & H5 & H6). cbn in *.
  repeat split; congruence.
Qed.

(** X14. When the solver fails on every sample, a call on at least
    [kMinimalSampleSize] correspondences returns after exactly
    [max_iterations] iterations with the identity fallback, no inliers, the
    hypothesis count it was given and the confidence computed from the ratio
    [0.0]; the parameters of the estimator are unchanged. *)
Theorem failing_solver_run (self : Estimator) (priors : Priors)
    (cs : list Correspondence) (summary : RansacSummary) :
  solver_fails priors -> uniform_int_in_range ->
  kMinimalSampleSize <= size cs <= INT_MAX ->
  0 <= max_iterations (params_ self) ->
  exists self',
    Estimate self priors cs (Some summary)
    = Ok (identity_solution,
          {| inliers := [];
             num_iterations := max_iterations (params_ self);
             num_hypotheses := num_hypotheses summary;
             confidence := final_confidence 0 (max_iterations (params_ self)) |},
          self') /\
    params_ self' = params_ self.
Proof.
  intros Hfail Hrng Hn Hmax. unfold Estimate.
  replace (kMinimalSampleSize <=? size cs) with true
    by (symmetry; apply Z.leb_le; lia).
  cbn [CHECK mbind outcome_bind].
  assert (Hiota : iota (length cs) = Ok (map Z.of_nat (seq 0 (length cs)))).
  { unfold iota. replace (Z.of_nat (length cs) <=? INT_MAX + 1) with true;
      [reflexivity|]. symmetry. apply Z.leb_le. unfold size in Hn. lia. }
  rewrite Hiota. cbn [mbind outcome_bind].
  destruct (failing_solver_loop (params_ self) priors cs
              (libm_log (failure_probability (params_ self))) Hfail Hrng Hn
              (loop_budget (params_ self)) (Estimate_init self _ summary)
              (loop_invariant_init self cs _ summary Hiota))
    as (st & Hloop & (H1 & H2 & H3 & H4 & H5 & H6) & Hnum).
  - cbn. exact Hmax.
  - unfold loop_budget. cbn. lia.
  - rewrite Hloop. cbn [mbind outcome_bind]. cbn in *.
    exists (ls_self st). rewrite H2, H3, H5, H6, Hnum. auto.
Qed.


(** X15. [Sample] is a partial shuffle: it permutes the index array, leaves the
    indices of the correspondences it drew in the first [kMinimalSampleSize]
    entries, in the order of the sample, and does not touch the parameters. *)
Theorem Sample_leaves_the_draw_in_front (cs : list Correspondence)
    (self : Estimator) :
  uniform_int_in_range ->
  kMinimalSampleSize <= size cs <= INT_MAX ->
  is_index_permutation (length cs) (correspondence_indices_ self) ->
  exists sample self',
    Sample self cs = Ok (sample, self') /\
    params_ self' = params_ self /\
    correspondence_indices_ self' ≡ₚ correspondence_indices_ self /\
    Forall2 (drawn_at cs) sample
      (take (Z.to_nat kMinimalSampleSize) (correspondence_indices_ self')).
Proof.
  intros Hrng Hn Hperm.
  destruct (Sample_spec cs self Hrng Hn Hperm) as (sample & self' & HS & Hp & _ & Hd).
  exists sample, self'. split; [exact HS|]. split; [exact Hp|].
  split; [apply (Sample_permutes _ _ _ _ HS)|exact Hd].
Qed.

End EstimatorProofs.

(** * A worked instance

    One-dimensional collaborators on which the estimator can be run: points,
    pixels, rotations and translations are doubles, the camera multiplies by
    its focal length and cannot see with a negative one, the solver fits a
    translation to the first correspondence of the sample, the generator is a
    linear congruential one, and [pow] and [log] are computed with the
    arithmetic of doubles. *)
Module Toy.

#[local] Instance toy_geometry : Geometry := {|
  Quaterniond := double;
  Vector3d := double;
  Vector2d := double;
  PinholeCamera := double;
  Quaterniond_Identity := 1%float;
  Vector3d_Zero := 0%float;
  transform_point rotation point translation scale :=
    ((rotation * point + translation) / scale)%float;
  ProjectPoint focal point :=
    if (focal <? 0)%float then None else Some (focal * point)%float;
  squared_distance a b := ((a - b) * (a - b))%float;
|}.

#[local] Instance toy_engine : RandomEngine := {|
  prng := Z;
  prng_seed s := s;
  uniform_int g a b :=
    let g' := (g * 1103515245 + 12345) mod 2147483648 in
    (a + (g' / 65536) mod (b - a + 1), g');
|}.

(** The priors switch the solver on; it then returns one hypothesis: the
    translation that maps the first point of the sample to its observation. *)
#[local] Instance toy_solver
  : MinimalSolver CameraFeatureCorrespondence2D3D Solution := {|
  Priors := bool;
  Input := list CameraFeatureCorrespondence2D3D * bool;
  ComputeInputDatum sample := (sample, false);
  set_priors input priors := (fst input, priors);
  EstimateSimilarityTransformation input hypotheses :=
    match input with
    | (c :: _, true) =>
        (true, {| rotations := [1%float];
                  translations := [(observation c - point c)%float];
                  scales := [1%float] |})
    | _ => (false, hypotheses)
    end;
|}.

(** [x^n] by repeated multiplication. *)
Fixpoint pow_nat (x : double) (n : nat) : double :=
  match n with
  | O => 1%float
  | S n' => (x * pow_nat x n')%float
  end.

(** [pow] for the integral exponents the estimator uses. *)
Definition toy_pow (x y : double) : double :=
  match truncate y with
  | Some k => pow_nat x (Z.to_nat k)
  | None => nan
  end.

(** [log] from the series of [2 artanh ((x - 1) / (x + 1))]. *)
Definition toy_log (x : double) : double :=
  if (x <? 0)%float then nan
  else
    let z := ((x - 1) / (x + 1))%float in
    let z2 := (z * z)%float in
    (2 * z * (1 + z2 * (1 / 3 + z2 * (1 / 5 + z2 * (1 / 7 + z2 * (1 / 9
       + z2 * (1 / 11 + z2 * (1 / 13 + z2 * (1 / 15)))))))))%float.

#[local] Instance toy_libm : Libm := {|
  libm_log := toy_log;
  libm_pow := toy_pow;
|}.

Lemma toy_uniform_int_in_range : uniform_int_in_range.
Proof.
  intros g a b Hab. cbn.
  pose proof (Z.mod_pos_bound ((g * 1103515245 + 12345) mod 2147483648 / 65536)
                (b - a + 1) ltac:(lia)).
  lia.
Qed.

Lemma mul_between (x y : double) (lo hi : R) :
  finite_double x -> finite_double y ->
  representable lo -> representable hi ->
  (lo <= F2R x * F2R y <= hi)%R -> (- bpow 1023 < lo)%R -> (hi < bpow 1023)%R ->
  finite_double (x * y) /\ (lo <= F2R (x * y) <= hi)%R.
Proof.
  intros Hx Hy Hlo Hhi Hv H1 H2.
  destruct (mul_correct x y Hx Hy) as [Hf Hr]; [apply Rabs_def1; lra|].
  split; [exact Hf|]. split.
  - apply (rounds_to_ge _ _ _ Hr Hlo). lra.
  - apply (rounds_to_le _ _ _ Hr Hhi). lra.
Qed.

Lemma bpow_1023_large : (16 < bpow 1023)%R.
Proof.
  pose proof (bpow_le 5 1023 ltac:(lia)) as Hb.
  rewrite (bpow_IZR 5) in Hb by lia. change (2 ^ 5) with 32 in Hb. lra.
Qed.

Lemma pow_nat_unit (x : double) (n : nat) :
  finite_double x -> (0 <= F2R x <= 1)%R ->
  finite_double (pow_nat x n) /\ (0 <= F2R (pow_nat x n) <= 1)%R.
Proof.
  intros Hx Hv. induction n as [|n [IHf IHv]]; cbn [pow_nat].
  - split; [apply finite_one|]. rewrite F2R_one. lra.
  - pose proof bpow_1023_large.
    apply mul_between; auto using format_0, format_1; try lra. nra.
Qed.

Lemma pow_nat_four (x : double) :
  finite_double x -> (1 <= F2R x <= 2)%R ->
  finite_double (pow_nat x 4) /\ (F2R x <= F2R (pow_nat x 4) <= 16)%R.
Proof.
  intros Hx Hv. pose proof bpow_1023_large as Hb. cbn [pow_nat].
  assert (H4 : representable 4) by (apply (format_IZR 4); cbn; lia).
  assert (H8 : representable 8) by (apply (format_IZR 8); cbn; lia).
  assert (H16 : representable 16) by (apply (format_IZR 16); cbn; lia).
  pose proof (F2R_format x) as Hfx.
  destruct (mul_between x 1 (F2R x) (F2R x) Hx finite_one Hfx Hfx) as [Hf1 Hv1];
    [rewrite F2R_one; lra|lra|lra|].
  destruct (mul_between x (x * 1) (F2R x) 4 Hx Hf1 Hfx H4) as [Hf2 Hv2];
    [nra|lra|lra|].
  destruct (mul_between x (x * (x * 1)) (F2R x) 8 Hx Hf2 Hfx H8) as [Hf3 Hv3];
    [nra|lra|lra|].
  apply (mul_between x (x * (x * (x * 1))) (F2R x) 16 Hx Hf3 Hfx H16); [nra|lra|lra].
Qed.


Lemma truncate_finite (x : double) :
  finite_double x -> exists k, truncate x = Some k.
Proof.
  unfold finite_double, truncate.
  destruct (Prim2SF x); cbn; try discriminate; eauto.
Qed.

Lemma double_of_int_finite (n : Z) :
  0 <= n <= INT_MAX -> finite_double (double_of_int n).
Proof.
  intros Hn. unfold double_of_int.
  replace (n <? 0) with false by (symmetry; apply Z.ltb_ge; lia).
  apply of_uint63_exact. pose proof INT_MAX_lt_pow53. lia.
Qed.

Lemma toy_libm_conforms : libm_conforms.
Proof.
  split; [|split].
  - intros x n Hn H0 H1. destruct (leb_unit x H0 H1) as [Hf Hv].
    cbn [libm_pow toy_libm]. unfold toy_pow.
    destruct (truncate_finite _ (double_of_int_finite n Hn)) as [k ->].
    destruct (pow_nat_unit x (Z.to_nat k) Hf Hv) as [Hf' Hv'].
    apply unit_leb; assumption.
  - intros x H1 H2.
    pose proof (leb_finite 1 x 2 finite_one finite_two H1 H2) as Hf.
    apply leb_correct in H1; [|apply finite_one|exact Hf].
    apply leb_correct in H2; [|exact Hf|apply finite_two].
    rewrite F2R_one in H1. rewrite F2R_two in H2.
    cbn [libm_pow toy_libm]. unfold toy_pow.
    replace (truncate (double_of_int kMinimalSampleSize)) with (Some 4)
      by (vm_compute; reflexivity).
    change (Z.to_nat 4) with 4%nat.
    destruct (pow_nat_four x Hf ltac:(lra)) as [Hf' Hv'].
    split; (apply leb_correct; [auto using finite_one, finite_sixteen ..|]);
      rewrite ?F2R_one, ?F2R_sixteen; lra.
  - intros x Hx. cbn [libm_log toy_libm]. unfold toy_log. rewrite Hx. reflexivity.
Qed.

Lemma toy_pow_exceeds_one : pow_exceeds_one.
Proof.
  intros x H1 H2.
  pose proof (ltb_finite_l 1 x 2 finite_one finite_two H1 H2) as Hf.
  apply ltb_correct in H1; [|apply finite_one|exact Hf].
  apply leb_correct in H2; [|exact Hf|apply finite_two].
  rewrite F2R_one in H1. rewrite F2R_two in H2.
  cbn [libm_pow toy_libm]. unfold toy_pow.
  replace (truncate (double_of_int kMinimalSampleSize)) with (Some 4)
    by (vm_compute; reflexivity).
  change (Z.to_nat 4) with 4%nat.
  destruct (pow_nat_four x Hf ltac:(lra)) as [Hf' Hv'].
  apply ltb_correct; [apply finite_one|exact Hf'|]. rewrite F2R_one. lra.
Qed.


(** ** Data to run the estimator on *)

Definition correspondence (focal obs pt : double)
    : CameraFeatureCorrespondence2D3D :=
  {| camera := focal; observation := obs; point := pt |}.

Definition parameters (fp : double) (lo hi : Z) : RansacParameters :=
  {| failure_probability := fp;
     reprojection_error_thresh := 0.5%float;
     min_iterations := lo;
     max_iterations := hi;
     seed := 1 |}.

(** The estimator the constructor builds from [p]. *)
Definition built (p : RansacParameters) : GdlsStarRobustEstimator :=
  {| params_ := p; prng_ := prng_seed (seed p); correspondence_indices_ := [] |}.

(** A summary as a caller declares it, and one left over from another run. *)
Definition fresh : RansacSummary :=
  {| inliers := []; num_iterations := 0; num_hypotheses := 0;
     confidence := 0%float |}.

Definition stale : RansacSummary :=
  {| inliers := [2; 0]; num_iterations := 5; num_hypotheses := 7;
     confidence := 0.25%float |}.

(** Two correspondences agree on the translation 0, the others on 5 and 9. *)
Definition mixed : list CameraFeatureCorrespondence2D3D :=
  [correspondence 1 0 0; correspondence 1 0 0;
   correspondence 1 5 0; correspondence 1 9 0].

(** All correspondences agree on the translation 3. *)
Definition perfect : list CameraFeatureCorrespondence2D3D :=
  [correspondence 1 4 1; correspondence 1 5 2;
   correspondence 1 6 3; correspondence 1 7 4].

(** No camera sees its point: no correspondence can be an inlier. *)
Definition blind : list CameraFeatureCorrespondence2D3D :=
  [correspondence (-1) 4 1; correspondence (-1) 5 2;
   correspondence (-1) 6 3; correspondence (-1) 7 4].

Lemma blind_no_inliers (thr : double) : no_inliers thr blind.
Proof.
  intros rotation translation scale c Hc. unfold blind in Hc.
  repeat (apply elem_of_cons in Hc as [->|Hc]; [reflexivity|]).
  apply elem_of_nil in Hc. contradiction.
Qed.

Ltac sizes :=
  unfold size, INT_MAX, INT_MIN, kMinimalSampleSize; cbn; lia.

(** ** Two calls in a row *)

(** One iteration, failure probability one half. *)
Definition one_shot : RansacParameters := parameters 0.5 0 1.

Definition translated (t : double) : Solution :=
  {| rotations := [1%float]; translations := [t]; scales := [1%float] |}.

Definition first_summary : RansacSummary :=
  {| inliers := [2]; num_iterations := 1; num_hypotheses := 1;
     confidence := 0.00390625%float |}.

Definition after_first : GdlsStarRobustEstimator :=
  {| params_ := one_shot; prng_ := 1147902781;
     correspondence_indices_ := [2; 0; 3; 1] |}.

Definition second_summary : RansacSummary :=
  {| inliers := [3]; num_iterations := 1; num_hypotheses := 1;
     confidence := 0.00390625%float |}.

Definition after_second : GdlsStarRobustEstimator :=
  {| params_ := one_shot; prng_ := 486256185;
     correspondence_indices_ := [3; 0; 2; 1] |}.

Lemma first_call :
  Estimate (built one_shot) true mixed (Some fresh)
  = Ok (translated 5, first_summary, after_first).
Proof. reflexivity. Qed.

Lemma second_call :
  Estimate after_first true mixed (Some fresh)
  = Ok (translated 9, second_summary, after_second).
Proof. reflexivity. Qed.

Lemma built_one_shot : Build one_shot = Ok (built one_shot).
Proof. reflexivity. Qed.

(** C1: the hypothesis count of the summary is not reset. The same call,
    given a summary that holds the count 7 from an earlier run, returns the
    count 8 where a summary that holds 0 returns 1; the stale inliers,
    iteration count and confidence leave no trace. *)
Theorem stale_hypothesis_count_is_kept :
  Estimate (built one_shot) true mixed (Some fresh)
    = Ok (translated 5, first_summary, after_first) /\
  Estimate (built one_shot) true mixed (Some stale)
    = Ok (translated 5,
          {| inliers := [2]; num_iterations := 1; num_hypotheses := 8;
             confidence := 0.00390625%float |},
          after_first) /\
  num_hypotheses stale = 7 /\ num_hypotheses first_summary = 1.
Proof. repeat split; reflexivity. Qed.

(** C3 as stated fails: the second of two calls on one estimator, with the
    same correspondences, priors, parameters and seed, continues the random
    sequence where the first call left it and returns another solution and
    another summary. *)
Lemma consecutive_calls_differ :
  Build one_shot = Ok (built one_shot) /\
  Estimate (built one_shot) true mixed (Some fresh)
    = Ok (translated 5, first_summary, after_first) /\
  Estimate after_first true mixed (Some fresh)
    = Ok (translated 9, second_summary, after_second) /\
  params_ after_first = params_ (built one_shot) /\
  translated 5 <> translated 9 /\
  first_summary <> second_summary.
Proof.
  split; [exact built_one_shot|]. split; [exact first_call|].
  split; [exact second_call|]. split; [reflexivity|].
  split; intros H.
  - apply (f_equal (fun s => match @translations toy_geometry s with
                             | t :: _ => (t =? 5)%float
                             | [] => false
                             end)) in H.
    vm_compute in H. discriminate.
  - apply (f_equal inliers) in H. discriminate.
Qed.

Lemma Estimate_equal_state_equal_result_witness :
  Estimate (built one_shot) true mixed (Some fresh)
  = Estimate {| params_ := one_shot; prng_ := prng_seed 1;
                correspondence_indices_ := [3; 3; 0] |}
      true mixed (Some {| inliers := [1]; num_iterations := 9;
                          num_hypotheses := 0; confidence := 0.5%float |}).
Proof.
  apply (Estimate_equal_state_equal_result (built one_shot)); reflexivity.
Defined.

(** ** A perfect fit *)

Definition perfect_summary : RansacSummary :=
  {| inliers := [0; 1; 2; 3]; num_iterations := 1; num_hypotheses := 1;
     confidence := 1%float |}.

Lemma perfect_call :
  Estimate (built (parameters 0.5 0 3)) true perfect (Some fresh)
  = Ok (translated 3, perfect_summary,
        {| params_ := parameters 0.5 0 3; prng_ := 1147902781;
           correspondence_indices_ := [2; 0; 3; 1] |}).
Proof. reflexivity. Qed.

(** C2 as stated fails: when every correspondence is an inlier the ratio is
    [1.0] and the final confidence is [1 - pow (1 - 1, 1) = 1], which is not
    below [1]. *)
Lemma confidence_reaches_one :
  Build (parameters 0.5 0 3) = Ok (built (parameters 0.5 0 3)) /\
  Estimate (built (parameters 0.5 0 3)) true perfect (Some fresh)
  = Ok (translated 3, perfect_summary,
        {| params_ := parameters 0.5 0 3; prng_ := 1147902781;
           correspondence_indices_ := [2; 0; 3; 1] |}) /\
  confidence perfect_summary = 1%float /\
  (confidence perfect_summary <? 1)%float = false.
Proof.
  split; [reflexivity|]. split; [exact perfect_call|].
  split; reflexivity.
Qed.

Lemma final_confidence_in_unit_interval_witness :
  (0 <=? confidence first_summary)%float = true /\
  (confidence first_summary <=? 1)%float = true.
Proof.
  apply (@final_confidence_in_unit_interval toy_geometry toy_engine toy_libm
           toy_solver (built one_shot) after_first true mixed fresh
           first_summary (translated 5) toy_libm_conforms);
    [sizes .. | exact first_call].
Defined.


(** ** Scoring several hypotheses *)

(** Translations 9, 5, 0 and 0 again: the third is the first with two
    inliers among [mixed]. *)
Definition four_hypotheses : Solution :=
  {| rotations := [1; 1; 1; 1]%float;
     translations := [9; 5; 0; 0]%float;
     scales := [1; 1; 1; 1]%float |}.

Lemma four_hypotheses_well_formed : well_formed four_hypotheses.
Proof. split; reflexivity. Qed.

Lemma identity_holds_one_hypothesis : holds_one_hypothesis identity_solution.
Proof. eexists _, _, _. reflexivity. Qed.

Lemma UpdateBestSolution_returned_ratio_witness :
  (1 <= size mixed <= INT_MAX /\ well_formed four_hypotheses) /\
  exists r b l,
    UpdateBestSolution (built one_shot) mixed four_hypotheses identity_solution []
    = Ok (r, b, l) /\
    (0 <? r)%float = true /\
    (size_ratio (size (@nil Z)) (size mixed) <=? r)%float = true.
Proof.
  split; [split; [sizes|exact four_hypotheses_well_formed]|].
  pose proof (@UpdateBestSolution_returned_ratio toy_geometry toy_engine
                (built one_shot) mixed four_hypotheses identity_solution []
                ltac:(sizes) ltac:(sizes) four_hypotheses_well_formed
                identity_holds_one_hypothesis ltac:(sizes)) as H.
  cbv zeta in H. destruct H as (r & b & l & HU & _ & _ & _ & Hpos & Hge).
  exists r, b, l. auto.
Defined.

(** ** Runs without inliers *)

(** Failure probabilities just below one: [1 - 2^-31] and [1 - 2^-53]. *)
Definition patient : RansacParameters := parameters 0x1.fffffffcp-1 0 10.
Definition eager : RansacParameters := parameters 0x1.fffffffffffffp-1 0 10.

Lemma patient_keeps_bound : keeps_bound (built patient).
Proof.
  intros [sample priors] h. cbn.
  destruct sample as [|c sample], priors; cbn; try discriminate.
  intros _. split; [split; reflexivity|]. split; [sizes|reflexivity].
Qed.

Lemma no_inlier_run_returns_fallback_witness :
  no_inliers (0.5 * 0.5)%float blind /\
  exists out self',
    Estimate (built patient) true blind (Some fresh)
    = Ok (identity_solution, out, self') /\
    inliers out = [] /\ num_iterations out = 10.
Proof.
  split; [apply blind_no_inliers|].
  apply (@no_inlier_run_returns_fallback toy_geometry toy_engine toy_libm
           toy_solver (built patient) true blind fresh (blind_no_inliers _));
    [exact toy_uniform_int_in_range|sizes|sizes|exact patient_keeps_bound].
Defined.

(** C5 as stated fails: with a failure probability of [1 - 2^-53] the bound
    recomputed for the ratio epsilon is [0], and a run in which no hypothesis
    has an inlier ends after one of its ten iterations. *)
Lemma no_inlier_run_stops_early :
  Build eager = Ok (built eager) /\
  no_inliers (0.5 * 0.5)%float blind /\
  Estimate (built eager) true blind (Some fresh)
  = Ok (identity_solution,
        {| inliers := []; num_iterations := 1; num_hypotheses := 1;
           confidence := 0%float |},
        {| params_ := eager; prng_ := 1147902781;
           correspondence_indices_ := [2; 0; 3; 1] |}) /\
  max_iterations eager = 10.
Proof.
  split; [reflexivity|]. split; [apply blind_no_inliers|].
  split; reflexivity.
Qed.

(** C7: the conversion of the quotient to [int] overflows. For the ratio
    epsilon, which [UpdateBestSolution] returns when no hypothesis has an
    inlier, and the failure probability one half, the quotient is about
    [3.1e15]: the behaviour of [ComputeMaxIterations], and of the run that
    calls it, is undefined. *)
Theorem ComputeMaxIterations_overflows :
  valid_parameters (parameters 0.5 0 10) /\
  (0 <? epsilon)%float = true /\ (epsilon <=? 1)%float = true /\
  ComputeMaxIterations (built (parameters 0.5 0 10)) epsilon
    (libm_log (failure_probability (parameters 0.5 0 10))) = Undefined /\
  Estimate (built (parameters 0.5 0 10)) true blind (Some fresh) = Undefined.
Proof.
  split; [repeat split; try reflexivity; cbn; lia|].
  repeat split; reflexivity.
Qed.


(** ** Sampling and the index array *)

Definition reset : GdlsStarRobustEstimator :=
  {| params_ := one_shot; prng_ := prng_seed 1;
     correspondence_indices_ := [0; 1; 2; 3] |}.

Lemma Sample_draws_distinct_witness :
  exists sample self' drawn,
    Sample reset mixed = Ok (sample, self') /\
    size sample = kMinimalSampleSize /\
    size drawn = kMinimalSampleSize /\
    NoDup drawn /\
    Forall2 (drawn_at mixed) sample drawn /\
    is_index_permutation (length mixed) (correspondence_indices_ self').
Proof.
  apply (@Sample_draws_distinct toy_geometry toy_engine mixed reset
           toy_uniform_int_in_range); [sizes|].
  unfold is_index_permutation. reflexivity.
Defined.

(** The state of the loop after the first iteration of [first_call]. *)
Definition after_one_iteration : loop_state :=
  {| ls_self := after_first;
     ls_summary := {| inliers := [2]; num_iterations := 1;
                      num_hypotheses := 1; confidence := 0%float |};
     ls_max_iterations := 1;
     ls_hypotheses := translated 5;
     ls_best_solution := translated 5;
     ls_inlier_ratio := 0.25%float |}.

Lemma first_iteration :
  loop_reaches true mixed (libm_log (failure_probability one_shot))
    (Estimate_init (built one_shot) [0; 1; 2; 3] fresh) after_one_iteration.
Proof.
  eapply reaches_next; [apply reaches_start|cbn; lia|reflexivity].
Defined.

Lemma indices_stay_a_permutation_witness :
  is_index_permutation (length mixed) [0; 1; 2; 3] /\
  is_index_permutation (length mixed)
    (correspondence_indices_ (ls_self after_one_iteration)) /\
  forall sample self',
    Sample (ls_self after_one_iteration) mixed = Ok (sample, self') ->
    is_index_permutation (length mixed) (correspondence_indices_ self').
Proof.
  apply (@indices_stay_a_permutation toy_geometry toy_engine toy_libm toy_solver
           (built one_shot) true mixed fresh
           (libm_log (failure_probability one_shot)) [0; 1; 2; 3]
           after_one_iteration eq_refl first_iteration).
Defined.

Lemma ComputeMaxIterations_check_never_fires_witness :
  kMinimalSampleSize <= size mixed <= INT_MAX /\
  Estimate (built one_shot) true mixed (Some fresh) <> Fatal.
Proof.
  split; [sizes|].
  apply (@ComputeMaxIterations_check_never_fires toy_geometry toy_engine
           toy_libm toy_solver (built one_shot) true mixed fresh).
  sizes.
Defined.


(** ** Instances of the further properties *)

Definition too_few : list CameraFeatureCorrespondence2D3D :=
  [correspondence 1 0 0; correspondence 1 5 0; correspondence 1 9 0].

Lemma Estimate_reads_only_the_hypothesis_count_witness :
  exists out2,
    Estimate (built one_shot) true mixed (Some stale)
    = Ok (translated 5, out2, after_first) /\
    inliers out2 = inliers first_summary /\
    num_iterations out2 = num_iterations first_summary /\
    confidence out2 = confidence first_summary /\
    wrap_int (num_hypotheses out2)
    = wrap_int (num_hypotheses first_summary
                + (num_hypotheses stale - num_hypotheses fresh)).
Proof.
  apply (@Estimate_reads_only_the_hypothesis_count toy_geometry toy_engine
           toy_libm toy_solver (built one_shot) after_first true mixed fresh
           stale first_summary (translated 5) first_call).
Defined.

Lemma Estimate_aborts_exactly_on_bad_arguments_witness :
  size too_few <= INT_MAX /\
  (Estimate (built one_shot) true too_few (Some fresh) = Fatal <->
   Some fresh = None \/ size too_few < kMinimalSampleSize).
Proof.
  split; [sizes|].
  apply (@Estimate_aborts_exactly_on_bad_arguments toy_geometry toy_engine
           toy_libm toy_solver (built one_shot) true too_few (Some fresh)).
  sizes.
Defined.

Lemma Estimate_iterations_within_parameters_witness :
  min_iterations one_shot <= num_iterations first_summary
    <= max_iterations one_shot /\
  params_ after_first = one_shot.
Proof.
  apply (@Estimate_iterations_within_parameters toy_geometry toy_engine
           toy_libm toy_solver one_shot (built one_shot) after_first true
           mixed fresh first_summary (translated 5) built_one_shot first_call).
Defined.

Lemma Estimate_inliers_belong_to_solution_witness :
  (translated 5 = identity_solution /\ inliers first_summary = []) \/
  (exists rotation translation scale,
     translated 5 = single_hypothesis rotation translation scale /\
     inliers first_summary <> [] /\
     StronglySorted Z.lt (inliers first_summary) /\
     forall j, j ∈ inliers first_summary <->
               inlier_at (0.5 * 0.5)%float mixed rotation translation scale j).
Proof.
  apply (@Estimate_inliers_belong_to_solution toy_geometry toy_engine
           toy_libm toy_solver (built one_shot) after_first true mixed fresh
           first_summary (translated 5) first_call).
Defined.

Lemma best_inlier_count_never_decreases_witness :
  size (inliers (ls_summary (Estimate_init (built one_shot) [0; 1; 2; 3] fresh)))
  <= size (inliers (ls_summary after_one_iteration)).
Proof.
  apply (@best_inlier_count_never_decreases toy_geometry toy_engine toy_libm
           toy_solver (built one_shot) true mixed fresh
           (libm_log (failure_probability one_shot)) [0; 1; 2; 3]
           _ after_one_iteration eq_refl (reaches_start _ _ _ _) first_iteration).
Defined.

Lemma score_lists_the_inliers_witness :
  size mixed <= INT_MAX /\
  exists l, score mixed (0.5 * 0.5)%float 1%float 0%float 1%float = Ok l /\
    (forall j, j ∈ l <->
       0 <= j < size mixed /\
       exists c, mixed !! Z.to_nat j = Some c /\
                 is_inlier (0.5 * 0.5)%float 1%float 0%float 1%float c = true) /\
    StronglySorted Z.lt l /\ NoDup l /\ size l <= size mixed.
Proof.
  split; [sizes|].
  apply (@score_lists_the_inliers toy_geometry mixed (0.5 * 0.5)%float
           1%float 0%float 1%float).
  sizes.
Defined.

Lemma UpdateBestSolution_keeps_the_first_best_witness :
  UpdateBestSolution (built one_shot) mixed four_hypotheses identity_solution []
  = Ok (0.5%float, translated 0, [0; 1]) /\
  exists i,
    hypothesis_scores (0.5 * 0.5)%float mixed four_hypotheses i [0; 1]
      (translated 0) /\
    (forall k lk bk,
       hypothesis_scores (0.5 * 0.5)%float mixed four_hypotheses k lk bk ->
       size lk <= size [0; 1]) /\
    (forall k lk bk,
       hypothesis_scores (0.5 * 0.5)%float mixed four_hypotheses k lk bk ->
       k < i -> size lk < size [0; 1]).
Proof.
  split; [reflexivity|].
  apply (@UpdateBestSolution_keeps_the_first_best toy_geometry toy_engine
           (built one_shot) mixed four_hypotheses identity_solution
           (translated 0) [] [0; 1] 0.5%float
           ltac:(sizes) ltac:(sizes) four_hypotheses_well_formed
           identity_holds_one_hypothesis eq_refl).
  sizes.
Defined.

Lemma Sample_undefined_below_four_witness :
  size too_few < kMinimalSampleSize /\ Sample reset too_few = Undefined.
Proof.
  split; [sizes|].
  apply (@Sample_undefined_below_four toy_geometry toy_engine reset too_few).
  sizes.
Defined.

Lemma ratio_is_one_iff_all_inliers_witness :
  (size_ratio 4 4 =? 1)%float = true <-> 4 = 4.
Proof.
  apply (ratio_is_one_iff_all_inliers 4 4); unfold INT_MAX; lia.
Defined.

Lemma scoring_after_a_perfect_fit_is_undefined_witness :
  exists r,
    UpdateBestSolution (built one_shot) perfect four_hypotheses (translated 3)
      [0; 1; 2; 3] = Ok (r, translated 3, [0; 1; 2; 3]) /\
    (1 <? r)%float = true /\
    ComputeMaxIterations (built one_shot) r
      (libm_log (failure_probability one_shot)) = Undefined.
Proof.
  apply (@scoring_after_a_perfect_fit_is_undefined toy_geometry toy_engine
           toy_libm (built one_shot) perfect four_hypotheses (translated 3)
           [0; 1; 2; 3] (libm_log (failure_probability one_shot))
           toy_libm_conforms toy_pow_exceeds_one);
    [sizes|sizes|exact four_hypotheses_well_formed| |reflexivity].
  eexists _, _, _. reflexivity.
Defined.


Lemma F2R_minus_one : F2R (-1)%float = (-1)%R.
Proof.
  unfold F2R.
  replace (Prim2SF (-1)) with (S754_finite true (Z.to_pos (2 ^ 52)) (-52))
    by reflexivity.
  cbn [SF2R]. change (Z.pos (Z.to_pos (2 ^ 52))) with (2 ^ 52).
  rewrite IZR_pow2_bpow by lia. change (52 + -52) with 0. rewrite bpow_0. lra.
Qed.

Lemma ComputeMaxIterations_undefined_at_epsilon_witness :
  ComputeMaxIterations (built one_shot) epsilon (-1)%float = Undefined.
Proof.
  apply (@ComputeMaxIterations_undefined_at_epsilon toy_engine toy_libm
           (built one_shot) (-1)%float); [reflexivity|reflexivity|].
  rewrite F2R_minus_one.
  pose proof (bpow_ge_1 500 ltac:(lia)).
  pose proof (bpow_le (-20) 0 ltac:(lia)) as Hb. rewrite bpow_0 in Hb.
  lra.
Defined.

Lemma toy_solver_fails : solver_fails false.
Proof. intros [|c sample] h; reflexivity. Qed.

Lemma failing_solver_run_witness :
  exists self',
    Estimate (built patient) false mixed (Some stale)
    = Ok (identity_solution,
          {| inliers := [];
             num_iterations := max_iterations (params_ (built patient));
             num_hypotheses := num_hypotheses stale;
             confidence :=
               final_confidence 0 (max_iterations (params_ (built patient))) |},
          self') /\
    params_ self' = params_ (built patient).
Proof.
  apply (@failing_solver_run toy_geometry toy_engine toy_libm toy_solver
           (built patient) false mixed stale toy_solver_fails
           toy_uniform_int_in_range); sizes.
Defined.

Lemma Sample_leaves_the_draw_in_front_witness :
  exists sample self',
    Sample reset mixed = Ok (sample, self') /\
    params_ self' = params_ reset /\
    correspondence_indices_ self' ≡ₚ correspondence_indices_ reset /\
    Forall2 (drawn_at mixed) sample
      (take (Z.to_nat kMinimalSampleSize) (correspondence_indices_ self')).
Proof.
  apply (@Sample_leaves_the_draw_in_front toy_geometry toy_engine mixed reset
           toy_uniform_int_in_range); [sizes|].
  unfold is_index_permutation. reflexivity.
Defined.

End Toy.
